(** * The duplex split engine of dorado (read_pipeline/DuplexSplitNode.cpp)

    A shallow embedding of the range algebra, the pore-signal detector, the
    identifier and timestamp helpers, the subread factory, the cut operation
    and the split orchestrator, with the properties the specification states
    about them.

    Conventions of the embedding:
    - [size_t] and [uint64_t] values are integers of [Z] in [0, 2^64);
      every addition and subtraction of the source is written with its
      wrap-around ([wrap64]).
    - [assert], C++ exceptions and undefined behaviour (an index outside its
      vector, a division by zero) are failures of the [result] monad.
    - a [std::vector] or a tensor is a [list]; a [std::string] is a
      [string]. *)

From Stdlib Require Import ZArith List Bool Lia String Ascii Arith.
From Stdlib Require Import QArith.
Import ListNotations.

Close Scope Q_scope.
Open Scope Z_scope.

(** ** Failures and the result monad *)

Inductive failure : Type :=
| AssertionFailed      (* an [assert] of the source does not hold *)
| UndefinedBehaviour   (* an index or iterator outside its container, x / 0 *)
| StdException         (* std::out_of_range, std::invalid_argument *)
| BadVariantAccess.    (* std::get on the wrong alternative *)

Inductive result (A : Type) : Type :=
| Ok (a : A)
| Err (e : failure).
Arguments Ok {A} a.
Arguments Err {A} e.

Definition bind {A B : Type} (c : result A) (k : A -> result B) : result B :=
  match c with
  | Ok a => k a
  | Err e => Err e
  end.

Notation "x <- c ;; k" := (bind c (fun x => k))
  (at level 61, c at next level, right associativity).
Notation "c ;;; k" := (bind c (fun _ => k))
  (at level 61, right associativity).

Definition assert (b : bool) : result unit :=
  if b then Ok tt else Err AssertionFailed.

Fixpoint mapM {A B : Type} (f : A -> result B) (l : list A) : result (list B) :=
  match l with
  | [] => Ok []
  | a :: l' => b <- f a ;; bs <- mapM f l' ;; Ok (b :: bs)
  end.

(** ** Machine integers *)

Definition wrap64 (x : Z) : Z := x mod 2 ^ 64.
Definition uint64 (x : Z) : Prop := 0 <= x < 2 ^ 64.

(** [v[i]] and [v.at(i)]: reading outside the vector is a failure. *)
Definition index {A : Type} (v : list A) (i : Z) : result A :=
  if i <? 0 then Err UndefinedBehaviour
  else match nth_error v (Z.to_nat i) with
       | Some a => Ok a
       | None => Err UndefinedBehaviour
       end.

Definition size {A : Type} (v : list A) : Z := Z.of_nat (List.length v).

(** [v.back()] *)
Definition back {A : Type} (v : list A) : option A :=
  match rev v with
  | [] => None
  | a :: _ => Some a
  end.

(** ** Ranges *)

(** [PosRange] is [std::pair<uint64_t, uint64_t>], read as [first, second). *)
Definition PosRange : Type := (Z * Z)%type.
Definition PosRanges : Type := list PosRange.
Definition first (r : PosRange) : Z := fst r.
Definition second (r : PosRange) : Z := snd r.

Definition uint64_range (r : PosRange) : Prop :=
  uint64 (first r) /\ uint64 (second r).

(** [filter_ranges] is [std::copy_if] with a back inserter; the predicates
    of the source can fail. *)
Fixpoint filter_ranges (ranges : PosRanges) (filter_f : PosRange -> result bool)
  : result PosRanges :=
  match ranges with
  | [] => Ok []
  | r :: rest =>
      keep <- filter_f r ;;
      filtered <- filter_ranges rest filter_f ;;
      Ok (if keep then r :: filtered else filtered)
  end.

(** One iteration of the loop of [merge_ranges]; [merged] is the vector
    built so far. *)
Definition merge_step (merge_dist : Z) (merged : PosRanges) (r : PosRange)
  : result PosRanges :=
  match back merged with
  | None => Ok (merged ++ [r])
  | Some b =>
      assert (first r >=? first b) ;;;
      if first r >? wrap64 (second b + merge_dist)
      then Ok (merged ++ [r])
      else Ok (removelast merged ++ [(first b, second r)])
  end.

Fixpoint merge_loop (merge_dist : Z) (ranges : PosRanges) (merged : PosRanges)
  : result PosRanges :=
  match ranges with
  | [] => Ok merged
  | r :: rest =>
      merged' <- merge_step merge_dist merged r ;;
      merge_loop merge_dist rest merged'
  end.

Definition merge_ranges (ranges : PosRanges) (merge_dist : Z) : result PosRanges :=
  merge_loop merge_dist ranges [].

(** ** Strings and bytes *)

Definition str_size (s : string) : Z := Z.of_nat (String.length s).

(** [std::string::substr(pos, count)]: throws when [pos > size()], and
    stops at the end of the string. *)
Definition substr (s : string) (pos count : Z) : result string :=
  if pos >? str_size s then Err StdException
  else Ok (substring (Z.to_nat pos) (Z.to_nat (Z.min count (str_size s - pos))) s).

(** The characters [c_str + first, c_str + second) of a string. *)
Definition char_range (s : string) (r : PosRange) : result string :=
  if (first r <=? second r) && (second r <=? str_size s)
  then Ok (substring (Z.to_nat (first r)) (Z.to_nat (second r - first r)) s)
  else Err UndefinedBehaviour.

Definition bytes_of_string (s : string) : list Z :=
  map (fun c => Z.of_nat (nat_of_ascii c)) (list_ascii_of_string s).

Definition digit_char (d : Z) : ascii := ascii_of_nat (48 + Z.to_nat d).

(** The decimal digits of [n >= 0], most significant first, before [acc]. *)
Fixpoint digits_of (fuel : nat) (n : Z) (acc : string) : string :=
  match fuel with
  | O => acc
  | S fuel' =>
      let acc' := String (digit_char (n mod 10)) acc in
      if n <? 10 then acc' else digits_of fuel' (n / 10) acc'
  end.

(** [std::to_string] on an integer. *)
Definition to_string (z : Z) : string :=
  if z <? 0
  then String "-"%char (digits_of (S (Z.to_nat (Z.log2 (- z)))) (- z) EmptyString)
  else digits_of (S (Z.to_nat (Z.log2 z))) z EmptyString.

Definition is_digit (c : ascii) : bool :=
  let n := nat_of_ascii c in (48 <=? n)%nat && (n <=? 57)%nat.

Definition digit_value (c : ascii) : Z := Z.of_nat (nat_of_ascii c) - 48.

(** The longest prefix of decimal digits of [s], as a number, together with
    the number of digits read and the rest of the string. *)
Fixpoint read_digits (max : nat) (s : string) (acc : Z) (n : nat)
  : Z * nat * string :=
  match max, s with
  | S max', String c s' =>
      if is_digit c then read_digits max' s' (acc * 10 + digit_value c) (S n)
      else (acc, n, s)
  | _, _ => (acc, n, s)
  end.

Definition is_space (c : ascii) : bool :=
  let n := nat_of_ascii c in (n =? 32)%nat || ((9 <=? n)%nat && (n <=? 13)%nat).

Fixpoint skip_spaces (s : string) : string :=
  match s with
  | String c s' => if is_space c then skip_spaces s' else s
  | EmptyString => s
  end.

Definition INT_MAX : Z := 2 ^ 31 - 1.
Definition INT_MIN : Z := - 2 ^ 31.

(** [std::stoi(s)]: leading white space, an optional sign, then decimal
    digits up to the first other character; [std::invalid_argument] when
    there is no digit, [std::out_of_range] when the value is not an [int]. *)
Definition stoi (s : string) : result Z :=
  let s1 := skip_spaces s in
  let '(neg, s2) :=
    match s1 with
    | String "-"%char s' => (true, s')
    | String "+"%char s' => (false, s')
    | _ => (false, s1)
    end in
  let '(v, n, _) := read_digits (String.length s2) s2 0 0%nat in
  if (n =? 0)%nat then Err StdException
  else
    let v' := if neg then - v else v in
    if (INT_MIN <=? v') && (v' <=? INT_MAX) then Ok v' else Err StdException.

(** ** SHA-256

    The repository calls OpenSSL's [SHA256_Init], [SHA256_Update] and
    [SHA256_Final], which it does not contain; the specification names them
    "SHA-256: standard bit-exact function".  This is FIPS 180-4 on lists of
    bytes, words being integers in [0, 2^32). *)

Module SHA256.

Definition w32 (x : Z) : Z := x mod 2 ^ 32.
Definition add32 (x y : Z) : Z := w32 (x + y).
Definition rotr (n x : Z) : Z :=
  Z.lor (Z.shiftr x n) (w32 (Z.shiftl x (32 - n))).
Definition shr (n x : Z) : Z := Z.shiftr x n.
Definition not32 (x : Z) : Z := Z.lxor x (2 ^ 32 - 1).

Definition Ch (x y z : Z) : Z := Z.lxor (Z.land x y) (Z.land (not32 x) z).
Definition Maj (x y z : Z) : Z :=
  Z.lxor (Z.lxor (Z.land x y) (Z.land x z)) (Z.land y z).
Definition Sigma0 (x : Z) : Z := Z.lxor (Z.lxor (rotr 2 x) (rotr 13 x)) (rotr 22 x).
Definition Sigma1 (x : Z) : Z := Z.lxor (Z.lxor (rotr 6 x) (rotr 11 x)) (rotr 25 x).
Definition sigma0 (x : Z) : Z := Z.lxor (Z.lxor (rotr 7 x) (rotr 18 x)) (shr 3 x).
Definition sigma1 (x : Z) : Z := Z.lxor (Z.lxor (rotr 17 x) (rotr 19 x)) (shr 10 x).

(** The first 64 primes. *)
Definition primes : list Z :=
  [2; 3; 5; 7; 11; 13; 17; 19; 23; 29; 31; 37; 41; 43; 47; 53; 59; 61; 67; 71;
   73; 79; 83; 89; 97; 101; 103; 107; 109; 113; 127; 131; 137; 139; 149; 151;
   157; 163; 167; 173; 179; 181; 191; 193; 197; 199; 211; 223; 227; 229; 233;
   239; 241; 251; 257; 263; 269; 271; 277; 281; 283; 293; 307; 311].

(** The integer cube root, by bisection on [lo, lo + 2^bits). *)
Fixpoint cube_root (bits : nat) (lo n : Z) : Z :=
  match bits with
  | O => lo
  | S bits' =>
      let mid := lo + 2 ^ Z.of_nat bits' in
      if mid * mid * mid <=? n then cube_root bits' mid n
      else cube_root bits' lo n
  end.

(** The round constants: the first 32 bits of the fractional parts of the
    cube roots of the first 64 primes. *)
Definition K : list Z :=
  Eval vm_compute in map (fun p => w32 (cube_root 36 0 (p * 2 ^ 96))) primes.

(** The initial hash value: the first 32 bits of the fractional parts of
    the square roots of the first 8 primes. *)
Definition H0 : list Z :=
  Eval vm_compute in map (fun p => w32 (Z.sqrt (p * 2 ^ 64))) (firstn 8 primes).

(** The [n] low bytes of [x], most significant first. *)
Fixpoint be_bytes (n : nat) (x : Z) : list Z :=
  match n with
  | O => []
  | S n' => (x / 2 ^ (8 * Z.of_nat n')) mod 256 :: be_bytes n' x
  end.

Fixpoint be_word (bytes : list Z) (acc : Z) : Z :=
  match bytes with
  | [] => acc
  | b :: rest => be_word rest (acc * 256 + b)
  end.

Definition pad (msg : list Z) : list Z :=
  let len := Z.of_nat (List.length msg) in
  let zeros := Z.to_nat ((55 - len) mod 64) in
  msg ++ [0x80] ++ repeat 0 zeros ++ be_bytes 8 (8 * len).

(** The 32-bit words of a block of bytes. *)
Fixpoint words (n : nat) (bytes : list Z) : list Z :=
  match n with
  | O => []
  | S n' => be_word (firstn 4 bytes) 0 :: words n' (skipn 4 bytes)
  end.

(** The message schedule, grown from its first 16 words to 64. *)
Fixpoint schedule (n : nat) (w : list Z) : list Z :=
  match n with
  | O => w
  | S n' =>
      let t := List.length w in
      let at_ (k : nat) := nth (t - k) w 0 in
      schedule n'
        (w ++ [add32 (add32 (sigma1 (at_ 2%nat)) (at_ 7%nat))
                     (add32 (sigma0 (at_ 15%nat)) (at_ 16%nat))])
  end.

Definition round (st : list Z) (kw : Z * Z) : list Z :=
  match st with
  | [a; b; c; d; e; f; g; h] =>
      let t1 := add32 (add32 (add32 h (Sigma1 e)) (add32 (Ch e f g) (fst kw)))
                      (snd kw) in
      let t2 := add32 (Sigma0 a) (Maj a b c) in
      [add32 t1 t2; a; b; c; add32 d t1; e; f; g]
  | _ => st
  end.

Definition compress (h : list Z) (block : list Z) : list Z :=
  let w := schedule 48 (words 16 block) in
  let st := fold_left round (combine K w) h in
  map (fun p => add32 (fst p) (snd p)) (combine h st).

Fixpoint blocks (n : nat) (bytes : list Z) (h : list Z) : list Z :=
  match n with
  | O => h
  | S n' => blocks n' (skipn 64 bytes) (compress h (firstn 64 bytes))
  end.

(** Modelled from the spec: "SHA-256: standard bit-exact function", what
    OpenSSL's [SHA256_Final] returns for the bytes fed to the context.  The
    digest of a message: 32 bytes. *)
Definition digest (msg : list Z) : list Z :=
  let p := pad msg in
  flat_map (be_bytes 4) (blocks (List.length p / 64) p H0).

(** The streaming interface: a context holds the bytes fed so far. *)
Definition SHA256_CTX : Type := list Z.
Definition SHA256_Init : SHA256_CTX := [].
Definition SHA256_Update (ctx : SHA256_CTX) (data : list Z) : SHA256_CTX :=
  ctx ++ data.
Definition SHA256_Final (ctx : SHA256_CTX) : list Z := digest ctx.

End SHA256.

(** ** Derived identifiers *)

Definition hex_digit (n : Z) : ascii :=
  if n <? 10 then ascii_of_nat (48 + Z.to_nat n)
  else ascii_of_nat (87 + Z.to_nat n).

(** [std::hex << std::setw(2) << std::setfill('0')] on a byte. *)
Definition hex2 (b : Z) : string :=
  String (hex_digit (b / 16)) (String (hex_digit (b mod 16)) EmptyString).

(** [v[i] = f (v[i])] *)
Fixpoint update_at (i : nat) (f : Z -> Z) (v : list Z) : list Z :=
  match v, i with
  | [], _ => []
  | x :: v', O => f x :: v'
  | x :: v', S i' => x :: update_at i' f v'
  end.

(** The loop that prints the sixteen bytes, [i] being the index of the
    first byte of [bytes]. *)
Fixpoint uuid_loop (i : Z) (bytes : list Z) : string :=
  match bytes with
  | [] => EmptyString
  | b :: rest =>
      let hyphen : string :=
        if (i =? 3) || (i =? 5) || (i =? 7) || (i =? 9) then "-"%string
        else EmptyString in
      (hex2 b ++ hyphen ++ uuid_loop (i + 1) rest)%string
  end.

Definition derive_uuid (input_uuid desc : string) : string :=
  let sha256 := SHA256.SHA256_Init in
  let sha256 := SHA256.SHA256_Update sha256 (bytes_of_string input_uuid) in
  let sha256 := SHA256.SHA256_Update sha256 (bytes_of_string desc) in
  let hash := SHA256.SHA256_Final sha256 in
  let truncated_hash := firstn 16 hash in
  let truncated_hash :=
    update_at 6 (fun b => Z.lor (Z.land b 0x0F) 0x40) truncated_hash in
  let truncated_hash :=
    update_at 8 (fun b => Z.lor (Z.land b 0x3F) 0x80) truncated_hash in
  uuid_loop 0 truncated_hash.

(** The bytes of a group, in lowercase hexadecimal. *)
Definition hex_group (bytes : list Z) : string :=
  fold_right (fun b s => (hex2 b ++ s)%string) EmptyString bytes.

(** The elements [a] to [b - 1] of a list. *)
Definition slice {A : Type} (a b : nat) (l : list A) : list A :=
  skipn a (firstn b l).

(** The identifier as the specification words it: the first 16 bytes of the
    SHA-256 of the concatenation, bytes 6 and 8 re-tagged, printed as
    lowercase hexadecimal with a hyphen after bytes 4, 6, 8 and 10. *)
Definition derive_uuid_spec (id desc : string) : string :=
  let h := firstn 16 (SHA256.digest (bytes_of_string id ++ bytes_of_string desc)) in
  let retag (i : nat) (b : Z) : Z :=
    if (i =? 6)%nat then Z.lor (Z.land b 0x0F) 0x40
    else if (i =? 8)%nat then Z.lor (Z.land b 0x3F) 0x80
    else b in
  let t := map (fun p => retag (fst p) (snd p)) (combine (seq 0 16) h) in
  (hex_group (slice 0 4 t) ++ "-" ++ hex_group (slice 4 6 t) ++ "-" ++
   hex_group (slice 6 8 t) ++ "-" ++ hex_group (slice 8 10 t) ++ "-" ++
   hex_group (slice 10 16 t))%string.

Definition is_lower_hex (c : ascii) : bool :=
  let n := nat_of_ascii c in
  ((48 <=? n)%nat && (n <=? 57)%nat) || ((97 <=? n)%nat && (n <=? 102)%nat).

Definition is_hyphen (c : ascii) : bool := (nat_of_ascii c =? 45)%nat.

(** The syntax of an RFC 4122 version 4 identifier: 8-4-4-4-12 lowercase
    hexadecimal digits, the version digit 4, the variant digit 8, 9, a or b. *)
Definition is_uuid_v4 (s : string) : bool :=
  match list_ascii_of_string s with
  | [c0; c1; c2; c3; c4; c5; c6; c7; h1;
     c9; c10; c11; c12; h2;
     ver; c15; c16; c17; h3;
     var; c20; c21; c22; h4;
     c24; c25; c26; c27; c28; c29; c30; c31; c32; c33; c34; c35] =>
      forallb is_lower_hex
        [c0; c1; c2; c3; c4; c5; c6; c7; c9; c10; c11; c12; ver; c15; c16;
         c17; var; c20; c21; c22; c24; c25; c26; c27; c28; c29; c30; c31;
         c32; c33; c34; c35]
      && forallb is_hyphen [h1; h2; h3; h4]
      && (nat_of_ascii ver =? 52)%nat
      && existsb (fun n => (nat_of_ascii var =? n)%nat) [56; 57; 97; 98]%nat
  | _ => false
  end.

(** *** Vocabulary of the identifier properties *)

(** A state or a digest of eight words. *)
Definition eight (l : list Z) : Prop :=
  exists a b c d e f g h, l = [a; b; c; d; e; f; g; h].

Definition byte (b : Z) : Prop := 0 <= b < 256.

(** The two characters of a byte are lowercase hexadecimal digits. *)
Definition hex_pair_ok (b : Z) : bool :=
  is_lower_hex (hex_digit (b / 16)) && is_lower_hex (hex_digit (b mod 16)).

(** Byte 6 after re-tagging prints with the version digit 4. *)
Definition version_ok (b : Z) : bool :=
  let v := Z.lor (Z.land b 0x0F) 0x40 in
  (nat_of_ascii (hex_digit (v / 16)) =? 52)%nat
  && is_lower_hex (hex_digit (v / 16))
  && is_lower_hex (hex_digit (v mod 16)).

(** Byte 8 after re-tagging prints with a variant digit 8, 9, a or b. *)
Definition variant_ok (b : Z) : bool :=
  let v := Z.lor (Z.land b 0x3F) 0x80 in
  existsb (fun n => (nat_of_ascii (hex_digit (v / 16)) =? n)%nat) [56; 57; 97; 98]%nat
  && is_lower_hex (hex_digit (v / 16))
  && is_lower_hex (hex_digit (v mod 16)).

(** ** Timestamps

    The C library's [gmtime], [strftime], [strptime] and [mktime], which the
    source calls, are outside the repository.  They are modelled as the
    proleptic Gregorian calendar in UTC, the zone the specification formats
    in; [mktime] is taken in a process whose time zone is UTC. *)

Record tm : Type := mk_tm {
  tm_sec : Z; tm_min : Z; tm_hour : Z;
  tm_mday : Z; tm_mon : Z; tm_year : Z
}.

Definition tm_zero : tm := mk_tm 0 0 0 0 0 0.

(** Days since 1970-01-01 of the civil date [y]-[m]-[d]. *)
Definition days_from_civil (y m d : Z) : Z :=
  let y := if m <=? 2 then y - 1 else y in
  let era := y / 400 in
  let yoe := y - era * 400 in
  let doy := (153 * (if m >? 2 then m - 3 else m + 9) + 2) / 5 + d - 1 in
  let doe := yoe * 365 + yoe / 4 - yoe / 100 + doy in
  era * 146097 + doe - 719468.

(** The civil date of a day count since 1970-01-01. *)
Definition civil_from_days (z : Z) : Z * Z * Z :=
  let z := z + 719468 in
  let era := z / 146097 in
  let doe := z - era * 146097 in
  let yoe := (doe - doe / 1460 + doe / 36524 - doe / 146096) / 365 in
  let y := yoe + era * 400 in
  let doy := doe - (365 * yoe + yoe / 4 - yoe / 100) in
  let mp := (5 * doy + 2) / 153 in
  let d := doy - (153 * mp + 2) / 5 + 1 in
  let m := if mp <? 10 then mp + 3 else mp - 9 in
  (if m <=? 2 then y + 1 else y, m, d).

(** Modelled from the spec: [gmtime], the broken-down UTC time of a count of
    seconds since the epoch. *)
Definition gmtime (t : Z) : tm :=
  let days := t / 86400 in
  let secs := t mod 86400 in
  let '(y, m, d) := civil_from_days days in
  mk_tm (secs mod 60) ((secs / 60) mod 60) (secs / 3600) d (m - 1) (y - 1900).

(** Modelled from the spec: [mktime] in the UTC zone, the count of seconds
    of a broken-down time. *)
Definition mktime (t : tm) : Z :=
  days_from_civil (tm_year t + 1900) (tm_mon t + 1) (tm_mday t) * 86400
  + tm_hour t * 3600 + tm_min t * 60 + tm_sec t.

(** A number printed on two digits. *)
Definition two_digits (n : Z) : string :=
  String (digit_char (n / 10)) (String (digit_char (n mod 10)) EmptyString).

(** Modelled from the spec: [strftime] with the format "%Y-%m-%dT%H:%M:%S.",
    the first 20 characters of "YYYY-MM-DDTHH:MM:SS.mmm+00:00". *)
Definition strftime (t : tm) : string :=
  (to_string (tm_year t + 1900) ++ "-" ++ two_digits (tm_mon t + 1) ++ "-" ++
   two_digits (tm_mday t) ++ "T" ++ two_digits (tm_hour t) ++ ":" ++
   two_digits (tm_min t) ++ ":" ++ two_digits (tm_sec t) ++ ".")%string.

(** A field of [strptime]: at most [width] digits, at least one, with a
    value between [lo] and [hi]. *)
Definition get_number (lo hi : Z) (width : nat) (s : string)
  : option (Z * string) :=
  let '(v, n, rest) := read_digits width s 0 0%nat in
  if (n =? 0)%nat then None
  else if (lo <=? v) && (v <=? hi) then Some (v, rest) else None.

Definition expect (c : ascii) (s : string) : option string :=
  match s with
  | String c' rest => if Ascii.eqb c c' then Some rest else None
  | EmptyString => None
  end.

(** Modelled from the spec: [strptime] with the format "%Y-%m-%dT%H:%M:%S."
    into a zeroed [tm].  The fields read before the first mismatch are
    kept, the return value of [strptime] being ignored by the source. *)
Definition strptime (s : string) : tm :=
  let t := tm_zero in
  match get_number 0 9999 4 s with
  | None => t
  | Some (y, s) =>
  let t := mk_tm 0 0 0 0 0 (y - 1900) in
  match expect "-" s with None => t | Some s =>
  match get_number 1 12 2 s with None => t | Some (m, s) =>
  let t := mk_tm 0 0 0 0 (m - 1) (y - 1900) in
  match expect "-" s with None => t | Some s =>
  match get_number 1 31 2 s with None => t | Some (d, s) =>
  let t := mk_tm 0 0 0 d (m - 1) (y - 1900) in
  match expect "T" s with None => t | Some s =>
  match get_number 0 23 2 s with None => t | Some (h, s) =>
  let t := mk_tm 0 0 h d (m - 1) (y - 1900) in
  match expect ":" s with None => t | Some s =>
  match get_number 0 59 2 s with None => t | Some (mi, s) =>
  let t := mk_tm 0 mi h d (m - 1) (y - 1900) in
  match expect ":" s with None => t | Some s =>
  match get_number 0 61 2 s with None => t | Some (sec, s) =>
  mk_tm sec mi h d (m - 1) (y - 1900)
  end end end end end end end end end end end.

(** [time_t] is a signed 64-bit integer. *)
Definition to_int64 (x : Z) : Z := (x + 2 ^ 63) mod 2 ^ 64 - 2 ^ 63.

Definition get_string_timestamp_from_unix_time (time_stamp_ms : Z) : string :=
  let time_stamp_s := Z.quot time_stamp_ms 1000 in
  let num_ms := Z.rem time_stamp_ms 1000 in
  let ts := gmtime time_stamp_s in
  let time_stamp_str := strftime ts in
  let time_stamp_str := (time_stamp_str ++ to_string num_ms)%string in
  (time_stamp_str ++ "+00:00")%string.

Definition get_unix_time_from_string_timestamp (time_stamp : string) : result Z :=
  let base_time := strptime time_stamp in
  ms_text <- substr time_stamp 20 (wrap64 (str_size time_stamp - 26)) ;;
  num_ms <- stoi ms_text ;;
  Ok (to_int64 (mktime base_time * 1000 + num_ms)).

Definition adjust_time_ms (time_stamp : string) (offset_ms : Z) : result string :=
  t <- get_unix_time_from_string_timestamp time_stamp ;;
  Ok (get_string_timestamp_from_unix_time (to_int64 (t + offset_ms))).

(** *** Vocabulary of the timestamp properties *)

(** A year of four digits, printed on four characters. *)
Definition four_digits (y : Z) : string :=
  String (digit_char (y / 1000))
    (String (digit_char (y / 100 mod 10))
       (String (digit_char (y / 10 mod 10))
          (String (digit_char (y mod 10)) EmptyString))).

(** The fields of a date between the years 1000 and 9999. *)
Definition tm_in_range (t : tm) : Prop :=
  1000 <= tm_year t + 1900 <= 9999 /\ 1 <= tm_mon t + 1 <= 12 /\
  1 <= tm_mday t <= 31 /\ 0 <= tm_hour t <= 23 /\ 0 <= tm_min t <= 59 /\
  0 <= tm_sec t <= 59.

(** The seconds from the epoch to the end of the year 9999. *)
Definition Y10K : Z := 253402300800.

(** [stoi] reads [ms] back from its decimal form. *)
Definition stoi_reads (ms : Z) : bool :=
  match stoi (to_string ms) with
  | Ok v => v =? ms
  | Err _ => false
  end.

(** ** External collaborators

    The edit-distance aligner (edlib), the reverse complement and the
    arithmetic of [float] are not part of the module; the definitions below
    take them as an interface. *)

Inductive EdlibAlignMode : Type := EDLIB_MODE_NW | EDLIB_MODE_SHW | EDLIB_MODE_HW.
Inductive EdlibAlignTask : Type :=
  EDLIB_TASK_DISTANCE | EDLIB_TASK_LOC | EDLIB_TASK_PATH.

Record EdlibAlignConfig : Type := edlibNewAlignConfig {
  cfg_k : Z; cfg_mode : EdlibAlignMode; cfg_task : EdlibAlignTask
}.

Definition EDLIB_STATUS_OK : Z := 0.

Record EdlibAlignResult : Type := mk_EdlibAlignResult {
  status : Z;
  editDistance : Z;
  startLocations : list Z;
  endLocations : list Z
}.

Class Externals : Type := {
  float : Type;
  fsub : float -> float -> float;
  fdiv : float -> float -> float;
  fgt : float -> float -> bool;
  (* edlibAlign query target config *)
  edlibAlign : string -> string -> EdlibAlignConfig -> EdlibAlignResult;
  (* utils::reverse_complement *)
  reverse_complement : string -> string
}.

(** ** Reads *)

Record Attributes : Type := mk_Attributes {
  mux : Z;
  read_number : Z;
  channel_number : Z;
  start_time : string;
  fast5_filename : string;
  num_samples : Z
}.

Record Read `{Externals} : Type := mk_Read {
  raw_data : list float;
  digitisation : float;
  range : float;
  offset : float;
  sample_rate : Z;
  start_time_ms : Z;
  shift : float;
  scale : float;
  scaling : float;
  num_chunks : Z;
  num_modbase_chunks : Z;
  model_stride : Z;
  read_id : string;
  seq : string;
  qstring : string;
  moves : list Z;
  base_mod_probs : list Z;
  run_id : string;
  flowcell_id : string;
  model_name : string;
  num_trimmed_samples : Z;
  attributes : Attributes;
  start_sample : Z;
  end_sample : Z;
  run_acqusition_start_time_ms : Z;
  parent_read_id : string
}.

Inductive Message `{Externals} : Type :=
| MsgRead (r : Read)
| MsgBam (record : list Z)
| MsgReadPair (read_1 read_2 : Read).

Record DuplexSplitSettings `{Externals} : Type := mk_DuplexSplitSettings {
  enabled : bool;
  simplex_mode : bool;
  pore_thr : float;
  pore_cl_dist : Z;
  relaxed_pore_thr : float;
  end_flank : Z;
  end_trim : Z;
  start_flank : Z;
  flank_edist : Z;
  relaxed_flank_edist : Z;
  adapter_edist : Z;
  relaxed_adapter_edist : Z;
  pore_adapter_range : Z;
  expect_adapter_prefix : Z;
  expect_pore_prefix : Z;
  middle_adapter_search_span : Z;
  adapter : string
}.

Section Engine.
Context `{Ext : Externals}.

(** [copy_read]: the fields the source assigns; the others are those of a
    value-initialised [Read]. *)
Definition copy_read (read : Read) : Read :=
  {| raw_data := raw_data read;
     digitisation := digitisation read;
     range := range read;
     offset := offset read;
     sample_rate := sample_rate read;
     start_time_ms := 0;
     shift := shift read;
     scale := scale read;
     scaling := scaling read;
     num_chunks := num_chunks read;
     num_modbase_chunks := num_modbase_chunks read;
     model_stride := model_stride read;
     read_id := read_id read;
     seq := seq read;
     qstring := qstring read;
     moves := moves read;
     base_mod_probs := base_mod_probs read;
     run_id := run_id read;
     flowcell_id := EmptyString;
     model_name := model_name read;
     num_trimmed_samples := num_trimmed_samples read;
     attributes := attributes read;
     start_sample := 0;
     end_sample := 0;
     run_acqusition_start_time_ms := 0;
     parent_read_id := EmptyString |}.

Fixpoint cum_sums_from (prev : Z) (moves : list Z) : list Z :=
  match moves with
  | [] => []
  | m :: rest => let s := wrap64 (prev + m) in s :: cum_sums_from s rest
  end.

Definition move_cum_sums (moves : list Z) : list Z := cum_sums_from 0 moves.

(** *** The pore-signal detector *)

(** The state of the scan: [start], [end] and the intervals emitted. *)
Definition detect_state : Type := (Z * Z * list PosRange)%type.

Definition detect_step (threshold : float) (cluster_dist : Z)
    (st : detect_state) (i : Z) (x : float) : detect_state :=
  let '(start, end_, ans) := st in
  if fgt x threshold then
    if (end_ =? 0) || (i >? wrap64 (end_ + cluster_dist)) then
      let ans := if end_ >? 0 then ans ++ [(start, end_)] else ans in
      (i, wrap64 (i + 1), ans)
    else (start, wrap64 (i + 1), ans)
  else st.

(** The loop over the samples from index [i] on. *)
Fixpoint detect_loop (threshold : float) (cluster_dist : Z)
    (samples : list float) (i : Z) (st : detect_state) : detect_state :=
  match samples with
  | [] => st
  | x :: rest =>
      detect_loop threshold cluster_dist rest (i + 1)
        (detect_step threshold cluster_dist st i x)
  end.

Definition detect_pore_signal (signal : list float) (threshold : float)
    (cluster_dist ignore_prefix : Z) : result (list PosRange) :=
  let pore_a := signal in
  let '(start, end_, ans) :=
    detect_loop threshold cluster_dist
      (skipn (Z.to_nat (Z.min ignore_prefix (size pore_a))) pore_a)
      ignore_prefix (0, 0, []) in
  let ans := if end_ >? 0 then ans ++ [(start, end_)] else ans in
  assert ((start <? size pore_a) && (end_ <=? size pore_a)) ;;;
  Ok ans.

(** *** The working-set wrapper *)

Record ExtRead : Type := mk_ExtRead {
  read : Read;
  data_as_float32 : list float;
  move_sums : list Z
}.

(** The constructor [ExtRead::ExtRead]; [back()] of an empty vector is
    undefined. *)
Definition ExtRead_new (r : Read) : result ExtRead :=
  let sums := move_cum_sums (moves r) in
  match back sums with
  | None => Err UndefinedBehaviour
  | Some last_sum =>
      assert (last_sum =? str_size (seq r)) ;;;
      Ok (mk_ExtRead r (raw_data r) sums)
  end.

(** Unsigned division, the divisor being an [int] converted to 64 bits. *)
Definition udiv (a b : Z) : result Z :=
  if wrap64 b =? 0 then Err UndefinedBehaviour else Ok (a / wrap64 b).
Definition umod (a b : Z) : result Z :=
  if wrap64 b =? 0 then Err UndefinedBehaviour else Ok (a mod wrap64 b).

Variable m_settings : DuplexSplitSettings.

(** *** Pore regions in sequence coordinates *)

(** The body of the loop of [possible_pore_regions] for one signal region. *)
Definition pore_region_step (rd : ExtRead) (pore_regions : PosRanges)
    (pore_signal_region : PosRange) : result PosRanges :=
  move_start <- udiv (first pore_signal_region) (model_stride (read rd)) ;;
  move_end <- udiv (second pore_signal_region) (model_stride (read rd)) ;;
  assert (move_end >=? move_start) ;;;
  if (move_start >=? size (move_sums rd)) || (move_end >=? size (move_sums rd))
  then Ok pore_regions
  else
    sum_start <- index (move_sums rd) move_start ;;
    if sum_start =? 0 then Ok pore_regions
    else
      let start_pos := wrap64 (sum_start - 1) in
      end_pos <- index (move_sums rd) move_end ;;
      assert (end_pos >? start_pos) ;;;
      Ok (pore_regions ++ [(start_pos, end_pos)]).

Fixpoint pore_region_loop (rd : ExtRead) (regions : list PosRange)
    (pore_regions : PosRanges) : result PosRanges :=
  match regions with
  | [] => Ok pore_regions
  | r :: rest =>
      pore_regions' <- pore_region_step rd pore_regions r ;;
      pore_region_loop rd rest pore_regions'
  end.

Definition possible_pore_regions (rd : ExtRead) (pore_thr : float)
  : result PosRanges :=
  regions <- detect_pore_signal (data_as_float32 rd)
               (fdiv (fsub pore_thr (shift (read rd))) (scale (read rd)))
               (pore_cl_dist m_settings) (expect_pore_prefix m_settings) ;;
  pore_region_loop rd regions [].

(** *** Adapter and flank matching *)

Definition find_best_adapter_match (adapter seq : string) (dist_thr : Z)
    (subrange : option PosRange) : result (option PosRange) :=
  match subrange with
  | None => Err AssertionFailed
  | Some subrange =>
      assert ((first subrange <=? second subrange)
              && (second subrange <=? str_size seq)) ;;;
      let shift := first subrange in
      let span := wrap64 (second subrange - first subrange) in
      if span =? 0 then Ok None
      else
        let edlib_cfg := edlibNewAlignConfig dist_thr EDLIB_MODE_HW EDLIB_TASK_LOC in
        let edlib_result :=
          edlibAlign adapter (substring (Z.to_nat shift) (Z.to_nat span) seq)
            edlib_cfg in
        assert (status edlib_result =? EDLIB_STATUS_OK) ;;;
        if (status edlib_result =? EDLIB_STATUS_OK)
           && negb (editDistance edlib_result =? -1)
        then
          assert (editDistance edlib_result <=? dist_thr) ;;;
          s <- index (startLocations edlib_result) 0 ;;
          e <- index (endLocations edlib_result) 0 ;;
          Ok (Some (wrap64 (s + shift), wrap64 (e + shift + 1)))
        else Ok None
  end.

Definition find_adapter_matches (adapter seq : string) (dist_thr : Z)
    (opt_subrange : option PosRange) : result (list PosRange) :=
  let subrange :=
    match opt_subrange with
    | Some r => r
    | None => (0, str_size seq)
    end in
  assert ((first subrange <=? second subrange)
          && (second subrange <=? str_size seq)) ;;;
  best_match <- find_best_adapter_match adapter seq dist_thr (Some subrange) ;;
  match best_match with
  | Some m => Ok [m]
  | None => Ok []
  end.

Definition check_rc_match (seq : string) (templ_r compl_r : PosRange)
    (dist_thr : Z) : result bool :=
  assert ((second templ_r >? first templ_r) && (second compl_r >? first compl_r)
          && (dist_thr >=? 0)) ;;;
  compl <- char_range seq compl_r ;;
  let rc_compl := reverse_complement compl in
  let edlib_cfg := edlibNewAlignConfig dist_thr EDLIB_MODE_HW EDLIB_TASK_DISTANCE in
  templ <- char_range seq templ_r ;;
  let edlib_result := edlibAlign templ rc_compl edlib_cfg in
  assert (status edlib_result =? EDLIB_STATUS_OK) ;;;
  let match_ := (status edlib_result =? EDLIB_STATUS_OK)
                && negb (editDistance edlib_result =? -1) in
  assert (negb match_ || (editDistance edlib_result <=? dist_thr)) ;;;
  Ok match_.

Definition check_nearby_adapter (read : Read) (r : PosRange) (adapter_edist : Z)
  : result bool :=
  m <- find_best_adapter_match (adapter m_settings) (seq read) adapter_edist
         (Some (first r,
                Z.min (wrap64 (second r + pore_adapter_range m_settings))
                      (str_size (seq read)))) ;;
  Ok (match m with Some _ => true | None => false end).

Definition check_flank_match (read : Read) (r : PosRange) (dist_thr : Z)
  : result bool :=
  if (first r >=? end_flank m_settings)
     && (wrap64 (second r + start_flank m_settings) <=? str_size (seq read))
  then
    check_rc_match (seq read)
      (wrap64 (first r - end_flank m_settings),
       wrap64 (first r - end_trim m_settings))
      (first r, wrap64 (second r + start_flank m_settings))
      dist_thr
  else Ok false.

Definition identify_extra_middle_split (read : Read) : result (option PosRange) :=
  let r_l := str_size (seq read) in
  if (r_l <? wrap64 (end_flank m_settings + start_flank m_settings))
     || (r_l <? middle_adapter_search_span m_settings)
  then Ok None
  else
    adapter_match <-
      find_best_adapter_match (adapter m_settings) (seq read)
        (relaxed_adapter_edist m_settings)
        (Some (wrap64 (r_l / 2 - middle_adapter_search_span m_settings / 2),
               wrap64 (r_l / 2 + middle_adapter_search_span m_settings / 2))) ;;
    match adapter_match with
    | None => Ok None
    | Some am =>
        let adapter_start := first am in
        flank <- check_flank_match read (adapter_start, adapter_start)
                   (relaxed_flank_edist m_settings) ;;
        if flank then
          ends <- check_rc_match (seq read)
                    (wrap64 (r_l - end_flank m_settings),
                     wrap64 (r_l - end_trim m_settings))
                    (0, start_flank m_settings)
                    (relaxed_flank_edist m_settings) ;;
          if ends then Ok (Some (wrap64 (adapter_start - 1), adapter_start))
          else Ok None
        else Ok None
    end.

(** *** The subread factory *)

(** Modelled from the spec: the base boundaries of a move table, for
    [utils::moves_to_map], which is outside the module.  A 1 in [moves]
    marks the stride at which the next base was emitted, a stride spanning
    [block_stride] samples; [i] is the index of the first stride of [moves]. *)
Fixpoint base_boundaries (i : Z) (moves : list Z) (block_stride : Z) : list Z :=
  match moves with
  | [] => []
  | m :: rest =>
      if m =? 1
      then wrap64 (i * block_stride) :: base_boundaries (i + 1) rest block_stride
      else base_boundaries (i + 1) rest block_stride
  end.

(** Modelled from the spec: [utils::moves_to_map], "an ordered array of
    length seq_len_plus_one whose entry i gives the signal sample index of
    the i-th base boundary, with the last entry equal to signal_len". *)
Definition moves_to_map (moves : list Z) (block_stride signal_len : Z)
    (reserve_size : Z) : list Z :=
  base_boundaries 0 moves block_stride ++ [signal_len].

(** [tensor.index({Slice(a, b)})]: the bounds are clamped to the tensor. *)
Definition tensor_slice {A : Type} (a b : Z) (t : list A) : list A :=
  skipn (Z.to_nat (Z.min a (size t))) (firstn (Z.to_nat (Z.min b (size t))) t).

(** [std::vector(v.begin() + a, v.begin() + b)] *)
Definition vector_range {A : Type} (v : list A) (a b : Z) : result (list A) :=
  if (a <=? b) && (b <=? size v)
  then Ok (skipn (Z.to_nat a) (firstn (Z.to_nat b) v))
  else Err UndefinedBehaviour.

(** [samples * 1000. / sample_rate] converted to [uint64_t].  The source
    computes the quotient in double precision and truncates it; as long as
    the product is below 2^53 that is the integer quotient written here. *)
Definition samples_to_ms (samples sample_rate : Z) : result Z :=
  if sample_rate =? 0 then Err UndefinedBehaviour
  else
    let q := samples * 1000 / sample_rate in
    if q <? 2 ^ 64 then Ok q else Err UndefinedBehaviour.

Definition UINT32_MAX : Z := 2 ^ 32 - 1.

Definition subread (read : Read) (seq_range signal_range : PosRange)
  : result Read :=
  let stride := model_stride read in
  first_rem <- umod (first signal_range) stride ;;
  assert (first_rem =? 0) ;;;
  second_rem <- umod (second signal_range) stride ;;
  assert ((second_rem =? 0)
          || ((second signal_range =? size (raw_data read))
              && (second seq_range =? str_size (seq read)))) ;;;
  let subread := copy_read read in
  let subread_id :=
    derive_uuid (read_id read)
      (to_string (first seq_range) ++ "-" ++ to_string (second seq_range))%string in
  let raw := tensor_slice (first signal_range) (second signal_range)
               (raw_data subread) in
  offset_ms <- samples_to_ms
                 (wrap64 (num_trimmed_samples subread + first signal_range))
                 (sample_rate subread) ;;
  new_start_time <- adjust_time_ms (start_time (attributes subread)) offset_ms ;;
  new_seq <- substr (seq subread) (first seq_range)
               (wrap64 (second seq_range - first seq_range)) ;;
  new_qstring <- substr (qstring subread) (first seq_range)
                   (wrap64 (second seq_range - first seq_range)) ;;
  move_first <- udiv (first signal_range) stride ;;
  move_second <- udiv (second signal_range) stride ;;
  new_moves <- vector_range (moves subread) move_first move_second ;;
  assert ((second signal_range =? size (raw_data read))
          || (wrap64 (size new_moves * wrap64 stride) =? size raw)) ;;;
  Ok {| raw_data := raw;
        digitisation := digitisation subread;
        range := range subread;
        offset := offset subread;
        sample_rate := sample_rate subread;
        start_time_ms := start_time_ms subread;
        shift := shift subread;
        scale := scale subread;
        scaling := scaling subread;
        num_chunks := num_chunks subread;
        num_modbase_chunks := num_modbase_chunks subread;
        model_stride := model_stride subread;
        read_id := subread_id;
        seq := new_seq;
        qstring := new_qstring;
        moves := new_moves;
        base_mod_probs := base_mod_probs subread;
        run_id := run_id subread;
        flowcell_id := flowcell_id subread;
        model_name := model_name subread;
        num_trimmed_samples := 0;
        attributes :=
          {| mux := mux (attributes subread);
             read_number := UINT32_MAX;
             channel_number := channel_number (attributes subread);
             start_time := new_start_time;
             fast5_filename := fast5_filename (attributes subread);
             num_samples := num_samples (attributes subread) |};
        start_sample := start_sample subread;
        end_sample := end_sample subread;
        run_acqusition_start_time_ms := run_acqusition_start_time_ms subread;
        parent_read_id := parent_read_id subread |}.

(** *** The cut operation *)

(** The loop of [split] over the spacers and the last call after it, with
    the factory the loop calls as a parameter: [split] runs it with
    [subread]; run with [record_ranges] it lists the ranges of the calls. *)
Fixpoint split_loop {X : Type}
    (factory : Read -> PosRange -> PosRange -> result X)
    (read : Read) (seq_to_sig_map : list Z) (spacers : list PosRange)
    (start_pos signal_start : Z) (subreads : list X) : result (list X) :=
  match spacers with
  | [] =>
      map_end <- index seq_to_sig_map (str_size (seq read)) ;;
      assert (size (raw_data read) =? map_end) ;;;
      last <- factory read (start_pos, str_size (seq read))
                (signal_start, size (raw_data read)) ;;
      Ok (subreads ++ [last])
  | r :: rest =>
      signal_end <- index seq_to_sig_map (first r) ;;
      sr <- factory read (start_pos, first r) (signal_start, signal_end) ;;
      signal_start' <- index seq_to_sig_map (second r) ;;
      split_loop factory read seq_to_sig_map rest (second r) signal_start'
        (subreads ++ [sr])
  end.

Definition cut {X : Type} (factory : Read -> PosRange -> PosRange -> result X)
    (read : Read) (spacers : list PosRange) : result (list X) :=
  let seq_to_sig_map :=
    moves_to_map (moves read) (model_stride read) (size (raw_data read))
      (wrap64 (str_size (seq read) + 1)) in
  let start_pos := 0 in
  signal_start <- index seq_to_sig_map 0 ;;
  split_loop factory read seq_to_sig_map spacers start_pos signal_start [].

Definition split (read : Read) (spacers : list PosRange) : result (list Read) :=
  match spacers with
  | [] => Ok [read]
  | _ => cut subread read spacers
  end.

(** The factory that only records the ranges it is called with. *)
Definition record_ranges (_ : Read) (seq_range signal_range : PosRange)
  : result (PosRange * PosRange) :=
  Ok (seq_range, signal_range).

(** The sequence and signal ranges of the subreads [split] asks for. *)
Definition split_ranges (read : Read) (spacers : list PosRange)
  : result (list (PosRange * PosRange)) :=
  cut record_ranges read spacers.

(** *** The split finders *)

Definition SplitFinderF : Type := ExtRead -> result PosRanges.

Definition pore_adapter_finder : SplitFinderF := fun rd =>
  regions <- possible_pore_regions rd (pore_thr m_settings) ;;
  filter_ranges regions
    (fun r => check_nearby_adapter (read rd) r (adapter_edist m_settings)).

Definition pore_flank_finder : SplitFinderF := fun rd =>
  regions <- possible_pore_regions rd (pore_thr m_settings) ;;
  filtered <- filter_ranges regions
    (fun r => check_flank_match (read rd) r (flank_edist m_settings)) ;;
  merge_ranges filtered (wrap64 (end_flank m_settings + start_flank m_settings)).

Definition pore_all_finder : SplitFinderF := fun rd =>
  regions <- possible_pore_regions rd (relaxed_pore_thr m_settings) ;;
  filtered <- filter_ranges regions
    (fun r =>
       near <- check_nearby_adapter (read rd) r (relaxed_adapter_edist m_settings) ;;
       if near
       then check_flank_match (read rd) r (relaxed_flank_edist m_settings)
       else Ok false) ;;
  merge_ranges filtered (wrap64 (end_flank m_settings + start_flank m_settings)).

Definition adapter_flank_finder : SplitFinderF := fun rd =>
  matches <- find_adapter_matches (adapter m_settings) (seq (read rd))
               (adapter_edist m_settings)
               (Some (expect_adapter_prefix m_settings, str_size (seq (read rd)))) ;;
  filter_ranges matches
    (fun r => check_flank_match (read rd) (first r, first r)
                (flank_edist m_settings)).

Definition adapter_middle_finder : SplitFinderF := fun rd =>
  split_opt <- identify_extra_middle_split (read rd) ;;
  match split_opt with
  | Some s => Ok [s]
  | None => Ok []
  end.

Definition build_split_finders : list (string * SplitFinderF) :=
  let split_finders := [("PORE_ADAPTER"%string, pore_adapter_finder)] in
  if negb (simplex_mode m_settings) then
    split_finders ++
    [("PORE_FLANK"%string, pore_flank_finder);
     ("PORE_ALL"%string, pore_all_finder);
     ("ADAPTER_FLANK"%string, adapter_flank_finder);
     ("ADAPTER_MIDDLE"%string, adapter_middle_finder)]
  else split_finders.

(** *** The worker *)

(** The inner loop of a round: one finder over the working set. *)
Fixpoint split_round (split_f : SplitFinderF) (to_split : list ExtRead)
    (split_round_result : list ExtRead) : result (list ExtRead) :=
  match to_split with
  | [] => Ok split_round_result
  | r :: rest =>
      spacers <- split_f r ;;
      match spacers with
      | [] => split_round split_f rest (split_round_result ++ [r])
      | _ =>
          subreads <- split (read r) spacers ;;
          wrapped <- mapM ExtRead_new subreads ;;
          split_round split_f rest (split_round_result ++ wrapped)
      end
  end.

(** The outer loop: the finders in order. *)
Fixpoint split_rounds (finders : list (string * SplitFinderF))
    (to_split : list ExtRead) : result (list ExtRead) :=
  match finders with
  | [] => Ok to_split
  | (_, split_f) :: rest =>
      split_round_result <- split_round split_f to_split [] ;;
      split_rounds rest split_round_result
  end.

Definition set_parent_read_id (r : Read) (id : string) : Read :=
  {| raw_data := raw_data r; digitisation := digitisation r; range := range r;
     offset := offset r; sample_rate := sample_rate r;
     start_time_ms := start_time_ms r; shift := shift r; scale := scale r;
     scaling := scaling r; num_chunks := num_chunks r;
     num_modbase_chunks := num_modbase_chunks r;
     model_stride := model_stride r; read_id := read_id r; seq := seq r;
     qstring := qstring r; moves := moves r;
     base_mod_probs := base_mod_probs r; run_id := run_id r;
     flowcell_id := flowcell_id r; model_name := model_name r;
     num_trimmed_samples := num_trimmed_samples r;
     attributes := attributes r; start_sample := start_sample r;
     end_sample := end_sample r;
     run_acqusition_start_time_ms := run_acqusition_start_time_ms r;
     parent_read_id := id |}.

(** The body of the worker's loop for a read, with the finders the node was
    built with: the messages pushed to the sink, in order. *)
Definition process_read (m_split_finders : list (string * SplitFinderF))
    (init_read : Read) : result (list Message) :=
  ext <- ExtRead_new init_read ;;
  to_split <- split_rounds m_split_finders [ext] ;;
  Ok (map (fun subread =>
             MsgRead (set_parent_read_id (read subread) (read_id init_read)))
          to_split).

(** [worker_thread]: the messages popped from the queue, in order, and the
    sink as the list of the messages pushed so far.  A failure ends the
    thread; the sink keeps what was pushed before. *)
Fixpoint worker_thread (m_split_finders : list (string * SplitFinderF))
    (m_work_queue : list Message) (m_sink : list Message)
  : list Message * option failure :=
  match m_work_queue with
  | [] => (m_sink, None)
  | message :: rest =>
      if negb (enabled m_settings)
      then worker_thread m_split_finders rest (m_sink ++ [message])
      else
        match message with
        | MsgRead init_read =>
            match process_read m_split_finders init_read with
            | Ok pushed => worker_thread m_split_finders rest (m_sink ++ pushed)
            | Err e => (m_sink, Some e)
            end
        | _ => (m_sink, Some BadVariantAccess)
        end
  end.

(** The node: the finders are built once, by the constructor. *)
Definition DuplexSplitNode (m_work_queue : list Message)
  : list Message * option failure :=
  worker_thread build_split_finders m_work_queue [].

End Engine.

(** ** A reference instance of the collaborators

    Exact rationals stand for [float], and a quadratic infix aligner for
    edlib in its "HW" mode: the smallest edit distance of the query against
    a substring of the target, the leftmost end among the best, and the
    shortest substring ending there. *)

Module Reference.

Fixpoint row_step (c : ascii) (target : list ascii) (diag : Z) (above : list Z)
    (left : Z) : list Z :=
  match target, above with
  | t :: target', up :: above' =>
      let v := Z.min (diag + (if Ascii.eqb c t then 0 else 1))
                     (Z.min (up + 1) (left + 1)) in
      v :: row_step c target' up above' v
  | _, _ => []
  end.

Definition next_row (target : list ascii) (row : list Z) (c : ascii) : list Z :=
  match row with
  | [] => []
  | r0 :: above => (r0 + 1) :: row_step c target r0 above (r0 + 1)
  end.

(** The last row of the edit-distance table of [query] against [target],
    from the first row [row0]. *)
Definition last_row (query target : list ascii) (row0 : list Z) : list Z :=
  fold_left (next_row target) query row0.

Definition levenshtein (query target : list ascii) : Z :=
  List.last (last_row query target
               (map Z.of_nat (List.seq 0 (S (List.length target))))) 0.

Fixpoint argmin (l : list Z) (i : Z) (best : Z * Z) : Z * Z :=
  match l with
  | [] => best
  | x :: l' => argmin l' (i + 1) (if x <? fst best then (x, i) else best)
  end.

(** The largest start [s <= e] with [levenshtein query target[s, e) = d]. *)
Fixpoint find_start (query target : list ascii) (d : Z) (e : nat) (s : nat) : Z :=
  if levenshtein query (slice s e target) =? d then Z.of_nat s
  else match s with
       | O => 0
       | S s' => find_start query target d e s'
       end.

Definition align (query target : string) (config : EdlibAlignConfig)
  : EdlibAlignResult :=
  let q := list_ascii_of_string query in
  let t := list_ascii_of_string target in
  let row := last_row q t (repeat 0 (S (List.length t))) in
  let '(d, e) := argmin row 0 (Z.of_nat (List.length q) + 1, 0) in
  if (cfg_k config <? 0) || (d <=? cfg_k config)
  then mk_EdlibAlignResult EDLIB_STATUS_OK d
         [find_start q t d (Z.to_nat e) (Z.to_nat e)] [e - 1]
  else mk_EdlibAlignResult EDLIB_STATUS_OK (-1) [] [].

Definition complement (c : ascii) : ascii :=
  if Ascii.eqb c "A" then "T"%char
  else if Ascii.eqb c "C" then "G"%char
  else if Ascii.eqb c "G" then "C"%char
  else if Ascii.eqb c "T" then "A"%char
  else c.

Definition revcomp (s : string) : string :=
  string_of_list_ascii (rev (map complement (list_ascii_of_string s))).

#[export] Instance externals : Externals :=
  {| float := Q;
     fsub := Qminus;
     fdiv := Qdiv;
     fgt := fun x y => negb (Qle_bool x y);
     edlibAlign := align;
     reverse_complement := revcomp |}.

End Reference.

(** ** Vocabulary of the properties *)

(** [P] holds of every two neighbours of a list. *)
Fixpoint adjacent {A : Type} (P : A -> A -> Prop) (l : list A) : Prop :=
  match l with
  | a :: ((b :: _) as t) => P a b /\ adjacent P t
  | _ => True
  end.

Definition sorted_by_first (l : PosRanges) : Prop :=
  adjacent (fun a b => first a <= first b) l.

(** Neighbours further apart than [d]: in particular they do not overlap. *)
Definition separated (d : Z) (l : PosRanges) : Prop :=
  adjacent (fun a b => second a + d < first b) l.

(** What [merge_ranges] tests before it keeps a range [b] after [a]. *)
Definition kept (d : Z) (a b : PosRange) : Prop :=
  first b >= first a /\ first b > wrap64 (second a + d).

Section DetectorVocabulary.
Context `{Ext : Externals}.
Variables (signal : list float) (threshold : float) (D P : Z).

(** Sample [i] exists and is above the threshold. *)
Definition above (i : Z) : bool :=
  match index signal i with
  | Ok x => fgt x threshold
  | Err _ => false
  end.

Definition contains (i : Z) (r : PosRange) : Prop := first r <= i < second r.

(** Two samples above the threshold with none above between them have at
    most [D] samples between them. *)
Definition close_samples (r : PosRange) : Prop :=
  forall i j, first r <= i -> i < j -> j < second r ->
    above i = true -> above j = true ->
    (forall k, i < k < j -> above k = false) ->
    j - i - 1 <= D.

(** An interval of the detector: inside the scanned part of the signal,
    with a sample above the threshold at both ends. *)
Definition pore_interval (r : PosRange) : Prop :=
  P <= first r /\ first r < second r /\ second r <= size signal /\
  above (first r) = true /\ above (second r - 1) = true /\
  close_samples r.

(** Every sample above the threshold from [P] up to [hi] is in an interval. *)
Definition covers_below (hi : Z) (l : list PosRange) : Prop :=
  forall k, P <= k -> k < hi -> above k = true -> Exists (contains k) l.

(** The invariant of the scan before it reads sample [i]. *)
Definition detect_inv (i : Z) (st : detect_state) : Prop :=
  let '(start, end_, ans) := st in
  (forall k, P <= k -> end_ <= k -> k < i -> above k = false) /\
  ((start = 0 /\ end_ = 0 /\ ans = []) \/
   (0 < end_ /\ end_ <= i /\
    Forall pore_interval (ans ++ [(start, end_)]) /\
    separated D (ans ++ [(start, end_)]) /\
    covers_below end_ (ans ++ [(start, end_)]))).

End DetectorVocabulary.

(** *** Vocabulary of the cut operation *)




(** Spacers sorted, disjoint and inside [lo, hi]:
    [lo <= first r1 <= second r1 <= first r2 <= ... <= hi]. *)
Fixpoint spacers_from (lo hi : Z) (spacers : list PosRange) : Prop :=
  match spacers with
  | [] => lo <= hi
  | r :: rest => lo <= first r /\ first r <= second r /\ spacers_from (second r) hi rest
  end.

(** The sequence ranges of the children as the specification lists them:
    from the start or the end of a spacer to the next spacer or the end. *)
Fixpoint child_ranges (spacers : list PosRange) (q_start len : Z) : list PosRange :=
  match spacers with
  | [] => [(q_start, len)]
  | r :: rest => (q_start, first r) :: child_ranges rest (second r) len
  end.

Definition image (g : Z -> Z) (r : PosRange) : PosRange :=
  (g (first r), g (second r)).

(** A list that does not decrease, starting at or above [lo]. *)
Fixpoint from_below (lo : Z) (l : list Z) : Prop :=
  match l with
  | [] => True
  | x :: l' => lo <= x /\ from_below x l'
  end.

Section ReadVocabulary.
Context `{Ext : Externals}.

(** What the data model says of a read besides the cumulative sum: a
    positive stride, a move table of bits, and a signal of at least
    [model_stride] samples per move. *)
Definition data_model (r : Read) : Prop :=
  0 < model_stride r /\
  Forall (fun m => m = 0 \/ m = 1) (moves r) /\
  model_stride r * size (moves r) <= size (raw_data r) /\
  size (raw_data r) < 2 ^ 64.

(** The invariant the constructor of [ExtRead] asserts. *)
Definition cumulative_sum_invariant (r : Read) : Prop :=
  back (move_cum_sums (moves r)) = Some (str_size (seq r)).

(** The map [split] builds for a read, and its entry [q]. *)
Definition seq_to_sig_map (r : Read) : list Z :=
  moves_to_map (moves r) (model_stride r) (size (raw_data r))
    (wrap64 (str_size (seq r) + 1)).

Definition seq_to_sig (r : Read) (q : Z) : Z :=
  match index (seq_to_sig_map r) q with
  | Ok s => s
  | Err _ => 0
  end.

(** The two preconditions [subread] asserts on entry, for a call with the
    sequence range [q] and the signal range [s]. *)
Definition first_is_aligned (r : Read) (s : PosRange) : Prop :=
  first s mod model_stride r = 0.

Definition second_is_aligned_or_end (r : Read) (q s : PosRange) : Prop :=
  second s mod model_stride r = 0 \/
  (second s = size (raw_data r) /\ second q = str_size (seq r)).

(** A candidate spacer inside the sequence, and two that follow each other
    sharing at most the last position of the first. *)
Definition region_in_seq (r : Read) (x : PosRange) : Prop :=
  0 <= first x /\ first x < second x /\ second x <= str_size (seq r).

Definition near_disjoint (x y : PosRange) : Prop :=
  first x <= first y /\ second x <= first y + 1 /\ second x <= second y.

End ReadVocabulary.

(** ** Example inputs, over the reference collaborators *)

Module Examples.
Import Reference.

Definition example_read (signal : list Z) (stride : Z) (bases : string)
    (move_table : list Z) : Read :=
  {| raw_data := map inject_Z signal;
     digitisation := 8192%Q; range := 1400%Q; offset := 10%Q;
     sample_rate := 4000;
     start_time_ms := 1672531200000;
     shift := 0%Q; scale := 1%Q; scaling := 1%Q;
     num_chunks := 1; num_modbase_chunks := 0;
     model_stride := stride;
     read_id := "123e4567-e89b-12d3-a456-426614174000";
     seq := bases; qstring := bases; moves := move_table;
     base_mod_probs := [];
     run_id := "run"; flowcell_id := "FAK00000"; model_name := "model";
     num_trimmed_samples := 0;
     attributes :=
       {| mux := 1; read_number := 7; channel_number := 12;
          start_time := "2023-01-01T00:00:00.000+00:00";
          fast5_filename := "reads.pod5"; num_samples := 0 |};
     start_sample := 0; end_sample := 0;
     run_acqusition_start_time_ms := 1672531200000;
     parent_read_id := EmptyString |}.

Definition example_settings (on simplex : bool) : DuplexSplitSettings :=
  {| enabled := on;
     simplex_mode := simplex;
     pore_thr := 160%Q;
     pore_cl_dist := 0;
     relaxed_pore_thr := 150%Q;
     end_flank := 2;
     end_trim := 0;
     start_flank := 2;
     flank_edist := 0;
     relaxed_flank_edist := 1;
     adapter_edist := 0;
     relaxed_adapter_edist := 1;
     pore_adapter_range := 5;
     expect_adapter_prefix := 0;
     expect_pore_prefix := 0;
     middle_adapter_search_span := 4;
     adapter := "ACGT" |}.

(** A read of three bases whose first stride emits no base, and one of two
    bases whose signal ends with a sample beyond the last whole stride. *)
Definition late_start_read : Read :=
  example_read [90; 95; 90; 100; 95; 90; 100; 90] 2 "ACG" [0; 1; 1; 1].

Definition ragged_read : Read :=
  example_read [90; 95; 90; 100; 95] 2 "AC" [1; 1].

(** A read of six bases, three samples to a stride. *)
Definition six_base_read : Read :=
  example_read [90; 91; 92; 93; 94; 95; 96; 97; 98; 99; 100; 101; 102; 103;
                104; 105; 106; 107; 108; 109; 110]
    3 "ACGTAC" [1; 1; 0; 1; 1; 1; 1].

(** A read with two bursts of pore signal, at samples 1 and 3, in a stretch
    of strides that emits no base, before an exact copy of the adapter. *)
Definition stalled_read : Read :=
  example_read [90; 200; 90; 200; 90; 90; 90; 90; 90; 90] 1 "TACGTT"
    [1; 0; 0; 0; 0; 1; 1; 1; 1; 1].

(** A read whose signal has one sample beyond its seven strides, with pore
    signal from sample 2 to sample 10 and the adapter as its last bases. *)
Definition ragged_pore_read : Read :=
  example_read [90; 90; 200; 200; 200; 200; 200; 200; 200; 200; 200; 90; 90;
                90; 90]
    2 "TACGT" [1; 1; 1; 1; 1; 0; 0].

(** A read without pore signal and without anything like the adapter. *)
Definition quiet_read : Read :=
  example_read [90; 95; 90; 100; 95; 90; 100; 90] 2 "TTTT" [1; 1; 1; 1].

End Examples.
(** *** More vocabulary of the timestamp properties *)

(** A number printed on three digits. *)
Definition three_digits (n : Z) : string :=
  String (digit_char (n / 100)) (two_digits (n mod 100)).

(** The timestamp of the form [YYYY-MM-DDTHH:MM:SS.mmm+00:00] for the second
    [s] since the epoch and [ms] milliseconds. *)
Definition canonical_timestamp (s ms : Z) : string :=
  (strftime (gmtime s) ++ three_digits ms ++ "+00:00")%string.

(** [stoi] reads [ms] back from its three digits, and [std::to_string]
    prints these three digits exactly when [ms] has no leading zero. *)
Definition three_digits_read (ms : Z) : bool :=
  match stoi (three_digits ms) with
  | Ok v => v =? ms
  | Err _ => false
  end.

Definition to_string_pads (ms : Z) : bool :=
  if 100 <=? ms then String.eqb (to_string ms) (three_digits ms)
  else (String.length (to_string ms) <? 3)%nat.

(** *** More vocabulary of the range properties *)

(** The predicate of [filter_ranges] returns, and returns true. *)
Definition passes (filter_f : PosRange -> result bool) (r : PosRange) : bool :=
  match filter_f r with
  | Ok true => true
  | _ => false
  end.

(** The range [r] lies inside the range [m]. *)
Definition inside (r m : PosRange) : Prop :=
  first m <= first r /\ second r <= second m.

(** The ends of the ranges do not decrease along the list. *)
Definition sorted_by_second (l : PosRanges) : Prop :=
  adjacent (fun a b => second a <= second b) l.

(** What the loop of [merge_ranges] keeps, [done] being the ranges it has
    read: each of them lies inside a merged range, each merged range starts
    with one of them and ends with a later one, and no merged range ends
    after a range still to come. *)
Definition merge_cover (done merged ranges : PosRanges) : Prop :=
  (forall x, In x done -> exists m, In m merged /\ inside x m) /\
  (forall m, In m merged ->
     exists a b, In a done /\ In b done /\
                 first m = first a /\ second m = second b /\
                 second a <= second m) /\
  (forall m r, In m merged -> In r ranges -> second m <= second r) /\
  (List.length merged <= List.length done)%nat.

(** *** More vocabulary of the read properties *)

(** The sum of the entries of a move table. *)
Definition sum_moves (moves : list Z) : Z := fold_right Z.add 0 moves.

(** A move table of bits. *)
Definition bits (moves : list Z) : Prop :=
  Forall (fun m => m = 0 \/ m = 1) moves.

Section FinderVocabulary.
Context `{Ext : Externals}.

(** The distances of the settings are not negative, and with the lengths of
    the read they stay within the 64 bits of the source's arithmetic. *)
Definition settings_fit (settings : DuplexSplitSettings) (r : Read) : Prop :=
  0 <= pore_cl_dist settings /\ 0 <= expect_pore_prefix settings /\
  size (raw_data r) + pore_cl_dist settings < 2 ^ 64 /\
  0 <= end_flank settings /\ 0 <= start_flank settings /\
  str_size (seq r) + end_flank settings + start_flank settings < 2 ^ 64.

End FinderVocabulary.

(** *** More vocabulary of the cut operation *)

(** The characters of [s] in the range [r]. *)
Definition text (s : string) (r : PosRange) : string :=
  substring (Z.to_nat (first r)) (Z.to_nat (second r - first r)) s.

(** Children and spacers put back in their order: a child, a spacer, a
    child, and so on to the last child. *)
Fixpoint weave (children spacers : list string) : string :=
  match children, spacers with
  | c :: cs, s :: ss => (c ++ s ++ weave cs ss)%string
  | c :: _, [] => c
  | [], _ => EmptyString
  end.

(** Spacers sorted and disjoint that leave a child that is not empty before
    the first of them, between two of them and after the last:
    [lo < first r1 <= second r1 < first r2 <= ... < hi]. *)
Fixpoint children_non_empty (lo hi : Z) (spacers : list PosRange) : Prop :=
  match spacers with
  | [] => lo < hi
  | r :: rest =>
      lo < first r /\ first r <= second r /\ children_non_empty (second r) hi rest
  end.

(** The same for signals: the samples of a child, those of a spacer, and
    so on. *)
Fixpoint weave_signal {A : Type} (children spacers : list (list A)) : list A :=
  match children, spacers with
  | c :: cs, s :: ss => c ++ s ++ weave_signal cs ss
  | c :: _, [] => c
  | [], _ => []
  end.

(** The string [piece] is a run of consecutive characters of [s]. *)
Definition piece_of (s piece : string) : Prop :=
  exists a n : nat, piece = substring a n s.

Section ChildVocabulary.
Context `{Ext : Externals}.

(** What [subread] needs of a read besides the data model: a signal that
    ends less than a stride after the last move, a quality string as long
    as the sequence, a sample rate that is not zero, a number of samples
    whose thousandfold is below 2^53, so that the offset in milliseconds the
    source computes in double precision is the integer quotient, and a
    start time that the parser reads. *)
Definition read_fits (r : Read) : Prop :=
  size (raw_data r) < model_stride r * (size (moves r) + 1) /\
  str_size (qstring r) = str_size (seq r) /\
  0 < sample_rate r /\ 0 <= num_trimmed_samples r /\
  (num_trimmed_samples r + size (raw_data r)) * 1000 < 2 ^ 53 /\
  exists t, get_unix_time_from_string_timestamp (start_time (attributes r)) = Ok t.

(** The reads of a working set hold pieces of the sequence and of the
    quality string of the read [init_read]. *)
Definition pieces (init_read : Read) (l : list ExtRead) : Prop :=
  Forall (fun e => piece_of (seq init_read) (seq (read e)) /\
                   piece_of (qstring init_read) (qstring (read e))) l.

(** The samples of the signal that the map gives to a range of the
    sequence. *)
Definition signal_of (r : Read) (c : PosRange) : list float :=
  tensor_slice (seq_to_sig r (first c)) (seq_to_sig r (second c)) (raw_data r).

(** The child has what the constructor of [ExtRead] asserts. *)
Definition wraps (child : Read) : Prop := exists ext, ExtRead_new child = Ok ext.

End ChildVocabulary.

(** ** More example inputs *)

Module Scenarios.
Import Reference Examples.

(** A read of eight bases, two samples to a stride, with pore signal in its
    fourth stride and the adapter as its last four bases: PORE_ADAPTER cuts
    it at the spacer [3, 5). *)
Definition cut_read : Read :=
  example_read [90; 90; 90; 90; 90; 90; 200; 200; 90; 90; 90; 90; 90; 90; 90; 90]
    2 "TTTCACGT" [1; 1; 1; 1; 1; 1; 1; 1].

(** The same signal over a sequence whose bases before the spacer are the
    reverse complement of those after it, and no adapter: PORE_FLANK cuts it
    at [3, 5). *)
Definition flank_read : Read :=
  example_read [90; 90; 90; 90; 90; 90; 200; 200; 90; 90; 90; 90; 90; 90; 90; 90]
    2 "TACGTACG" [1; 1; 1; 1; 1; 1; 1; 1].



End Scenarios.


(** * Properties *)

(** ** Lists, neighbours and the result monad *)

Lemma back_snoc {A : Type} (l : list A) (x : A) : back (l ++ [x]) = Some x.
Proof. unfold back. rewrite rev_app_distr. reflexivity. Qed.

Lemma back_None {A : Type} (l : list A) : back l = None -> l = [].
Proof.
  unfold back. destruct (rev l) eqn:E; [|discriminate]. intros _.
  apply (f_equal (@rev A)) in E. rewrite rev_involutive in E. exact E.
Qed.

Lemma back_Some {A : Type} (l : list A) (b : A) :
  back l = Some b -> l = removelast l ++ [b].
Proof.
  unfold back. destruct (rev l) eqn:E; [discriminate|]. intros [= ->].
  apply (f_equal (@rev A)) in E. rewrite rev_involutive in E. simpl in E.
  subst l. rewrite removelast_last. reflexivity.
Qed.

Lemma adjacent_snoc {A : Type} (P : A -> A -> Prop) (l : list A) (x : A) :
  adjacent P (l ++ [x]) <->
  adjacent P l /\ (forall b, back l = Some b -> P b x).
Proof.
  induction l as [|a l IH].
  - simpl. split; [intros _; split; [exact I | discriminate] | trivial].
  - destruct l as [|a' l'].
    + simpl. split.
      * intros [H _]. split; [exact I|]. intros b [= <-]. exact H.
      * intros [_ H]. split; [apply H; reflexivity | exact I].
    + change (adjacent P ((a :: a' :: l') ++ [x]))
        with (P a a' /\ adjacent P ((a' :: l') ++ [x])).
      change (adjacent P (a :: a' :: l')) with (P a a' /\ adjacent P (a' :: l')).
      rewrite IH.
      assert (Hb : back (a :: a' :: l') = back (a' :: l')).
      { destruct (back (a' :: l')) eqn:E.
        - apply back_Some in E. rewrite E.
          change (a :: removelast (a' :: l') ++ [a0])
            with ((a :: removelast (a' :: l')) ++ [a0]).
          rewrite !back_snoc. reflexivity.
        - apply back_None in E. discriminate. }
      rewrite Hb. tauto.
Qed.

Lemma adjacent_app_l {A : Type} (P : A -> A -> Prop) (l1 l2 : list A) :
  adjacent P (l1 ++ l2) -> adjacent P l1.
Proof.
  induction l1 as [|a l1 IH]; [intros; exact I|].
  destruct l1 as [|b l1]; [intros; exact I|].
  simpl. intros [H1 H2]. split; [exact H1 | apply IH; exact H2].
Qed.

Lemma adjacent_bridge {A : Type} (P : A -> A -> Prop) (l1 l2 : list A) (b x : A) :
  adjacent P (l1 ++ x :: l2) -> back l1 = Some b -> P b x.
Proof.
  intros H Hb.
  replace (l1 ++ x :: l2) with ((l1 ++ [x]) ++ l2) in H
    by (rewrite <- app_assoc; reflexivity).
  apply adjacent_app_l in H. apply adjacent_snoc in H. apply H. exact Hb.
Qed.

Lemma adjacent_impl {A : Type} (P Q : A -> A -> Prop) (l : list A) :
  (forall a b, In a l -> P a b -> Q a b) -> adjacent P l -> adjacent Q l.
Proof.
  induction l as [|a l IH]; [trivial|].
  destruct l as [|b l]; [trivial|].
  intros Himp [H1 H2]. split.
  - apply Himp; [left; reflexivity | exact H1].
  - apply IH; [|exact H2]. intros x y Hx. apply Himp. right. exact Hx.
Qed.

Lemma wrap64_small (x : Z) : 0 <= x < 2 ^ 64 -> wrap64 x = x.
Proof. intros H. unfold wrap64. apply Z.mod_small. exact H. Qed.


(** A property of the first [n] naturals, checked by evaluation. *)
Lemma range_check (f : Z -> bool) (n : nat) :
  forallb f (map Z.of_nat (List.seq 0 n)) = true ->
  forall x, 0 <= x < Z.of_nat n -> f x = true.
Proof.
  intros H x Hx. rewrite forallb_forall in H. apply H.
  apply in_map_iff. exists (Z.to_nat x). split; [lia|].
  apply in_seq. lia.
Qed.

(** ** Range merging *)

Lemma sorted_by_first_head (r : PosRange) (rest : PosRanges) :
  sorted_by_first (r :: rest) ->
  forall b, In b rest -> first r <= first b.
Proof.
  revert r. induction rest as [|x rest IH]; intros r Hs b Hb.
  - destruct Hb.
  - destruct Hs as [H1 H2]. destruct Hb as [<-|Hb]; [exact H1|].
    specialize (IH x H2 b Hb). lia.
Qed.

Section Merge.
Variable d : Z.

Lemma merge_step_kept (merged : PosRanges) (r : PosRange) (merged' : PosRanges) :
  adjacent (kept d) merged ->
  merge_step d merged r = Ok merged' ->
  adjacent (kept d) merged'.
Proof.
  intros Hadj. unfold merge_step.
  destruct (back merged) as [b|] eqn:Hb.
  - unfold assert. destruct (first r >=? first b) eqn:Hge; simpl; [|discriminate].
    destruct (first r >? wrap64 (second b + d)) eqn:Hgt; intros [= <-].
    + apply adjacent_snoc. split; [exact Hadj|].
      intros b' Hb'. rewrite Hb in Hb'. injection Hb' as <-.
      unfold kept. split; lia.
    + pose proof (back_Some _ _ Hb) as Hm. rewrite Hm in Hadj.
      apply adjacent_snoc in Hadj. destruct Hadj as [Hrl Hlast].
      apply adjacent_snoc. split; [exact Hrl|].
      intros b' Hb'. specialize (Hlast b' Hb'). unfold kept in *.
      unfold first, second in *. simpl. exact Hlast.
  - intros [= <-]. apply back_None in Hb. subst merged. exact I.
Qed.

Lemma merge_loop_kept (ranges merged M : PosRanges) :
  adjacent (kept d) merged ->
  merge_loop d ranges merged = Ok M ->
  adjacent (kept d) M.
Proof.
  revert merged. induction ranges as [|r rest IH]; intros merged Hadj; simpl.
  - intros [= <-]. exact Hadj.
  - destruct (merge_step d merged r) as [merged'|e] eqn:Hs; simpl; [|discriminate].
    apply IH. eapply merge_step_kept; eassumption.
Qed.

(** A list that passes the test between all its neighbours is left as it
    is. *)
Lemma merge_loop_fixed (M merged : PosRanges) :
  adjacent (kept d) (merged ++ M) ->
  merge_loop d M merged = Ok (merged ++ M).
Proof.
  revert merged. induction M as [|r M IH]; intros merged Hadj; simpl.
  - rewrite app_nil_r. reflexivity.
  - assert (Hs : merge_step d merged r = Ok (merged ++ [r])).
    { unfold merge_step. destruct (back merged) as [b|] eqn:Hb; [|reflexivity].
      destruct (adjacent_bridge _ _ _ _ _ Hadj Hb) as [H1 H2].
      unfold assert.
      replace (first r >=? first b) with true by (symmetry; apply Z.geb_le; lia).
      simpl.
      replace (first r >? wrap64 (second b + d)) with true
        by (symmetry; apply Z.gtb_lt; lia).
      reflexivity. }
    rewrite Hs. simpl.
    replace (merged ++ r :: M) with ((merged ++ [r]) ++ M)
      by (rewrite <- app_assoc; reflexivity).
    apply IH. rewrite <- app_assoc. exact Hadj.
Qed.

Lemma merge_ranges_fixed (R M : PosRanges) :
  merge_ranges R d = Ok M -> merge_ranges M d = Ok M.
Proof.
  unfold merge_ranges. intros H.
  apply (merge_loop_fixed M []). simpl.
  eapply merge_loop_kept; [|exact H]. exact I.
Qed.

(** The firsts of the ranges kept so far stay below those still to come. *)
Lemma merge_loop_sorted_ok (ranges merged : PosRanges) :
  sorted_by_first ranges ->
  (forall a b, In a merged -> In b ranges -> first a <= first b) ->
  exists M, merge_loop d ranges merged = Ok M.
Proof.
  revert merged. induction ranges as [|r rest IH]; intros merged Hs Hle; simpl.
  - eexists. reflexivity.
  - assert (Hrest : sorted_by_first rest).
    { destruct rest; [exact I | apply Hs]. }
    pose proof (sorted_by_first_head _ _ Hs) as Hhead.
    unfold merge_step.
    destruct (back merged) as [b|] eqn:Hb.
    + assert (Hbr : first b <= first r).
      { apply Hle; [|left; reflexivity].
        rewrite (back_Some _ _ Hb). apply in_or_app. right. left. reflexivity. }
      unfold assert.
      replace (first r >=? first b) with true by (symmetry; apply Z.geb_le; lia).
      simpl.
      destruct (first r >? wrap64 (second b + d)); simpl; apply IH; try exact Hrest.
      * intros a c Ha Hc. apply in_app_or in Ha. destruct Ha as [Ha|[<-|[]]].
        -- apply Hle; [exact Ha | right; exact Hc].
        -- apply Hhead. exact Hc.
      * intros a c Ha Hc. apply in_app_or in Ha. destruct Ha as [Ha|[<-|[]]].
        -- apply Hle; [|right; exact Hc].
           rewrite (back_Some _ _ Hb). apply in_or_app. left. exact Ha.
        -- unfold first at 1. simpl. specialize (Hhead c Hc). fold (first b). lia.
    + simpl. apply IH; [exact Hrest|].
      apply back_None in Hb. subst merged.
      intros a c [<-|[]] Hc. apply Hhead. exact Hc.
Qed.

Lemma merge_loop_seconds (Q : Z -> Prop) (ranges merged M : PosRanges) :
  Forall (fun r => Q (second r)) merged ->
  Forall (fun r => Q (second r)) ranges ->
  merge_loop d ranges merged = Ok M ->
  Forall (fun r => Q (second r)) M.
Proof.
  revert merged. induction ranges as [|r rest IH]; intros merged Hm Hr; simpl.
  - intros [= <-]. exact Hm.
  - inversion Hr as [|? ? Hq Hrest]; subst.
    unfold merge_step. destruct (back merged) as [b|] eqn:Hb.
    + unfold assert. destruct (first r >=? first b); simpl; [|discriminate].
      destruct (first r >? wrap64 (second b + d)); simpl; apply IH; try exact Hrest.
      * apply Forall_app. split; [exact Hm | constructor; [exact Hq | constructor]].
      * apply Forall_app. split.
        -- rewrite (back_Some _ _ Hb) in Hm. apply Forall_app in Hm. apply Hm.
        -- constructor; [exact Hq | constructor].
    + simpl. apply IH; [|exact Hrest].
      apply Forall_app. split; [exact Hm | constructor; [exact Hq | constructor]].
Qed.

End Merge.

Lemma kept_sorted (d : Z) (M : PosRanges) :
  adjacent (kept d) M -> sorted_by_first M.
Proof.
  apply adjacent_impl. intros a b _ [H _]. lia.
Qed.

Lemma kept_separated (d : Z) (M : PosRanges) :
  0 <= d ->
  Forall (fun r => 0 <= second r /\ second r + d < 2 ^ 64) M ->
  adjacent (kept d) M -> separated d M.
Proof.
  intros Hd Hall. apply adjacent_impl. intros a b Ha [_ H].
  rewrite Forall_forall in Hall. specialize (Hall a Ha).
  rewrite wrap64_small in H; lia.
Qed.

(** C5.  [merge_ranges] is idempotent on every list it accepts; on a list
    sorted by [first] it returns a list sorted by [first], and when no
    [second + merge_dist] leaves the 64 bits of the source's arithmetic the
    neighbours of the result are more than [merge_dist] apart (so they do
    not overlap). *)
Theorem merge_ranges_idempotent_separated (R : PosRanges) (d : Z) :
  (forall M, merge_ranges R d = Ok M -> merge_ranges M d = Ok M) /\
  (sorted_by_first R ->
   exists M, merge_ranges R d = Ok M /\ merge_ranges M d = Ok M /\
             sorted_by_first M /\
             (0 <= d ->
              Forall (fun r => 0 <= second r /\ second r + d < 2 ^ 64) R ->
              separated d M)).
Proof.
  split.
  - intros M. apply merge_ranges_fixed.
  - intros Hs.
    destruct (merge_loop_sorted_ok d R [] Hs) as [M HM].
    { intros a b []. }
    exists M. split; [exact HM|]. split; [eapply merge_ranges_fixed; exact HM|].
    assert (Hk : adjacent (kept d) M).
    { eapply merge_loop_kept; [|exact HM]. exact I. }
    split; [eapply kept_sorted; exact Hk|].
    intros Hd Hall. apply kept_separated; [exact Hd| |exact Hk].
    eapply (merge_loop_seconds d (fun s => 0 <= s /\ s + d < 2 ^ 64));
      [|exact Hall|exact HM].
    constructor.
Qed.

Lemma merge_ranges_idempotent_separated_witness :
  sorted_by_first [(0, 10); (1, 2); (5, 6); (9, 12)] /\
  exists M, merge_ranges [(0, 10); (1, 2); (5, 6); (9, 12)] 2 = Ok M /\
            merge_ranges M 2 = Ok M /\ sorted_by_first M /\ separated 2 M.
Proof.
  assert (Hs : sorted_by_first [(0, 10); (1, 2); (5, 6); (9, 12)]).
  { unfold sorted_by_first, first; simpl. lia. }
  split; [exact Hs|].
  destruct (merge_ranges_idempotent_separated [(0, 10); (1, 2); (5, 6); (9, 12)] 2)
    as [_ H].
  destruct (H Hs) as [M [H1 [H2 [H3 H4]]]].
  exists M. repeat split; try assumption.
  apply H4; [lia|].
  repeat constructor; unfold second; simpl; lia.
Defined.

(** C5, as stated: at the top of the 64-bit range the sum
    [second + merge_dist] wraps to 0, both ranges are kept and they overlap. *)
Lemma merge_ranges_overflow_counterexample :
  let R := [(5, 2 ^ 64 - 1); (6, 7)] in
  Forall uint64_range R /\ uint64 1 /\ sorted_by_first R /\
  merge_ranges R 1 = Ok R /\
  ~ adjacent (fun a b => second a <= first b) R.
Proof.
  cbv zeta. split; [|split; [|split; [|split]]].
  - repeat constructor; unfold uint64, first, second; simpl; lia.
  - unfold uint64; simpl; lia.
  - unfold sorted_by_first, first; simpl. lia.
  - vm_compute. reflexivity.
  - unfold first, second; simpl. lia.
Qed.

(** ** The pore-signal detector *)

Lemma index_Ok {A : Type} (v : list A) (i : Z) (a : A) :
  index v i = Ok a <-> 0 <= i /\ nth_error v (Z.to_nat i) = Some a.
Proof.
  unfold index. destruct (i <? 0) eqn:E.
  - apply Z.ltb_lt in E. split; [discriminate | lia].
  - apply Z.ltb_ge in E. destruct (nth_error v (Z.to_nat i)).
    + split; [intros [= ->]; auto | intros [_ [= ->]]; reflexivity].
    + split; [discriminate | intros [_ H]; discriminate].
Qed.

Lemma index_lt_size {A : Type} (v : list A) (i : Z) (a : A) :
  index v i = Ok a -> 0 <= i < size v.
Proof.
  intros H. apply index_Ok in H. destruct H as [H0 H].
  assert (Hn : (Z.to_nat i < List.length v)%nat).
  { apply nth_error_Some. rewrite H. discriminate. }
  unfold size. lia.
Qed.

Lemma index_in_range {A : Type} (v : list A) (i : Z) :
  0 <= i < size v -> exists a, index v i = Ok a.
Proof.
  intros H. unfold size in H.
  destruct (nth_error v (Z.to_nat i)) as [a|] eqn:E.
  - exists a. apply index_Ok. split; [lia | exact E].
  - apply nth_error_None in E. lia.
Qed.

Lemma skipn_cons_nth {A : Type} (l : list A) (n : nat) (x : A) (rest : list A) :
  skipn n l = x :: rest -> nth_error l n = Some x /\ skipn (S n) l = rest.
Proof.
  revert l. induction n as [|n IH]; intros l H.
  - destruct l; simpl in H; [discriminate|]. injection H as -> ->. auto.
  - destruct l; simpl in H; [discriminate|]. apply IH in H. exact H.
Qed.

Section Detector.
Context `{Ext : Externals}.
Variables (signal : list float) (threshold : float) (D P : Z).
Hypothesis D_nonneg : 0 <= D.
Hypothesis P_nonneg : 0 <= P.
Hypothesis no_wrap : size signal + D < 2 ^ 64.

Local Abbreviation is_above := (above signal threshold).
Local Abbreviation interval_ok := (pore_interval signal threshold D P).
Local Abbreviation covered := (covers_below signal threshold P).
Local Abbreviation inv := (detect_inv signal threshold D P).

Lemma above_index (i : Z) (x : float) :
  index signal i = Ok x -> is_above i = fgt x threshold.
Proof. intros H. unfold above. rewrite H. reflexivity. Qed.

Lemma detect_step_inv (i : Z) (x : float) (st : detect_state) :
  P <= i -> index signal i = Ok x ->
  inv i st ->
  inv (i + 1) (detect_step threshold D st i x).
Proof.
  intros HP Hx. pose proof (index_lt_size _ _ _ Hx) as Hi.
  pose proof (above_index _ _ Hx) as Hab.
  destruct st as [[start end_] ans]. intros [Hnone Hcur].
  unfold detect_step. destruct (fgt x threshold) eqn:Hgt.
  - (* the sample is above the threshold *)
    assert (Hw1 : wrap64 (i + 1) = i + 1) by (apply wrap64_small; lia).
    destruct Hcur as [(Hs0 & He & Ha)|(He0 & Hei & Hall & Hsep & Hcov)].
    + (* no open interval *)
      subst start end_ ans. simpl. rewrite Hw1. split; [intros; lia|].
      right. split; [lia|]. split; [lia|]. simpl. split; [|split].
      * constructor; [|constructor]. unfold pore_interval, first, second.
        simpl. replace (i + 1 - 1) with i by lia.
        repeat split; try lia; try exact Hab.
        intros a b; unfold first, second; simpl; intros.
        lia.
      * exact I.
      * intros k Hk1 Hk2 Hk. destruct (Z.eq_dec k i) as [->|Hne].
        -- constructor. unfold contains, first, second; simpl; lia.
        -- rewrite Hnone in Hk; [discriminate|lia|lia|lia].
    + assert (Hw : wrap64 (end_ + D) = end_ + D) by (apply wrap64_small; lia).
      replace (end_ =? 0) with false by (symmetry; apply Z.eqb_neq; lia).
      rewrite Hw. simpl. destruct (i >? end_ + D) eqn:Hfar.
      * (* a new interval starts *)
        apply Z.gtb_lt in Hfar.
        replace (end_ >? 0) with true by (symmetry; apply Z.gtb_lt; lia).
        rewrite Hw1. split; [intros; lia|].
        right. split; [lia|]. split; [lia|]. split; [|split].
        -- apply Forall_app. split; [exact Hall|].
           constructor; [|constructor].
           unfold pore_interval, first, second.
           simpl. replace (i + 1 - 1) with i by lia.
           repeat split; try lia; try exact Hab.
           intros a b; unfold first, second; simpl; intros; lia.
        -- apply adjacent_snoc. split; [exact Hsep|].
           intros b Hb. rewrite back_snoc in Hb. injection Hb as <-.
           unfold first, second; simpl. lia.
        -- intros k Hk1 Hk2 Hk. apply Exists_app.
           destruct (Z_lt_dec k end_) as [Hlt|Hge].
           ++ left. apply Hcov; assumption.
           ++ right. constructor. unfold contains, first, second; simpl.
              destruct (Z.eq_dec k i) as [->|Hne]; [lia|].
              rewrite Hnone in Hk; [discriminate|lia|lia|lia].
      * (* the open interval is extended *)
        rewrite Z.gtb_ltb in Hfar. apply Z.ltb_ge in Hfar.
        rewrite Hw1. split; [intros; lia|].
        right. split; [lia|]. split; [lia|].
        apply Forall_app in Hall. destruct Hall as [Hans Hlast].
        inversion Hlast as [|? ? Hlast' _]; subst.
        destruct Hlast' as (HPs & Hse & Hes & Has & Hae & Hclose).
        unfold first, second in HPs, Hse, Hes, Has, Hae. simpl in *.
        split; [|split].
        -- apply Forall_app. split; [exact Hans|].
           constructor; [|constructor].
           unfold pore_interval, first, second.
           simpl. replace (i + 1 - 1) with i by lia.
           repeat split; try lia; try assumption.
           intros a b; unfold first, second; simpl. intros Ha Hab' Hb Haa Hbb Hbetween.
           destruct (Z_lt_dec b end_) as [Hlt|Hge].
           ++ apply Hclose; unfold first, second; simpl; assumption || lia.
           ++ assert (b = i).
              { destruct (Z.eq_dec b i) as [->|Hne]; [reflexivity|].
                rewrite Hnone in Hbb; [discriminate|lia|lia|lia]. }
              subst b.
              destruct (Z_lt_dec a (end_ - 1)) as [Hlt|Hge'].
              ** rewrite (Hbetween (end_ - 1)) in Hae; [discriminate|lia].
              ** lia.
        -- apply adjacent_snoc. apply adjacent_snoc in Hsep.
           destruct Hsep as [Hs1 Hs2]. split; [exact Hs1|].
           intros b Hb. specialize (Hs2 b Hb). unfold first, second in *.
           simpl in *. exact Hs2.
        -- intros k Hk1 Hk2 Hk. apply Exists_app.
           destruct (Z_lt_dec k end_) as [Hlt|Hge].
           ++ specialize (Hcov k Hk1 Hlt Hk). apply Exists_app in Hcov.
              destruct Hcov as [Hc|Hc]; [left; exact Hc|right].
              inversion Hc as [? ? Hc'|? ? Hc']; subst; [|inversion Hc'].
              constructor. unfold contains, first, second in *. simpl in *. lia.
           ++ right. constructor. unfold contains, first, second; simpl. lia.
  - (* the sample is not above the threshold *)
    split.
    + intros k Hk1 Hk2 Hk3. destruct (Z.eq_dec k i) as [->|Hne].
      * rewrite Hab. reflexivity.
      * apply Hnone; lia.
    + destruct Hcur as [Hc|(He0 & Hei & Hrest)]; [left; exact Hc|].
      right. split; [lia|]. split; [lia|exact Hrest].
Qed.

Lemma detect_loop_inv (samples : list float) (i : Z) (st : detect_state) :
  0 <= i -> P <= i ->
  skipn (Z.to_nat i) signal = samples ->
  inv i st ->
  inv (i + size samples) (detect_loop threshold D samples i st).
Proof.
  revert i st. induction samples as [|x rest IH]; intros i st Hi HP Hskip Hinv.
  - simpl. unfold size. simpl. rewrite Z.add_0_r. exact Hinv.
  - simpl. apply skipn_cons_nth in Hskip. destruct Hskip as [Hnth Hskip].
    replace (i + size (x :: rest)) with (i + 1 + size rest)
      by (unfold size; simpl List.length; lia).
    apply IH; try lia.
    + replace (Z.to_nat (i + 1)) with (S (Z.to_nat i)) by lia. exact Hskip.
    + apply detect_step_inv; [exact HP| |exact Hinv].
      apply index_Ok. split; [exact Hi | exact Hnth].
Qed.

End Detector.

(** The scan returns, and what it returns are intervals of the detector,
    more than [D] apart, that hold every sample above the threshold. *)
Lemma detect_pore_signal_clusters `{Ext : Externals}
    (signal : list float) (threshold : float) (D P : Z) :
  0 <= D -> 0 <= P -> 0 < size signal -> size signal + D < 2 ^ 64 ->
  exists l,
    detect_pore_signal signal threshold D P = Ok l /\
    Forall (pore_interval signal threshold D P) l /\
    separated D l /\
    covers_below signal threshold P (size signal) l.
Proof.
  intros HD HP HN Hwrap. unfold detect_pore_signal.
  assert (Hskip : skipn (Z.to_nat (Z.min P (size signal))) signal
                  = skipn (Z.to_nat P) signal).
  { destruct (Z_le_dec P (size signal)) as [Hle|Hgt].
    - rewrite Z.min_l by lia. reflexivity.
    - rewrite Z.min_r by lia. rewrite !skipn_all2; unfold size in *; try lia.
      reflexivity. }
  rewrite Hskip.
  pose proof (detect_loop_inv signal threshold D P HD HP Hwrap
                (skipn (Z.to_nat P) signal) P (0, 0, []) HP (Z.le_refl P) eq_refl)
    as Hinv.
  assert (Hhi : size signal <= P + size (skipn (Z.to_nat P) signal)).
  { unfold size. rewrite length_skipn. lia. }
  set (hi := P + size (skipn (Z.to_nat P) signal)) in *.
  destruct (detect_loop threshold D (skipn (Z.to_nat P) signal) P (0, 0, []))
    as [[start end_] ans].
  destruct Hinv as [Hnone Hcur].
  { split; [intros; lia|]. left. auto. }
  destruct Hcur as [(Hs0 & He & Ha)|(He0 & Hei & Hall & Hsep & Hcov)].
  - subst start end_ ans. simpl.
    replace (0 <? size signal) with true by (symmetry; apply Z.ltb_lt; lia).
    replace (0 <=? size signal) with true by (symmetry; apply Z.leb_le; lia).
    simpl. exists []. split; [reflexivity|]. split; [constructor|].
    split; [exact I|].
    intros k Hk1 Hk2 Hk. rewrite Hnone in Hk; [discriminate|lia|lia|lia].
  - replace (end_ >? 0) with true by (symmetry; apply Z.gtb_lt; lia).
    assert (Hlast : pore_interval signal threshold D P (start, end_)).
    { apply Forall_app in Hall. destruct Hall as [_ Hl].
      inversion Hl; assumption. }
    destruct Hlast as (H1 & H2 & H3 & _). unfold first, second in H1, H2, H3.
    simpl in H1, H2, H3.
    replace (start <? size signal) with true by (symmetry; apply Z.ltb_lt; lia).
    replace (end_ <=? size signal) with true by (symmetry; apply Z.leb_le; lia).
    simpl. exists (ans ++ [(start, end_)]).
    split; [reflexivity|]. split; [exact Hall|]. split; [exact Hsep|].
    intros k Hk1 Hk2 Hk. destruct (Z_lt_dec k end_) as [Hlt|Hge].
    + apply Hcov; assumption.
    + rewrite Hnone in Hk; [discriminate|lia|lia|lia].
Qed.

(** C4.  On a signal that is not empty and short enough for [end + D] not to
    wrap, the detector returns intervals [a, b) with [P <= a < b <= N] and a
    sample above the threshold at both ends, in which two successive samples
    above the threshold have at most [D] samples between them; the intervals
    are more than [D] apart, hence disjoint, they are ordered by [a], and
    every sample above the threshold from [P] on lies in one of them. *)
Theorem detect_pore_signal_intervals `{Ext : Externals}
    (signal : list float) (threshold : float) (D P : Z) :
  0 <= D -> 0 <= P -> 0 < size signal -> size signal + D < 2 ^ 64 ->
  exists l,
    detect_pore_signal signal threshold D P = Ok l /\
    Forall (pore_interval signal threshold D P) l /\
    separated D l /\
    adjacent (fun a b => second a <= first b) l /\
    adjacent (fun a b => first a < first b) l /\
    covers_below signal threshold P (size signal) l.
Proof.
  intros HD HP HN Hwrap.
  destruct (detect_pore_signal_clusters signal threshold D P HD HP HN Hwrap)
    as (l & Hret & Hall & Hsep & Hcov).
  exists l. split; [exact Hret|]. split; [exact Hall|]. split; [exact Hsep|].
  split; [|split; [|exact Hcov]].
  - revert Hsep. apply adjacent_impl. intros a b _ Hab. lia.
  - revert Hsep. apply adjacent_impl. intros a b Ha Hab.
    rewrite Forall_forall in Hall. destruct (Hall a Ha) as (_ & Hlt & _). lia.
Qed.

Lemma detect_pore_signal_intervals_witness :
  let signal := map inject_Z [0; 200; 150; 0; 200; 0; 0; 0; 180; 0] in
  exists l,
    detect_pore_signal (Ext := Reference.externals) signal 100%Q 1 1 = Ok l /\
    Forall (pore_interval (Ext := Reference.externals) signal 100%Q 1 1) l /\
    separated 1 l /\
    adjacent (fun a b => second a <= first b) l /\
    adjacent (fun a b => first a < first b) l /\
    covers_below (Ext := Reference.externals) signal 100%Q 1 (size signal) l.
Proof.
  apply (detect_pore_signal_intervals (Ext := Reference.externals));
    unfold size; simpl; lia.
Defined.

(** C4, as stated, fails at both ends of the domain: the closing assertion
    rejects the empty signal, and with a cluster distance at the top of the
    64-bit range [end + cluster_dist] wraps, so that two neighbouring samples
    above the threshold are put in two intervals. *)
Lemma detect_pore_signal_counterexample :
  detect_pore_signal (Ext := Reference.externals) [] 100%Q 0 0
    = Err AssertionFailed /\
  detect_pore_signal (Ext := Reference.externals)
    (map inject_Z [200; 200]) 100%Q (2 ^ 64 - 1) 0 = Ok [(0, 1); (1, 2)] /\
  ~ separated (2 ^ 64 - 1) [(0, 1); (1, 2)].
Proof.
  split; [vm_compute; reflexivity|]. split; [vm_compute; reflexivity|].
  unfold separated, first, second; simpl. lia.
Qed.

(** ** Derived identifiers *)


Module SHA256_facts.
Import SHA256.

Lemma round_eight (st : list Z) (kw : Z * Z) : eight st -> eight (round st kw).
Proof.
  intros (a & b & c & d & e & f & g & h & ->). simpl.
  do 8 eexists. reflexivity.
Qed.

Lemma rounds_eight (kws : list (Z * Z)) (st : list Z) :
  eight st -> eight (fold_left round kws st).
Proof.
  revert st. induction kws as [|kw kws IH]; intros st H; simpl; [exact H|].
  apply IH. apply round_eight. exact H.
Qed.

Lemma compress_eight (h block : list Z) : eight h -> eight (compress h block).
Proof.
  intros Hh. unfold compress.
  pose proof (rounds_eight (combine K (schedule 48 (words 16 block))) h Hh) as Hst.
  destruct Hh as (a & b & c & d & e & f & g & x & ->).
  destruct Hst as (a' & b' & c' & d' & e' & f' & g' & x' & ->).
  simpl. do 8 eexists. reflexivity.
Qed.

Lemma blocks_eight (n : nat) (bytes h : list Z) : eight h -> eight (blocks n bytes h).
Proof.
  revert bytes h. induction n as [|n IH]; intros bytes h H; simpl; [exact H|].
  apply IH. apply compress_eight. exact H.
Qed.

Lemma be_bytes_4 (x : Z) :
  exists b0 b1 b2 b3,
    be_bytes 4 x = [b0; b1; b2; b3] /\ byte b0 /\ byte b1 /\ byte b2 /\ byte b3.
Proof.
  do 4 eexists. split; [reflexivity|].
  unfold byte. repeat split; apply Z.mod_pos_bound; reflexivity.
Qed.

(** The digest has 32 bytes; its first 16 are those of the first four words. *)
Lemma digest_prefix (msg : list Z) :
  exists b0 b1 b2 b3 b4 b5 b6 b7 b8 b9 b10 b11 b12 b13 b14 b15,
    firstn 16 (digest msg)
    = [b0; b1; b2; b3; b4; b5; b6; b7; b8; b9; b10; b11; b12; b13; b14; b15] /\
    Forall byte [b0; b1; b2; b3; b4; b5; b6; b7; b8; b9; b10; b11; b12; b13; b14; b15].
Proof.
  unfold digest.
  assert (H : eight (blocks (List.length (pad msg) / 64) (pad msg) H0)).
  { apply blocks_eight. unfold H0. do 8 eexists. reflexivity. }
  destruct H as (w0 & w1 & w2 & w3 & w4 & w5 & w6 & w7 & ->).
  cbn [flat_map].
  destruct (be_bytes_4 w0) as (a0 & a1 & a2 & a3 & -> & ? & ? & ? & ?).
  destruct (be_bytes_4 w1) as (a4 & a5 & a6 & a7 & -> & ? & ? & ? & ?).
  destruct (be_bytes_4 w2) as (a8 & a9 & a10 & a11 & -> & ? & ? & ? & ?).
  destruct (be_bytes_4 w3) as (a12 & a13 & a14 & a15 & -> & ? & ? & ? & ?).
  exists a0, a1, a2, a3, a4, a5, a6, a7, a8, a9, a10, a11, a12, a13, a14, a15.
  split; [reflexivity|]. repeat (constructor; [assumption|]). constructor.
Qed.

Lemma digest_length (msg : list Z) : List.length (digest msg) = 32%nat.
Proof.
  unfold digest.
  assert (H : eight (blocks (List.length (pad msg) / 64) (pad msg) H0)).
  { apply blocks_eight. unfold H0. do 8 eexists. reflexivity. }
  destruct H as (w0 & w1 & w2 & w3 & w4 & w5 & w6 & w7 & ->). reflexivity.
Qed.

End SHA256_facts.

Lemma hex_pair_byte (b : Z) : 0 <= b < 256 -> hex_pair_ok b = true.
Proof. apply (range_check hex_pair_ok 256). vm_compute. reflexivity. Qed.

Lemma version_byte (b : Z) : 0 <= b < 256 -> version_ok b = true.
Proof. apply (range_check version_ok 256). vm_compute. reflexivity. Qed.

Lemma variant_byte (b : Z) : 0 <= b < 256 -> variant_ok b = true.
Proof. apply (range_check variant_ok 256). vm_compute. reflexivity. Qed.

Ltac split_andb :=
  repeat match goal with
         | H : (_ && _)%bool = true |- _ =>
             apply andb_prop in H; destruct H
         end.

Lemma uuid_loop_v4 (b0 b1 b2 b3 b4 b5 b6 b7 b8 b9 b10 b11 b12 b13 b14 b15 : Z) :
  Forall byte
    [b0; b1; b2; b3; b4; b5; b6; b7; b8; b9; b10; b11; b12; b13; b14; b15] ->
  is_uuid_v4
    (uuid_loop 0
       (update_at 8 (fun b => Z.lor (Z.land b 0x3F) 0x80)
          (update_at 6 (fun b => Z.lor (Z.land b 0x0F) 0x40)
             [b0; b1; b2; b3; b4; b5; b6; b7; b8; b9; b10; b11; b12; b13; b14; b15])))
  = true.
Proof.
  intros H.
  repeat match goal with
         | H : Forall _ (_ :: _) |- _ =>
             let Hb := fresh "Hb" in
             let Ht := fresh "Ht" in
             inversion H as [|? ? Hb Ht]; subst; clear H
         end.
  unfold byte in *.
  apply version_byte in Hb5. apply variant_byte in Hb7.
  repeat match goal with
         | H : 0 <= _ < 256 |- _ => apply hex_pair_byte in H
         end.
  unfold hex_pair_ok, version_ok, variant_ok in *. cbv zeta in *.
  split_andb.
  unfold is_uuid_v4.
  cbn -[hex_digit Z.div Z.modulo Z.lor Z.land is_lower_hex nat_of_ascii Nat.eqb
        existsb].
  repeat match goal with
         | H : is_lower_hex _ = true |- _ => rewrite H; clear H
         end.
  repeat match goal with
         | H : (_ =? _)%nat = true |- _ => rewrite H; clear H
         end.
  match goal with
  | H : existsb _ _ = true |- _ => rewrite H
  end.
  reflexivity.
Qed.

(** C3.  [derive_uuid] is the function the specification describes: the
    first 16 bytes of the SHA-256 of [id] followed by [desc], bytes 6 and 8
    re-tagged, printed in lowercase hexadecimal with a hyphen after bytes 4,
    6, 8 and 10; its value is a syntactically valid version 4 identifier,
    and it depends on the two strings alone. *)
Theorem derive_uuid_v4 (id desc : string) :
  derive_uuid id desc = derive_uuid_spec id desc /\
  is_uuid_v4 (derive_uuid id desc) = true /\
  (forall id' desc', id' = id -> desc' = desc ->
     derive_uuid id' desc' = derive_uuid id desc).
Proof.
  assert (Hshape :
    exists b0 b1 b2 b3 b4 b5 b6 b7 b8 b9 b10 b11 b12 b13 b14 b15,
      firstn 16 (SHA256.digest (bytes_of_string id ++ bytes_of_string desc))
      = [b0; b1; b2; b3; b4; b5; b6; b7; b8; b9; b10; b11; b12; b13; b14; b15] /\
      Forall byte
        [b0; b1; b2; b3; b4; b5; b6; b7; b8; b9; b10; b11; b12; b13; b14; b15])
    by apply SHA256_facts.digest_prefix.
  destruct Hshape as (b0 & b1 & b2 & b3 & b4 & b5 & b6 & b7 & b8 & b9 & b10 &
                      b11 & b12 & b13 & b14 & b15 & Hpre & Hbytes).
  assert (Hloop : derive_uuid id desc =
    uuid_loop 0
       (update_at 8 (fun b => Z.lor (Z.land b 0x3F) 0x80)
          (update_at 6 (fun b => Z.lor (Z.land b 0x0F) 0x40)
             [b0; b1; b2; b3; b4; b5; b6; b7; b8; b9; b10; b11; b12; b13; b14; b15]))).
  { unfold derive_uuid, SHA256.SHA256_Final, SHA256.SHA256_Update,
      SHA256.SHA256_Init. cbv zeta. rewrite app_nil_l, Hpre. reflexivity. }
  split; [|split].
  - rewrite Hloop. unfold derive_uuid_spec. cbv zeta. rewrite Hpre.
    cbn -[hex_digit Z.div Z.modulo Z.lor Z.land]. reflexivity.
  - rewrite Hloop. apply uuid_loop_v4. exact Hbytes.
  - intros id' desc' -> ->. reflexivity.
Qed.

(** The identifier of the specification's scenario. *)
Example derive_uuid_scenario :
  derive_uuid "123e4567-e89b-12d3-a456-426614174000" "0-100"
  = "3496ce40-7e44-4f7a-aee7-31a0023f6786"%string.
Proof. vm_compute. reflexivity. Qed.

(** ** Timestamps *)


Ltac zlia := Z.div_mod_to_equations; lia.

Lemma yoe_bounds (doe : Z) :
  0 <= doe < 146097 ->
  let yoe := (doe - doe / 1460 + doe / 36524 - doe / 146096) / 365 in
  0 <= yoe <= 399 /\ 0 <= doe - (365 * yoe + yoe / 4 - yoe / 100) <= 365.
Proof. intros H. cbv zeta. zlia. Qed.

Lemma month_day (doy : Z) :
  0 <= doy <= 365 ->
  let mp := (5 * doy + 2) / 153 in
  let d := doy - (153 * mp + 2) / 5 + 1 in
  0 <= mp <= 11 /\ 1 <= d <= 31.
Proof. intros H. cbv zeta. zlia. Qed.

(** [days_from_civil] undoes [civil_from_days], on every day count. *)
Lemma civil_roundtrip (z : Z) :
  let '(y, m, d) := civil_from_days z in
  days_from_civil y m d = z /\ 1 <= m <= 12 /\ 1 <= d <= 31.
Proof.
  unfold civil_from_days.
  set (z' := z + 719468).
  set (era := z' / 146097).
  set (doe := z' - era * 146097).
  assert (Hdoe : 0 <= doe < 146097) by (subst doe era; zlia).
  destruct (yoe_bounds doe Hdoe) as [Hyoe Hdoy].
  set (yoe := (doe - doe / 1460 + doe / 36524 - doe / 146096) / 365) in *.
  set (doy := doe - (365 * yoe + yoe / 4 - yoe / 100)) in *.
  destruct (month_day doy Hdoy) as [Hmp Hd].
  set (mp := (5 * doy + 2) / 153) in *.
  set (d := doy - (153 * mp + 2) / 5 + 1) in *.
  cbv zeta.
  set (m := if mp <? 10 then mp + 3 else mp - 9).
  assert (Hm : 1 <= m <= 12 /\ (if m >? 2 then m - 3 else m + 9) = mp).
  { subst m. destruct (mp <? 10) eqn:E;
      [apply Z.ltb_lt in E | apply Z.ltb_ge in E].
    - replace (mp + 3 >? 2) with true by (symmetry; apply Z.gtb_lt; lia). lia.
    - replace (mp - 9 >? 2) with false
        by (symmetry; rewrite Z.gtb_ltb; apply Z.ltb_ge; lia).
      lia. }
  destruct Hm as [Hm Hback].
  split; [|split; assumption].
  unfold days_from_civil. rewrite Hback.
  assert (Hy : (if m <=? 2
                then (if m <=? 2 then yoe + era * 400 + 1 else yoe + era * 400) - 1
                else (if m <=? 2 then yoe + era * 400 + 1 else yoe + era * 400))
               = yoe + era * 400).
  { destruct (m <=? 2); lia. }
  rewrite Hy.
  assert (Hera : (yoe + era * 400) / 400 = era) by zlia.
  rewrite Hera.
  replace (yoe + era * 400 - era * 400) with yoe by lia.
  subst d doy doe z'. lia.
Qed.

Lemma days_from_civil_year (y m d : Z) :
  1 <= m <= 12 -> 1 <= d <= 31 ->
  (y <= 1969 -> days_from_civil y m d < 0) /\
  (10000 <= y -> 2932897 <= days_from_civil y m d).
Proof.
  intros Hm Hd. unfold days_from_civil.
  destruct (m <=? 2) eqn:E1; [apply Z.leb_le in E1 | apply Z.leb_gt in E1].
  - replace (m >? 2) with false
      by (symmetry; rewrite Z.gtb_ltb; apply Z.ltb_ge; lia).
    split; intros Hy; zlia.
  - replace (m >? 2) with true by (symmetry; apply Z.gtb_lt; lia).
    split; intros Hy; zlia.
Qed.

Lemma digit_char_ok (d : Z) :
  0 <= d <= 9 -> is_digit (digit_char d) = true /\ digit_value (digit_char d) = d.
Proof.
  intros H.
  assert (C : d = 0 \/ d = 1 \/ d = 2 \/ d = 3 \/ d = 4 \/ d = 5 \/ d = 6 \/
              d = 7 \/ d = 8 \/ d = 9) by lia.
  repeat (destruct C as [-> | C]; [split; reflexivity|]). subst d.
  split; reflexivity.
Qed.

Lemma read_digit_step (max : nat) (d : Z) (s : string) (acc : Z) (n : nat) :
  0 <= d <= 9 ->
  read_digits (S max) (String (digit_char d) s) acc n
  = read_digits max s (acc * 10 + d) (S n).
Proof.
  intros H. destruct (digit_char_ok d H) as [H1 H2].
  cbn [read_digits]. rewrite H1, H2. reflexivity.
Qed.

Lemma get_number_two (lo hi n : Z) (rest : string) :
  0 <= n <= 99 -> lo <= n <= hi ->
  get_number lo hi 2 (two_digits n ++ rest) = Some (n, rest).
Proof.
  intros Hn Hr. unfold get_number, two_digits. cbn [append].
  rewrite !read_digit_step by zlia. cbn [read_digits Nat.eqb].
  replace (0 * 10 + n / 10) with (n / 10) by lia.
  replace (n / 10 * 10 + n mod 10) with n by zlia.
  replace (lo <=? n) with true by (symmetry; apply Z.leb_le; lia).
  replace (n <=? hi) with true by (symmetry; apply Z.leb_le; lia).
  reflexivity.
Qed.

Lemma to_string_four (y : Z) :
  1000 <= y <= 9999 -> to_string y = four_digits y.
Proof.
  intros H. unfold to_string.
  replace (y <? 0) with false by (symmetry; apply Z.ltb_ge; lia).
  assert (Hlog : 9 <= Z.log2 y).
  { change 9 with (Z.log2 1000). apply Z.log2_le_mono. lia. }
  destruct (Z.to_nat (Z.log2 y)) as [|[|[|f]]] eqn:Ef; try lia.
  cbn [digits_of].
  replace (y <? 10) with false by (symmetry; apply Z.ltb_ge; lia).
  replace (y / 10 <? 10) with false by (symmetry; apply Z.ltb_ge; zlia).
  replace (y / 10 / 10 <? 10) with false by (symmetry; apply Z.ltb_ge; zlia).
  replace (y / 10 / 10 / 10 <? 10) with true by (symmetry; apply Z.ltb_lt; zlia).
  unfold four_digits.
  replace (y / 10 / 10 / 10 mod 10) with (y / 1000) by zlia.
  replace (y / 10 / 10 mod 10) with (y / 100 mod 10) by zlia.
  reflexivity.
Qed.

Lemma get_number_year (y : Z) (rest : string) :
  1000 <= y <= 9999 ->
  get_number 0 9999 4 (to_string y ++ rest) = Some (y, rest).
Proof.
  intros H. rewrite to_string_four by exact H.
  unfold get_number, four_digits. cbn [append].
  rewrite !read_digit_step by zlia. cbn [read_digits Nat.eqb].
  replace (((0 * 10 + y / 1000) * 10 + y / 100 mod 10) * 10 + y / 10 mod 10)
    with (y / 10) by zlia.
  replace (y / 10 * 10 + y mod 10) with y by zlia.
  replace (0 <=? y) with true by (symmetry; apply Z.leb_le; lia).
  replace (y <=? 9999) with true by (symmetry; apply Z.leb_le; lia).
  reflexivity.
Qed.

Lemma append_assoc (a b c : string) : ((a ++ b) ++ c = a ++ (b ++ c))%string.
Proof. induction a as [|x a IH]; [reflexivity|]. simpl. rewrite IH. reflexivity. Qed.

Lemma length_append (a b : string) :
  String.length (a ++ b) = (String.length a + String.length b)%nat.
Proof. induction a as [|x a IH]; [reflexivity|]. simpl. rewrite IH. reflexivity. Qed.

(** [strptime] reads back what [strftime] printed, whatever follows. *)
Lemma strptime_strftime (t : tm) (rest : string) :
  tm_in_range t -> strptime (strftime t ++ rest) = t.
Proof.
  intros (Hy & Hmo & Hd & Hh & Hmi & Hs). unfold strftime, strptime.
  rewrite !append_assoc.
  rewrite get_number_year by exact Hy. cbn [append expect Ascii.eqb Bool.eqb].
  rewrite get_number_two by lia. cbn [append expect Ascii.eqb Bool.eqb].
  rewrite get_number_two by lia. cbn [append expect Ascii.eqb Bool.eqb].
  rewrite get_number_two by lia. cbn [append expect Ascii.eqb Bool.eqb].
  rewrite get_number_two by lia. cbn [append expect Ascii.eqb Bool.eqb].
  rewrite get_number_two by lia.
  destruct t as [s mi h d mo y]. cbn [tm_sec tm_min tm_hour tm_mday tm_mon tm_year].
  f_equal; lia.
Qed.

Lemma strftime_length (t : tm) :
  tm_in_range t -> String.length (strftime t) = 20%nat.
Proof.
  intros (Hy & _). unfold strftime. rewrite to_string_four by exact Hy.
  reflexivity.
Qed.

Lemma substring_skip (p s : string) (n : nat) :
  substring (String.length p) n (p ++ s) = substring 0 n s.
Proof. induction p as [|c p IH]; [reflexivity|]. simpl. exact IH. Qed.

Lemma substring_prefix (s t : string) :
  substring 0 (String.length s) (s ++ t) = s.
Proof.
  induction s as [|c s IH]; simpl.
  - destruct t; reflexivity.
  - rewrite IH. reflexivity.
Qed.

Lemma mktime_gmtime (s : Z) : mktime (gmtime s) = s.
Proof.
  unfold gmtime. pose proof (civil_roundtrip (s / 86400)) as H.
  destruct (civil_from_days (s / 86400)) as [[y m] d].
  destruct H as [H _]. unfold mktime.
  cbn [tm_sec tm_min tm_hour tm_mday tm_mon tm_year].
  replace (y - 1900 + 1900) with y by lia.
  replace (m - 1 + 1) with m by lia.
  rewrite H. zlia.
Qed.

Lemma gmtime_in_range (s : Z) : 0 <= s < Y10K -> tm_in_range (gmtime s).
Proof.
  unfold Y10K. intros Hs. unfold gmtime.
  pose proof (civil_roundtrip (s / 86400)) as H.
  destruct (civil_from_days (s / 86400)) as [[y m] d].
  destruct H as (H & Hm & Hd).
  destruct (days_from_civil_year y m d Hm Hd) as [Hlow Hhigh].
  unfold tm_in_range. cbn [tm_sec tm_min tm_hour tm_mday tm_mon tm_year].
  assert (Hdays : 0 <= s / 86400 < 2932897) by zlia.
  assert (Hy : 1970 <= y <= 9999).
  { split.
    - destruct (Z_le_gt_dec y 1969) as [Hle|Hgt]; [specialize (Hlow Hle)|]; lia.
    - destruct (Z_le_gt_dec 10000 y) as [Hle|Hgt]; [specialize (Hhigh Hle)|]; lia. }
  repeat split; try lia; zlia.
Qed.

Lemma stoi_to_string (ms : Z) : 0 <= ms < 1000 -> stoi (to_string ms) = Ok ms.
Proof.
  intros H. assert (Hc : stoi_reads ms = true).
  { apply (range_check stoi_reads 1000); [vm_compute; reflexivity | exact H]. }
  unfold stoi_reads in Hc. destruct (stoi (to_string ms)) as [v|e]; [|discriminate].
  apply Z.eqb_eq in Hc. subst v. reflexivity.
Qed.

Lemma to_int64_small (x : Z) : - 2 ^ 63 <= x < 2 ^ 63 -> to_int64 x = x.
Proof. intros H. unfold to_int64. rewrite Z.mod_small; lia. Qed.

(** Parsing undoes formatting, for every millisecond count from the epoch
    to the end of the year 9999. *)
Lemma parse_format (m : Z) :
  0 <= m < Y10K * 1000 ->
  get_unix_time_from_string_timestamp (get_string_timestamp_from_unix_time m)
  = Ok m.
Proof.
  unfold Y10K. intros Hm.
  unfold get_string_timestamp_from_unix_time, get_unix_time_from_string_timestamp.
  cbv zeta. rewrite Z.quot_div_nonneg, Z.rem_mod_nonneg by lia.
  set (s := m / 1000). set (ms := m mod 1000).
  assert (Hs : 0 <= s < Y10K) by (unfold Y10K; subst s; zlia).
  assert (Hms : 0 <= ms < 1000) by (subst ms; zlia).
  pose proof (gmtime_in_range s Hs) as Hrange.
  rewrite append_assoc.
  rewrite strptime_strftime by exact Hrange.
  rewrite mktime_gmtime.
  assert (Hsub : substr (strftime (gmtime s) ++ to_string ms ++ "+00:00") 20
                   (wrap64 (str_size (strftime (gmtime s) ++ to_string ms ++ "+00:00")
                            - 26))
                 = Ok (to_string ms)).
  { unfold substr, str_size. rewrite !length_append, strftime_length by exact Hrange.
    cbn [String.length].
    set (len := String.length (to_string ms)).
    replace (20 >? Z.of_nat (20 + (len + 6))) with false
      by (symmetry; rewrite Z.gtb_ltb; apply Z.ltb_ge; lia).
    replace (Z.of_nat (20 + (len + 6)) - 26) with (Z.of_nat len) by lia.
    assert (Hlen : Z.of_nat len < 2 ^ 64).
    { assert (Hl : (len <= 3)%nat); [|lia].
      subst len.
      pose (short := fun x => (String.length (to_string x) <=? 3)%nat).
      assert (Hc : short ms = true).
      { apply (range_check short 1000); [vm_compute; reflexivity | exact Hms]. }
      apply Nat.leb_le in Hc. exact Hc. }
    rewrite wrap64_small by lia.
    replace (Z.to_nat (Z.min (Z.of_nat len) (Z.of_nat (20 + (len + 6)) - 20)))
      with len by lia.
    f_equal.
    replace (Z.to_nat 20) with (String.length (strftime (gmtime s)))
      by (rewrite strftime_length by exact Hrange; reflexivity).
    rewrite substring_skip. apply substring_prefix. }
  rewrite Hsub. cbn [bind]. rewrite stoi_to_string by exact Hms. cbn [bind].
  f_equal. rewrite to_int64_small; subst s ms; zlia.
Qed.

(** Formatting undoes parsing on every timestamp that formatting produces. *)
Lemma format_parse_on_formatted (m : Z) :
  0 <= m < Y10K * 1000 ->
  exists v,
    get_unix_time_from_string_timestamp (get_string_timestamp_from_unix_time m)
    = Ok v /\
    get_string_timestamp_from_unix_time v = get_string_timestamp_from_unix_time m.
Proof.
  intros H. exists m. split; [apply parse_format; exact H | reflexivity].
Qed.

(** C2, at the timestamp of the specification's own scenario: the
    milliseconds are read as the number 0 and printed back as "0", not
    "000", so formatting the parsed value does not give the input back. *)
Theorem timestamp_format_drops_zeros :
  get_unix_time_from_string_timestamp "2023-01-01T00:00:00.000+00:00"
    = Ok 1672531200000 /\
  get_string_timestamp_from_unix_time 1672531200000
    = "2023-01-01T00:00:00.0+00:00"%string /\
  get_string_timestamp_from_unix_time 1672531200000
    <> "2023-01-01T00:00:00.000+00:00"%string.
Proof.
  split; [vm_compute; reflexivity|]. split; [vm_compute; reflexivity|].
  vm_compute. discriminate.
Qed.

(** The child of the specification's timestamp scenario, 8000 samples into
    a read sampled at 4000 Hz: the start time moves by two seconds, and its
    milliseconds are printed as "0". *)
Example adjust_time_ms_two_seconds :
  samples_to_ms 8000 4000 = Ok 2000 /\
  adjust_time_ms "2023-01-01T00:00:00.000+00:00" 2000
  = Ok "2023-01-01T00:00:02.0+00:00"%string.
Proof. split; vm_compute; reflexivity. Qed.

(** ** The worker *)

Section Worker.
Context `{Ext : Externals}.
Variable settings : DuplexSplitSettings.


Lemma split_round_no_spacers (f : SplitFinderF) (to_split acc : list ExtRead) :
  (forall r, In r to_split -> f r = Ok []) ->
  split_round f to_split acc = Ok (acc ++ to_split).
Proof.
  revert acc. induction to_split as [|r rest IH]; intros acc H; simpl.
  - rewrite app_nil_r. reflexivity.
  - rewrite (H r) by (left; reflexivity). simpl.
    rewrite IH by (intros; apply H; right; assumption).
    rewrite <- app_assoc. reflexivity.
Qed.

Lemma split_rounds_no_spacers (finders : list (string * SplitFinderF))
    (to_split : list ExtRead) :
  (forall name f r, In (name, f) finders -> In r to_split -> f r = Ok []) ->
  split_rounds finders to_split = Ok to_split.
Proof.
  induction finders as [|[name f] rest IH]; intros H; simpl; [reflexivity|].
  rewrite split_round_no_spacers.
  - simpl. apply IH. intros n g r Hin. apply (H n g r). right. exact Hin.
  - intros r Hr. apply (H name f r); [left; reflexivity | exact Hr].
Qed.

End Worker.



(** C7.  When the node is enabled and every split finder returns no spacer
    for the read, the node pushes exactly one read: the input with
    [parent_read_id] set to its own [read_id], and every other field,
    [read_id] included, as it was. *)
Theorem no_spacers_keeps_read `{Ext : Externals}
    (settings : DuplexSplitSettings) (init_read : Read) (ext : ExtRead) :
  enabled settings = true ->
  ExtRead_new init_read = Ok ext ->
  (forall name f, In (name, f) (build_split_finders settings) -> f ext = Ok []) ->
  exists out,
    DuplexSplitNode settings [MsgRead init_read] = ([MsgRead out], None) /\
    read_id out = read_id init_read /\
    parent_read_id out = read_id init_read /\
    raw_data out = raw_data init_read /\
    seq out = seq init_read /\
    qstring out = qstring init_read /\
    moves out = moves init_read /\
    attributes out = attributes init_read /\
    num_trimmed_samples out = num_trimmed_samples init_read /\
    (digitisation out, range out, offset out, sample_rate out, start_time_ms out)
    = (digitisation init_read, range init_read, offset init_read,
       sample_rate init_read, start_time_ms init_read) /\
    (shift out, scale out, scaling out, num_chunks out, num_modbase_chunks out,
     model_stride out)
    = (shift init_read, scale init_read, scaling init_read, num_chunks init_read,
       num_modbase_chunks init_read, model_stride init_read) /\
    (base_mod_probs out, run_id out, flowcell_id out, model_name out)
    = (base_mod_probs init_read, run_id init_read, flowcell_id init_read,
       model_name init_read) /\
    (start_sample out, end_sample out, run_acqusition_start_time_ms out)
    = (start_sample init_read, end_sample init_read,
       run_acqusition_start_time_ms init_read).
Proof.
  intros Hon Hext Hnone.
  exists (set_parent_read_id init_read (read_id init_read)).
  split; [|repeat split].
  unfold DuplexSplitNode. simpl. rewrite Hon. simpl.
  unfold process_read. rewrite Hext. simpl.
  rewrite split_rounds_no_spacers.
  - simpl. unfold ExtRead_new in Hext.
    destruct (back (move_cum_sums (moves init_read))); [|discriminate].
    destruct (assert (z =? str_size (seq init_read))); simpl in Hext; [|discriminate].
    injection Hext as <-. reflexivity.
  - intros name f r Hf [<-|[]]. apply (Hnone name f Hf).
Qed.

Lemma no_spacers_keeps_read_witness :
  exists out,
    DuplexSplitNode (Examples.example_settings true false)
      [MsgRead Examples.quiet_read] = ([MsgRead out], None) /\
    read_id out = read_id Examples.quiet_read /\
    parent_read_id out = read_id Examples.quiet_read /\
    raw_data out = raw_data Examples.quiet_read /\
    seq out = seq Examples.quiet_read.
Proof.
  destruct (ExtRead_new (Ext := Reference.externals) Examples.quiet_read)
    as [ext|e] eqn:Hext; [|vm_compute in Hext; discriminate].
  destruct (no_spacers_keeps_read (Ext := Reference.externals)
              (Examples.example_settings true false) Examples.quiet_read ext)
    as (out & H1 & H2 & H3 & H4 & H5 & _).
  - reflexivity.
  - exact Hext.
  - vm_compute in Hext. injection Hext as <-.
    intros name f [H|[H|[H|[H|[H|[]]]]]]; injection H as <- <-;
      vm_compute; reflexivity.
  - exists out. repeat split; assumption.
Defined.

(** C8.  In simplex mode the node holds the PORE_ADAPTER finder alone, so
    what it pushes is what a worker running that single finder pushes: a
    read goes through one round of PORE_ADAPTER and no other strategy. *)
Theorem simplex_mode_only_pore_adapter `{Ext : Externals}
    (settings : DuplexSplitSettings) (queue : list Message) :
  simplex_mode settings = true ->
  build_split_finders settings
    = [("PORE_ADAPTER"%string, pore_adapter_finder settings)] /\
  DuplexSplitNode settings queue
    = worker_thread settings
        [("PORE_ADAPTER"%string, pore_adapter_finder settings)] queue [] /\
  (forall init_read,
     process_read (build_split_finders settings) init_read
     = (ext <- ExtRead_new init_read ;;
        to_split <- split_round (pore_adapter_finder settings) [ext] [] ;;
        Ok (map (fun subread =>
                   MsgRead (set_parent_read_id (read subread) (read_id init_read)))
                to_split))).
Proof.
  intros Hs.
  assert (Hf : build_split_finders settings
               = [("PORE_ADAPTER"%string, pore_adapter_finder settings)]).
  { unfold build_split_finders. rewrite Hs. reflexivity. }
  split; [exact Hf|]. split.
  - unfold DuplexSplitNode. rewrite Hf. reflexivity.
  - intros init_read. rewrite Hf. unfold process_read.
    destruct (ExtRead_new init_read) as [ext|e]; [|reflexivity].
    cbn [bind split_rounds].
    destruct (split_round (pore_adapter_finder settings) [ext] []); reflexivity.
Qed.

Lemma simplex_mode_only_pore_adapter_witness :
  DuplexSplitNode (Examples.example_settings true true)
    [MsgRead Examples.quiet_read]
  = worker_thread (Examples.example_settings true true)
      [("PORE_ADAPTER"%string,
        pore_adapter_finder (Examples.example_settings true true))]
      [MsgRead Examples.quiet_read] [].
Proof.
  apply (simplex_mode_only_pore_adapter (Ext := Reference.externals)
           (Examples.example_settings true true)). reflexivity.
Defined.

(** ** The cut operation *)

Lemma back_cons {A : Type} (x : A) (l : list A) :
  back (x :: l) = match back l with Some b => Some b | None => Some x end.
Proof.
  destruct (back l) as [b|] eqn:E.
  - apply back_Some in E. rewrite E.
    change (x :: removelast l ++ [b]) with ((x :: removelast l) ++ [b]).
    apply back_snoc.
  - apply back_None in E. subst l. reflexivity.
Qed.

Lemma size_cons {A : Type} (x : A) (l : list A) : size (x :: l) = size l + 1.
Proof. unfold size. simpl List.length. lia. Qed.

Lemma size_nonneg {A : Type} (l : list A) : 0 <= size l.
Proof. unfold size. lia. Qed.

Lemma size_app {A : Type} (l1 l2 : list A) : size (l1 ++ l2) = size l1 + size l2.
Proof. unfold size. rewrite length_app. lia. Qed.

(** The last cumulative sum counts the base boundaries. *)
Lemma cum_sums_boundaries (moves : list Z) (prev i stride : Z) :
  Forall (fun m => m = 0 \/ m = 1) moves ->
  0 <= prev -> prev + size moves < 2 ^ 64 -> moves <> [] ->
  back (cum_sums_from prev moves)
  = Some (prev + size (base_boundaries i moves stride)).
Proof.
  revert prev i. induction moves as [|m rest IH]; intros prev i Hbits Hp Hb Hne.
  - contradiction.
  - inversion Hbits as [|? ? Hm Hrest]; subst.
    rewrite size_cons in Hb. pose proof (size_nonneg rest) as Hr.
    cbn [cum_sums_from]. rewrite wrap64_small by lia. rewrite back_cons.
    assert (Hsz : size (base_boundaries i (m :: rest) stride)
                  = m + size (base_boundaries (i + 1) rest stride)).
    { cbn [base_boundaries]. destruct Hm as [-> | ->].
      - change (0 =? 1) with false. cbv iota. lia.
      - change (1 =? 1) with true. cbv iota. rewrite size_cons. lia. }
    rewrite Hsz. destruct rest as [|m' rest'].
    + simpl. f_equal. unfold size. simpl. lia.
    + rewrite (IH (prev + m) (i + 1)); try assumption; try lia; try discriminate.
      f_equal. lia.
Qed.

Lemma from_below_weaken (lo lo' : Z) (l : list Z) :
  lo' <= lo -> from_below lo l -> from_below lo' l.
Proof. destruct l; simpl; [trivial|]. intros H [H1 H2]. split; [lia|exact H2]. Qed.

Lemma base_boundaries_sorted (moves : list Z) (i stride n : Z) :
  0 <= i -> 0 < stride -> (i + size moves) * stride <= n -> n < 2 ^ 64 ->
  from_below (i * stride) (base_boundaries i moves stride ++ [n]).
Proof.
  revert i. induction moves as [|m rest IH]; intros i Hi Hs Hn Hb.
  - simpl. unfold size in Hn. simpl in Hn. split; [lia|exact I].
  - rewrite size_cons in Hn. pose proof (size_nonneg rest) as Hr.
    assert (Hnext : from_below (i * stride)
                      (base_boundaries (i + 1) rest stride ++ [n])).
    { apply from_below_weaken with (lo := (i + 1) * stride); [nia|].
      apply IH; try lia. }
    cbn [base_boundaries]. destruct (m =? 1); [|exact Hnext].
    rewrite wrap64_small by nia. simpl. split; [lia|exact Hnext].
Qed.

Lemma from_below_bound (l : list Z) (lo : Z) (b : nat) (y : Z) :
  from_below lo l -> nth_error l b = Some y -> lo <= y.
Proof.
  revert lo b. induction l as [|h l IH]; intros lo b H Hb.
  - destruct b; discriminate.
  - destruct H as [H1 H2]. destruct b as [|b].
    + injection Hb as <-. exact H1.
    + simpl in Hb. specialize (IH h b H2 Hb). lia.
Qed.

Lemma from_below_nth (l : list Z) (lo : Z) (a b : nat) (x y : Z) :
  from_below lo l -> (a <= b)%nat ->
  nth_error l a = Some x -> nth_error l b = Some y -> x <= y.
Proof.
  revert lo a b. induction l as [|h l IH]; intros lo a b H Hab Ha Hb.
  - destruct a; discriminate.
  - destruct H as [H1 H2]. destruct a as [|a].
    + injection Ha as <-. destruct b as [|b].
      * injection Hb as <-. lia.
      * simpl in Hb. apply (from_below_bound l h b y H2 Hb).
    + destruct b as [|b]; [lia|]. simpl in Ha, Hb.
      apply (IH h a b H2 (le_S_n _ _ Hab) Ha Hb).
Qed.

Lemma spacers_from_le (lo hi : Z) (spacers : list PosRange) :
  spacers_from lo hi spacers -> lo <= hi.
Proof.
  revert lo. induction spacers as [|r rest IH]; intros lo; simpl; [trivial|].
  intros (H1 & H2 & H3). specialize (IH _ H3). lia.
Qed.






(** What the factory returns, when it returns. *)
Lemma subread_fields `{Ext : Externals} (r child : Read) (q s : PosRange) :
  subread r q s = Ok child ->
  read_id child
  = derive_uuid (read_id r) (to_string (first q) ++ "-" ++ to_string (second q)) /\
  raw_data child = tensor_slice (first s) (second s) (raw_data r) /\
  substr (seq r) (first q) (wrap64 (second q - first q)) = Ok (seq child) /\
  substr (qstring r) (first q) (wrap64 (second q - first q)) = Ok (qstring child) /\
  num_trimmed_samples child = 0 /\
  read_number (attributes child) = UINT32_MAX /\
  parent_read_id child = EmptyString /\
  first s mod wrap64 (model_stride r) = 0.
Proof.
  unfold subread, umod, udiv, assert.
  destruct (wrap64 (model_stride r) =? 0); [discriminate|]. cbn [bind].
  destruct (first s mod wrap64 (model_stride r) =? 0) eqn:Hfirst; [|discriminate].
  cbn [bind]. destruct (_ || _)%bool; [|discriminate]. cbn [bind].
  destruct (samples_to_ms _ _); [|discriminate]. cbn [bind].
  destruct (adjust_time_ms _ _); [|discriminate]. cbn [bind].
  destruct (substr (seq (copy_read r)) _ _) as [new_seq|] eqn:Hseq; [|discriminate].
  cbn [bind].
  destruct (substr (qstring (copy_read r)) _ _) as [new_q|] eqn:Hq; [|discriminate].
  cbn [bind]. destruct (vector_range _ _ _); [|discriminate]. cbn [bind].
  destruct (_ || _)%bool; [|discriminate]. cbn [bind].
  intros [= <-]. cbn. apply Z.eqb_eq in Hfirst. repeat split; assumption.
Qed.

Ltac fold_sig_map r :=
  cbv zeta;
  change (moves_to_map (moves r) (model_stride r) (size (raw_data r))
            (wrap64 (str_size (seq r) + 1)))
    with (seq_to_sig_map r) in *.

Section Cut.
Context `{Ext : Externals}.
Variable r : Read.
Hypothesis model : data_model r.
Hypothesis sums : cumulative_sum_invariant r.

Local Abbreviation sig_map := (seq_to_sig_map r).

Lemma sig_map_size : size sig_map = str_size (seq r) + 1.
Proof.
  destruct model as (Hs & Hbits & Hlen & Hn).
  pose proof sums as Hsum. unfold cumulative_sum_invariant, move_cum_sums in Hsum.
  pose proof (size_nonneg (moves r)) as Hm.
  unfold seq_to_sig_map, moves_to_map. rewrite size_app.
  destruct (moves r) as [|m rest]; [discriminate|].
  assert (Hfit : 0 + size (m :: rest) < 2 ^ 64) by nia.
  rewrite (cum_sums_boundaries (m :: rest) 0 0 (model_stride r) Hbits
             (Z.le_refl 0) Hfit ltac:(discriminate)) in Hsum.
  assert (E : forall a b : Z, Some a = Some b -> a = b)
    by (intros a b [=]; assumption).
  apply E in Hsum. unfold size at 2. simpl List.length. lia.
Qed.

Lemma sig_map_sorted : from_below 0 sig_map.
Proof.
  destruct model as (Hs & Hbits & Hlen & Hn).
  unfold seq_to_sig_map, moves_to_map.
  change 0 with (0 * model_stride r).
  apply base_boundaries_sorted; lia.
Qed.

Lemma seq_to_sig_index (q : Z) :
  0 <= q <= str_size (seq r) -> index sig_map q = Ok (seq_to_sig r q).
Proof.
  intros Hq. destruct (index_in_range sig_map q) as [s Hs].
  - rewrite sig_map_size. lia.
  - unfold seq_to_sig. rewrite Hs. reflexivity.
Qed.

Lemma seq_to_sig_mono (a b : Z) :
  0 <= a -> a <= b -> b <= str_size (seq r) ->
  seq_to_sig r a <= seq_to_sig r b.
Proof.
  intros Ha Hab Hb.
  pose proof (seq_to_sig_index a ltac:(lia)) as H1.
  pose proof (seq_to_sig_index b ltac:(lia)) as H2.
  apply index_Ok in H1, H2. destruct H1 as [_ H1]. destruct H2 as [_ H2].
  apply (from_below_nth sig_map 0 (Z.to_nat a) (Z.to_nat b));
    [apply sig_map_sorted|lia|exact H1|exact H2].
Qed.

Lemma seq_to_sig_end : seq_to_sig r (str_size (seq r)) = size (raw_data r).
Proof.
  pose proof (seq_to_sig_index (str_size (seq r))) as H.
  unfold str_size in H at 1 2. specialize (H ltac:(unfold str_size; lia)).
  apply index_Ok in H. destruct H as [_ H].
  pose proof sig_map_size as Hsz. unfold seq_to_sig_map, moves_to_map in *.
  rewrite size_app in Hsz. unfold size at 2 in Hsz. simpl List.length in Hsz.
  rewrite nth_error_app2 in H by (unfold size in Hsz; lia).
  replace (Z.to_nat (str_size (seq r))
           - List.length (base_boundaries 0 (moves r) (model_stride r)))%nat
    with 0%nat in H by (unfold size in Hsz; lia).
  simpl in H. injection H as H. symmetry. exact H.
Qed.


Lemma split_loop_record_acc (spacers : list PosRange) (q s : Z)
    (acc : list (PosRange * PosRange)) :
  split_loop record_ranges r sig_map spacers q s acc
  = (l <- split_loop record_ranges r sig_map spacers q s [] ;; Ok (acc ++ l)).
Proof.
  revert q s acc. induction spacers as [|sp rest IH]; intros q s acc.
  - cbn [split_loop]. destruct (index sig_map (str_size (seq r))); [|reflexivity].
    cbn [bind]. destruct (assert _); reflexivity.
  - cbn [split_loop]. destruct (index sig_map (first sp)); [|reflexivity].
    cbn [bind record_ranges].
    destruct (index sig_map (second sp)); [|reflexivity]. cbn [bind].
    rewrite IH. rewrite (IH _ _ ([] ++ _)).
    destruct (split_loop record_ranges r sig_map rest (second sp) a0 []);
      [|reflexivity].
    cbn [bind]. rewrite <- !app_assoc. reflexivity.
Qed.

(** The ranges [split] passes to the factory are the child ranges with
    their images under the map. *)
Lemma split_loop_record (spacers : list PosRange) (q : Z) :
  0 <= q -> spacers_from q (str_size (seq r)) spacers ->
  split_loop record_ranges r sig_map spacers q (seq_to_sig r q) []
  = Ok (map (fun c => (c, image (seq_to_sig r) c))
            (child_ranges spacers q (str_size (seq r)))).
Proof.
  revert q. induction spacers as [|sp rest IH]; intros q Hq Hsp.
  - simpl in Hsp. cbn [split_loop child_ranges map].
    rewrite seq_to_sig_index by lia. cbn [bind].
    rewrite seq_to_sig_end, Z.eqb_refl. cbn [assert bind record_ranges].
    unfold image, first, second. cbn [fst snd]. rewrite seq_to_sig_end.
    reflexivity.
  - destruct Hsp as (H1 & H2 & H3). pose proof (spacers_from_le _ _ _ H3) as H4.
    cbn [split_loop child_ranges map].
    rewrite seq_to_sig_index by lia. cbn [bind record_ranges].
    rewrite seq_to_sig_index by lia. cbn [bind].
    rewrite split_loop_record_acc, IH by (assumption || lia). reflexivity.
Qed.

(** Whatever the factory, the subreads are made from those ranges. *)
Lemma split_loop_factory {X : Type}
    (factory : Read -> PosRange -> PosRange -> result X)
    (spacers : list PosRange) (q s : Z) (acc out : list X) :
  split_loop factory r sig_map spacers q s acc = Ok out ->
  exists ranges made,
    split_loop record_ranges r sig_map spacers q s [] = Ok ranges /\
    mapM (fun qs => factory r (fst qs) (snd qs)) ranges = Ok made /\
    out = acc ++ made.
Proof.
  revert q s acc. induction spacers as [|sp rest IH]; intros q s acc.
  - cbn [split_loop]. destruct (index sig_map (str_size (seq r))); [|discriminate].
    cbn [bind]. destruct (assert _); [|discriminate]. cbn [bind record_ranges].
    destruct (factory r (q, str_size (seq r)) (s, size (raw_data r))) as [x|e] eqn:Hx;
      [|discriminate].
    cbn [bind]. intros [= <-]. eexists. eexists. split; [reflexivity|].
    cbn [mapM fst snd app]. rewrite Hx. cbn [bind mapM]. split; reflexivity.
  - cbn [split_loop]. destruct (index sig_map (first sp)) as [e1|]; [|discriminate].
    cbn [bind record_ranges].
    destruct (factory r (q, first sp) (s, e1)) as [x|e] eqn:Hx; [|discriminate].
    cbn [bind]. destruct (index sig_map (second sp)) as [s'|]; [|discriminate].
    cbn [bind]. intros H. destruct (IH _ _ _ H) as (ranges & made & Hr & Hm & ->).
    rewrite split_loop_record_acc, Hr. cbn [bind].
    eexists. eexists. split; [reflexivity|]. cbn [app mapM fst snd].
    rewrite Hx, Hm. cbn [bind]. split; [reflexivity|].
    rewrite <- app_assoc. reflexivity.
Qed.

End Cut.






Lemma base_boundaries_multiples (moves : list Z) (i stride : Z) :
  0 <= i -> 0 < stride -> (i + size moves) * stride < 2 ^ 64 ->
  Forall (fun b => b mod stride = 0) (base_boundaries i moves stride).
Proof.
  revert i. induction moves as [|m rest IH]; intros i Hi Hs Hb; [constructor|].
  rewrite size_cons in Hb. pose proof (size_nonneg rest) as Hr.
  assert (Hrest : Forall (fun b => b mod stride = 0)
                    (base_boundaries (i + 1) rest stride)).
  { apply IH; try lia. }
  cbn [base_boundaries]. destruct (m =? 1); [|exact Hrest].
  constructor; [|exact Hrest].
  rewrite wrap64_small by nia. apply Z.mod_mul. lia.
Qed.

Lemma child_ranges_bounds (spacers : list PosRange) (q len : Z) :
  0 <= q -> spacers_from q len spacers ->
  Forall (fun c => 0 <= first c /\ first c <= second c /\ second c <= len)
    (child_ranges spacers q len).
Proof.
  revert q. induction spacers as [|sp rest IH]; intros q Hq Hsp.
  - simpl in *. constructor; [|constructor]. unfold first, second; simpl. lia.
  - destruct Hsp as (H1 & H2 & H3). pose proof (spacers_from_le _ _ _ H3) as H4.
    cbn [child_ranges]. constructor.
    + unfold first at 1 2, second at 1 2; simpl. lia.
    + apply IH; [lia | exact H3].
Qed.

Section Preconditions.
Context `{Ext : Externals}.
Variable r : Read.
Hypothesis model : data_model r.
Hypothesis sums : cumulative_sum_invariant r.

(** Before the end of the sequence every entry of the map is a multiple of
    the stride. *)
Lemma seq_to_sig_aligned (q : Z) :
  0 <= q < str_size (seq r) -> seq_to_sig r q mod model_stride r = 0.
Proof.
  intros Hq. pose proof (seq_to_sig_index r model sums q ltac:(lia)) as H.
  apply index_Ok in H. destruct H as [_ H].
  pose proof (sig_map_size r model sums) as Hsz.
  destruct model as (Hs & Hbits & Hlen & Hn).
  unfold seq_to_sig_map, moves_to_map in *. rewrite size_app in Hsz.
  unfold size at 2 in Hsz. simpl List.length in Hsz.
  rewrite nth_error_app1 in H by (unfold size in Hsz; lia).
  apply nth_error_In in H.
  pose proof (base_boundaries_multiples (moves r) 0 (model_stride r)
                (Z.le_refl 0) Hs ltac:(lia)) as Hall.
  rewrite Forall_forall in Hall. apply Hall. exact H.
Qed.

(** X26.  Every call [split] makes meets the second precondition of the
    factory, and the first one as soon as the child starts before the end of
    the sequence. *)
Lemma split_preconditions (spacers : list PosRange) :
  spacers_from 0 (str_size (seq r)) spacers ->
  exists ranges,
    split_ranges r spacers = Ok ranges /\
    Forall (fun qs =>
              (first (fst qs) < str_size (seq r) -> first_is_aligned r (snd qs)) /\
              second_is_aligned_or_end r (fst qs) (snd qs))
           ranges.
Proof.
  intros Hsp.
  assert (HL : 0 <= str_size (seq r)) by (unfold str_size; lia).
  pose proof (seq_to_sig_index r model sums 0 ltac:(lia)) as H0.
  pose proof (split_loop_record r model sums spacers 0 (Z.le_refl 0) Hsp) as Hrec.
  eexists. split.
  - unfold split_ranges, cut. fold_sig_map r. rewrite H0. cbn [bind]. exact Hrec.
  - apply Forall_map.
    eapply Forall_impl; [|apply (child_ranges_bounds spacers 0 _ (Z.le_refl 0) Hsp)].
    intros c (Hc1 & Hc2 & Hc3). cbn [fst snd]. split.
    + intros Hlt. unfold first_is_aligned.
      change (first (image (seq_to_sig r) c)) with (seq_to_sig r (first c)).
      apply seq_to_sig_aligned. lia.
    + unfold second_is_aligned_or_end.
      change (second (image (seq_to_sig r) c)) with (seq_to_sig r (second c)).
      destruct (Z.eq_dec (second c) (str_size (seq r))) as [He|Hne].
      * right. split; [|exact He]. rewrite He. apply seq_to_sig_end; assumption.
      * left. apply seq_to_sig_aligned. lia.
Qed.

End Preconditions.

Lemma split_preconditions_witness :
  let r := Examples.six_base_read in
  exists ranges,
    split_ranges r [(1, 2); (4, 5)] = Ok ranges /\
    Forall (fun qs =>
              (first (fst qs) < str_size (seq r) -> first_is_aligned r (snd qs)) /\
              second_is_aligned_or_end r (fst qs) (snd qs))
           ranges.
Proof.
  intros r.
  apply (split_preconditions (Ext := Reference.externals) r).
  - unfold data_model, size; simpl. repeat split; try lia.
    repeat (apply Forall_cons; [auto|]). apply Forall_nil.
  - reflexivity.
  - unfold first, second, str_size; simpl. lia.
Defined.

(** C10, on a read whose signal has one sample more than its two strides
    and a spacer that ends with the sequence: the last subread is asked for
    at signal [5, 5), which is not a multiple of the stride, and the first
    assertion of the factory fails.  The node meets the same assertion on a
    read whose pore signal and adapter reach the end of the sequence. *)
Theorem split_ragged_tail_assertion :
  let r := Examples.ragged_read in
  let spacers := [(1, 2)] in
  data_model r /\ cumulative_sum_invariant r /\
  spacers_from 0 (str_size (seq r)) spacers /\
  split_ranges r spacers = Ok [((0, 1), (0, 2)); ((2, 2), (5, 5))] /\
  (exists child, subread r (0, 1) (0, 2) = Ok child) /\
  5 mod model_stride r <> 0 /\
  subread r (2, 2) (5, 5) = Err AssertionFailed /\
  split r spacers = Err AssertionFailed /\
  DuplexSplitNode (Examples.example_settings true false)
    [MsgRead Examples.ragged_pore_read] = ([], Some AssertionFailed).
Proof.
  cbv zeta.
  split; [|split; [|split; [|split; [|split; [|split; [|split; [|split]]]]]]].
  - unfold data_model, size; simpl. repeat split; try lia.
    repeat (apply Forall_cons; [auto|]). apply Forall_nil.
  - vm_compute. reflexivity.
  - unfold first, second, str_size; simpl. lia.
  - vm_compute. reflexivity.
  - destruct (subread Examples.ragged_read (0, 1) (0, 2)) as [child|e] eqn:Hs;
      [|vm_compute in Hs; discriminate].
    exists child. reflexivity.
  - vm_compute. discriminate.
  - vm_compute. reflexivity.
  - vm_compute. reflexivity.
  - vm_compute. reflexivity.
Qed.

(** ** Pore regions *)

Lemma cum_sums_sorted (moves : list Z) (prev : Z) :
  Forall (fun m => m = 0 \/ m = 1) moves ->
  0 <= prev -> prev + size moves < 2 ^ 64 ->
  from_below prev (cum_sums_from prev moves).
Proof.
  revert prev. induction moves as [|m rest IH]; intros prev Hbits Hp Hb; [exact I|].
  inversion Hbits as [|? ? Hm Hrest]; subst.
  rewrite size_cons in Hb. pose proof (size_nonneg rest) as Hr.
  cbn [cum_sums_from from_below]. rewrite wrap64_small by lia.
  split; [lia|]. apply IH; [exact Hrest|lia|lia].
Qed.

Lemma cum_sums_size (moves : list Z) (prev : Z) :
  size (cum_sums_from prev moves) = size moves.
Proof.
  revert prev. induction moves as [|m rest IH]; intros prev; [reflexivity|].
  cbn [cum_sums_from]. rewrite !size_cons, IH. reflexivity.
Qed.

Lemma back_nth {A : Type} (l : list A) (x : A) :
  back l = Some x -> nth_error l (List.length l - 1) = Some x.
Proof.
  intros H. apply back_Some in H. rewrite H at 1.
  rewrite nth_error_app2.
  - rewrite H at 1. rewrite length_app. simpl List.length.
    replace (List.length (removelast l) + 1 - 1 - List.length (removelast l))%nat
      with 0%nat by lia.
    reflexivity.
  - rewrite H at 2. rewrite length_app. simpl. lia.
Qed.

Lemma regions_after (x : PosRange) (rest : list PosRange) :
  Forall (fun y => first y < second y) (x :: rest) ->
  adjacent (fun a b => second a <= first b) (x :: rest) ->
  forall y, In y rest -> second x <= first y.
Proof.
  revert x. induction rest as [|z rest IH]; intros x Hwf Hadj y Hy.
  - destruct Hy.
  - destruct Hadj as [H1 H2]. inversion Hwf as [|? ? Hx Hwf']; subst.
    destruct Hy as [<-|Hy]; [exact H1|].
    specialize (IH z Hwf' H2 y Hy).
    inversion Hwf' as [|? ? Hz _]; subst. lia.
Qed.

Section PoreRegions.
Context `{Ext : Externals}.
Variable settings : DuplexSplitSettings.
Variable r : Read.
Variable ext : ExtRead.
Hypothesis model : data_model r.
Hypothesis wrapped : ExtRead_new r = Ok ext.

Lemma ext_fields :
  read ext = r /\ data_as_float32 ext = raw_data r /\
  move_sums ext = move_cum_sums (moves r) /\ cumulative_sum_invariant r.
Proof.
  unfold ExtRead_new in wrapped. unfold cumulative_sum_invariant.
  destruct (back (move_cum_sums (moves r))) as [s|]; [|discriminate].
  unfold assert in wrapped. destruct (s =? str_size (seq r)) eqn:E;
    [|discriminate].
  apply Z.eqb_eq in E. subst s. cbn [bind] in wrapped.
  injection wrapped as <-. cbn. repeat split; reflexivity.
Qed.

Lemma moves_fit : 0 < size (moves r) /\ size (moves r) < 2 ^ 64
                  /\ model_stride r < 2 ^ 64.
Proof.
  destruct ext_fields as (_ & _ & _ & Hs).
  destruct model as (Hst & Hbits & Hlen & Hn).
  unfold cumulative_sum_invariant in Hs.
  assert (0 < size (moves r)).
  { destruct (moves r); [discriminate|]. rewrite size_cons.
    pose proof (size_nonneg l). lia. }
  split; [assumption|]. split; nia.
Qed.

(** The cumulative sums do not decrease and stay within the sequence. *)
Lemma move_sums_bounds (i j x y : Z) :
  i <= j ->
  index (move_sums ext) i = Ok x -> index (move_sums ext) j = Ok y ->
  0 <= x /\ x <= y /\ y <= str_size (seq r).
Proof.
  intros Hij Hx Hy.
  destruct ext_fields as (_ & _ & Hms & Hs). rewrite Hms in *.
  destruct model as (Hst & Hbits & Hlen & Hn).
  destruct moves_fit as (Hm0 & Hm1 & _).
  pose proof (cum_sums_sorted (moves r) 0 Hbits (Z.le_refl 0) ltac:(lia)) as Hsorted.
  fold (move_cum_sums (moves r)) in Hsorted.
  pose proof (index_lt_size _ _ _ Hy) as Hj.
  apply index_Ok in Hx, Hy. destruct Hx as [Hi0 Hx]. destruct Hy as [Hj0 Hy].
  unfold cumulative_sum_invariant in Hs. apply back_nth in Hs.
  split; [apply (from_below_bound _ 0 _ _ Hsorted Hx)|]. split.
  - apply (from_below_nth _ 0 (Z.to_nat i) (Z.to_nat j) x y Hsorted); [lia|exact Hx|exact Hy].
  - assert (Hlast : (Z.to_nat j <= List.length (move_cum_sums (moves r)) - 1)%nat)
      by (unfold size in Hj; lia).
    exact (from_below_nth _ 0 _ _ _ _ Hsorted Hlast Hy Hs).
Qed.

(** One detected interval: the step succeeds, and either drops the interval
    or appends a range inside the sequence that starts at or after [bound - 1],
    [bound] being a lower bound of the cumulative sum at the interval. *)
Lemma pore_region_step_spec (acc : PosRanges) (a b : Z) :
  0 <= a -> a < b ->
  exists acc',
    pore_region_step ext acc (a, b) = Ok acc' /\
    (acc' = acc \/
     exists x, acc' = acc ++ [x] /\ region_in_seq r x /\
               index (move_sums ext) (a / model_stride r) = Ok (first x + 1) /\
               index (move_sums ext) (b / model_stride r) = Ok (second x)).
Proof.
  intros Ha Hab. destruct ext_fields as (Hread & _ & _ & _).
  destruct model as (Hst & _). destruct moves_fit as (_ & _ & Hsw).
  unfold pore_region_step, udiv. rewrite Hread.
  rewrite wrap64_small by lia.
  replace (model_stride r =? 0) with false by (symmetry; apply Z.eqb_neq; lia).
  cbn [bind first second fst snd].
  set (ms := a / model_stride r). set (me := b / model_stride r).
  assert (Hle : ms <= me) by (apply Z.div_le_mono; lia).
  assert (Hms0 : 0 <= ms) by (apply Z.div_pos; lia).
  unfold assert.
  replace (me >=? ms) with true by (symmetry; apply Z.geb_le; lia).
  cbn [bind].
  destruct ((ms >=? size (move_sums ext)) || (me >=? size (move_sums ext))) eqn:Hout.
  { eexists. split; [reflexivity | left; reflexivity]. }
  apply orb_false_elim in Hout. destruct Hout as [Ho1 Ho2].
  rewrite Z.geb_leb in Ho1, Ho2. apply Z.leb_gt in Ho1, Ho2.
  destruct (index_in_range (move_sums ext) ms ltac:(lia)) as [s1 Hs1].
  destruct (index_in_range (move_sums ext) me ltac:(lia)) as [s2 Hs2].
  rewrite Hs1. cbn [bind].
  destruct (move_sums_bounds ms me s1 s2 Hle Hs1 Hs2) as (H0 & H12 & HL).
  destruct (s1 =? 0) eqn:Hz.
  { eexists. split; [reflexivity | left; reflexivity]. }
  apply Z.eqb_neq in Hz.
  assert (HLw : str_size (seq r) < 2 ^ 64).
  { destruct ext_fields as (_ & _ & Hm & Hs). rewrite Hm in Hs2.
    pose proof (index_lt_size _ _ _ Hs2) as Hrange.
    unfold move_cum_sums in Hrange. rewrite cum_sums_size in Hrange.
    destruct moves_fit as (_ & Hfit & _).
    unfold cumulative_sum_invariant, move_cum_sums in Hs.
    destruct model as (_ & Hbits & _).
    rewrite (cum_sums_boundaries (moves r) 0 0 (model_stride r) Hbits
               (Z.le_refl 0) ltac:(lia)) in Hs.
    - assert (E : forall u v : Z, Some u = Some v -> u = v)
        by (intros u v [=]; assumption).
      apply E in Hs. rewrite <- Hs.
      assert (Hcount : forall mv i,
                 size (base_boundaries i mv (model_stride r)) <= size mv).
      { induction mv as [|m mv IH]; intros i; [reflexivity|].
        cbn [base_boundaries]. destruct (m =? 1); rewrite ?size_cons;
          specialize (IH (i + 1)); lia. }
      specialize (Hcount (moves r) 0). lia.
    - intros Hnil. rewrite Hnil in Hrange. unfold size in Hrange. simpl in Hrange.
      lia. }
  rewrite wrap64_small by lia. rewrite Hs2. cbn [bind].
  replace (s2 >? s1 - 1) with true by (symmetry; apply Z.gtb_lt; lia).
  cbn [bind]. eexists. split; [reflexivity|]. right.
  exists (s1 - 1, s2). split; [reflexivity|].
  unfold region_in_seq, first, second. cbn [fst snd].
  split; [lia|]. split; [f_equal; lia | reflexivity].
Qed.

Lemma pore_region_loop_spec (regions : list PosRange) (acc : PosRanges) :
  Forall (fun y => 0 <= first y /\ first y < second y) regions ->
  adjacent (fun a b => second a <= first b) regions ->
  Forall (region_in_seq r) acc ->
  adjacent near_disjoint acc ->
  (forall x y s, back acc = Some x -> In y regions ->
     index (move_sums ext) (first y / model_stride r) = Ok s -> second x <= s) ->
  exists l,
    pore_region_loop ext regions acc = Ok l /\
    Forall (region_in_seq r) l /\ adjacent near_disjoint l.
Proof.
  revert acc. induction regions as [|[a b] rest IH]; intros acc Hwf Hsorted Hin Hadj Hback.
  - exists acc. split; [reflexivity|]. split; assumption.
  - inversion Hwf as [|? ? [Ha Hab] Hwf']; subst.
    unfold first, second in Ha, Hab. cbn [fst snd] in Ha, Hab.
    assert (Hsorted' : adjacent (fun a b => second a <= first b) rest).
    { destruct rest; [exact I | apply Hsorted]. }
    destruct (pore_region_step_spec acc a b Ha Hab)
      as (acc' & Hstep & [-> | (x & -> & Hx & Hsa & Hsb)]);
      cbn [pore_region_loop]; rewrite Hstep; cbn [bind].
    + apply IH; try assumption.
      intros x y s Hbk Hy. apply Hback; [exact Hbk | right; exact Hy].
    + apply IH; try assumption.
      * apply Forall_app. split; [exact Hin | constructor; [exact Hx | constructor]].
      * apply adjacent_snoc. split; [exact Hadj|].
        intros bk Hbk.
        assert (Hb1 : second bk <= first x + 1).
        { apply (Hback bk (a, b) _ Hbk); [left; reflexivity | exact Hsa]. }
        assert (Hbk_in : region_in_seq r bk).
        { rewrite Forall_forall in Hin. apply Hin. rewrite (back_Some _ _ Hbk).
          apply in_or_app. right. left. reflexivity. }
        destruct Hbk_in as (_ & Hbk2 & _). destruct Hx as (_ & Hx2 & _).
        unfold near_disjoint. lia.
      * intros x' y s Hbk Hy Hs. rewrite back_snoc in Hbk. injection Hbk as <-.
        pose proof (regions_after (a, b) rest
                      ltac:(eapply Forall_impl; [|exact Hwf]; intros ? [? ?]; assumption)
                      Hsorted y Hy) as Hby.
        unfold second at 1 in Hby. cbn [snd] in Hby.
        destruct model as (Hst & _).
        assert (Hdiv : b / model_stride r <= first y / model_stride r)
          by (apply Z.div_le_mono; lia).
        destruct (move_sums_bounds _ _ _ _ Hdiv Hsb Hs) as (_ & Hle & _).
        exact Hle.
Qed.

(** What holds of the candidate regions: the enumeration returns, every
    region is a non-empty range of the sequence, they are ordered by their
    start, and two successive regions share at most one position. *)
Lemma possible_pore_regions_shape (pore_thr : float) :
  0 <= pore_cl_dist settings -> 0 <= expect_pore_prefix settings ->
  size (raw_data r) + pore_cl_dist settings < 2 ^ 64 ->
  exists l,
    possible_pore_regions settings ext pore_thr = Ok l /\
    Forall (region_in_seq r) l /\ adjacent near_disjoint l.
Proof.
  intros HD HP Hw. destruct ext_fields as (Hread & Hdata & _ & _).
  destruct moves_fit as (Hm0 & _ & _).
  assert (HN : 0 < size (raw_data r)) by (destruct model as (? & _ & ? & _); nia).
  unfold possible_pore_regions. rewrite Hdata, Hread.
  destruct (detect_pore_signal_clusters (raw_data r)
              (fdiv (fsub pore_thr (shift r)) (scale r))
              (pore_cl_dist settings) (expect_pore_prefix settings) HD HP HN Hw)
    as (regions & Hdet & Hall & Hsep & _).
  rewrite Hdet. cbn [bind].
  apply pore_region_loop_spec.
  - eapply Forall_impl; [|exact Hall].
    intros y (H1 & H2 & _). split; lia.
  - revert Hsep. apply adjacent_impl. intros a b _ H. lia.
  - constructor.
  - exact I.
  - intros x y s Hbk. discriminate.
Qed.

End PoreRegions.

(** C9, on a read with two bursts of pore signal between which no base is
    emitted: both bursts map to the sequence range [0, 1), PORE_ADAPTER
    keeps both, and [split] on this list leaves the move table. *)
Theorem pore_adapter_overlapping_spacers :
  let r := Examples.stalled_read in
  let settings := Examples.example_settings true false in
  exists ext,
    ExtRead_new r = Ok ext /\
    possible_pore_regions settings ext (pore_thr settings) = Ok [(0, 1); (0, 1)] /\
    pore_adapter_finder settings ext = Ok [(0, 1); (0, 1)] /\
    ~ spacers_from 0 (str_size (seq r)) [(0, 1); (0, 1)] /\
    split r [(0, 1); (0, 1)] = Err UndefinedBehaviour /\
    DuplexSplitNode settings [MsgRead r] = ([], Some UndefinedBehaviour).
Proof.
  cbv zeta.
  assert (Hext : exists ext,
            ExtRead_new (Ext := Reference.externals) Examples.stalled_read = Ok ext).
  { destruct (ExtRead_new (Ext := Reference.externals) Examples.stalled_read)
      as [ext|e] eqn:H; [|vm_compute in H; discriminate].
    exists ext. reflexivity. }
  destruct Hext as [ext Hext]. exists ext. split; [exact Hext|].
  vm_compute in Hext. injection Hext as <-.
  split; [vm_compute; reflexivity|]. split; [vm_compute; reflexivity|].
  split; [|split; vm_compute; reflexivity].
  unfold first, second; simpl. lia.
Qed.
(** ** More on timestamps *)

Lemma substring_all (s : string) (n : nat) :
  substring (String.length s) n s = EmptyString.
Proof. induction s as [|c s IH]; [destruct n; reflexivity | exact IH]. Qed.

(** X1.  Parsing undoes formatting: for every millisecond count [m] from the
    epoch to the end of the year 9999, the string that
    [get_string_timestamp_from_unix_time] prints for [m] is read back as [m]
    by [get_unix_time_from_string_timestamp]. *)
Theorem timestamp_parse_after_format (m : Z) :
  0 <= m < Y10K * 1000 ->
  get_unix_time_from_string_timestamp (get_string_timestamp_from_unix_time m)
  = Ok m.
Proof. intros Hm. apply parse_format. exact Hm. Qed.

Lemma timestamp_parse_after_format_witness :
  get_unix_time_from_string_timestamp
    (get_string_timestamp_from_unix_time 1672531202045) = Ok 1672531202045.
Proof. apply timestamp_parse_after_format. unfold Y10K. lia. Defined.

(** X2.  [adjust_time_ms] adds its offset: on the timestamp printed for [m]
    it prints the timestamp of [m + offset_ms], and two adjustments in a row
    are the adjustment by the sum of the offsets. *)
Theorem adjust_time_ms_adds (m a b : Z) :
  0 <= m -> 0 <= a -> 0 <= b -> m + a + b < Y10K * 1000 ->
  adjust_time_ms (get_string_timestamp_from_unix_time m) a
  = Ok (get_string_timestamp_from_unix_time (m + a)) /\
  (t <- adjust_time_ms (get_string_timestamp_from_unix_time m) a ;;
   adjust_time_ms t b)
  = adjust_time_ms (get_string_timestamp_from_unix_time m) (wrap64 (a + b)).
Proof.
  intros Hm Ha Hb Hsum. unfold Y10K in Hsum.
  assert (Hadd : forall x off, 0 <= x -> 0 <= off -> x + off < Y10K * 1000 ->
            adjust_time_ms (get_string_timestamp_from_unix_time x) off
            = Ok (get_string_timestamp_from_unix_time (x + off))).
  { intros x off Hx Hoff Hlt. unfold Y10K in Hlt. unfold adjust_time_ms.
    rewrite parse_format by (unfold Y10K; lia). cbn [bind].
    rewrite to_int64_small by lia. reflexivity. }
  split; [apply Hadd; unfold Y10K; lia|].
  rewrite Hadd by (unfold Y10K; lia). cbn [bind].
  rewrite wrap64_small by lia.
  rewrite !Hadd by (unfold Y10K; lia). f_equal. f_equal. lia.
Qed.

Lemma adjust_time_ms_adds_witness :
  adjust_time_ms (get_string_timestamp_from_unix_time 1672531200123) 2000
  = Ok (get_string_timestamp_from_unix_time (1672531200123 + 2000)) /\
  (t <- adjust_time_ms (get_string_timestamp_from_unix_time 1672531200123) 2000 ;;
   adjust_time_ms t 500)
  = adjust_time_ms (get_string_timestamp_from_unix_time 1672531200123)
      (wrap64 (2000 + 500)).
Proof. apply adjust_time_ms_adds; unfold Y10K; lia. Defined.

Lemma three_digits_length (ms : Z) : String.length (three_digits ms) = 3%nat.
Proof. reflexivity. Qed.

Lemma stoi_three_digits (ms : Z) :
  0 <= ms < 1000 -> stoi (three_digits ms) = Ok ms.
Proof.
  intros H. assert (Hc : three_digits_read ms = true).
  { apply (range_check three_digits_read 1000); [vm_compute; reflexivity | exact H]. }
  unfold three_digits_read in Hc.
  destruct (stoi (three_digits ms)) as [v|e]; [|discriminate].
  apply Z.eqb_eq in Hc. subst v. reflexivity.
Qed.

Lemma to_string_three_digits (ms : Z) :
  0 <= ms < 1000 ->
  (100 <= ms -> to_string ms = three_digits ms) /\
  (ms < 100 -> (String.length (to_string ms) < 3)%nat).
Proof.
  intros H. assert (Hc : to_string_pads ms = true).
  { apply (range_check to_string_pads 1000); [vm_compute; reflexivity | exact H]. }
  unfold to_string_pads in Hc. split; intros Hms.
  - replace (100 <=? ms) with true in Hc by (symmetry; apply Z.leb_le; lia).
    apply String.eqb_eq. exact Hc.
  - replace (100 <=? ms) with false in Hc by (symmetry; apply Z.leb_gt; lia).
    apply Nat.ltb_lt. exact Hc.
Qed.

(** X3.  The parser reads the canonical form [YYYY-MM-DDTHH:MM:SS.mmm+00:00]
    correctly, zero-padded milliseconds included; the formatter prints that
    form back exactly when the milliseconds are 100 or more, and a shorter
    string otherwise. *)
Theorem timestamp_canonical_form (s ms : Z) :
  0 <= s < Y10K -> 0 <= ms < 1000 ->
  get_unix_time_from_string_timestamp (canonical_timestamp s ms)
  = Ok (s * 1000 + ms) /\
  (100 <= ms ->
   get_string_timestamp_from_unix_time (s * 1000 + ms) = canonical_timestamp s ms) /\
  (ms < 100 ->
   (String.length (get_string_timestamp_from_unix_time (s * 1000 + ms))
    < String.length (canonical_timestamp s ms))%nat).
Proof.
  intros Hs Hms. pose proof (gmtime_in_range s Hs) as Hrange. unfold Y10K in Hs.
  assert (Hq : (s * 1000 + ms) / 1000 = s) by zlia.
  assert (Hr : (s * 1000 + ms) mod 1000 = ms) by zlia.
  split; [|split].
  - unfold get_unix_time_from_string_timestamp, canonical_timestamp.
    rewrite strptime_strftime by exact Hrange. rewrite mktime_gmtime.
    assert (Hsub : substr (strftime (gmtime s) ++ three_digits ms ++ "+00:00") 20
                     (wrap64 (str_size (strftime (gmtime s) ++ three_digits ms
                                        ++ "+00:00") - 26))
                   = Ok (three_digits ms)).
    { unfold substr, str_size.
      rewrite !length_append, strftime_length, three_digits_length by exact Hrange.
      cbn [String.length Nat.add]. change (Z.of_nat 29 - 26) with 3.
      rewrite wrap64_small by lia.
      change (20 >? Z.of_nat 29) with false. cbv iota.
      change (Z.to_nat (Z.min 3 (Z.of_nat 29 - 20))) with 3%nat.
      f_equal.
      replace (Z.to_nat 20) with (String.length (strftime (gmtime s)))
        by (rewrite strftime_length by exact Hrange; reflexivity).
      rewrite substring_skip.
      rewrite <- (three_digits_length ms) at 1. apply substring_prefix. }
    rewrite Hsub. cbn [bind]. rewrite stoi_three_digits by exact Hms. cbn [bind].
    f_equal. apply to_int64_small. lia.
  - intros H100. unfold get_string_timestamp_from_unix_time, canonical_timestamp.
    cbv zeta. rewrite Z.quot_div_nonneg, Z.rem_mod_nonneg by lia.
    rewrite Hq, Hr, append_assoc.
    destruct (to_string_three_digits ms Hms) as [Heq _].
    rewrite (Heq H100). reflexivity.
  - intros H100. unfold get_string_timestamp_from_unix_time, canonical_timestamp.
    cbv zeta. rewrite Z.quot_div_nonneg, Z.rem_mod_nonneg by lia.
    rewrite Hq, Hr, !length_append, three_digits_length.
    destruct (to_string_three_digits ms Hms) as [_ Hlen]. specialize (Hlen H100).
    lia.
Qed.

Lemma timestamp_canonical_form_witness :
  get_unix_time_from_string_timestamp "2023-01-01T00:00:02.045+00:00"
  = Ok (1672531202 * 1000 + 45) /\
  (String.length (get_string_timestamp_from_unix_time (1672531202 * 1000 + 45))
   < String.length "2023-01-01T00:00:02.045+00:00")%nat.
Proof.
  destruct (timestamp_canonical_form 1672531202 45) as (H1 & _ & H3);
    [unfold Y10K; lia | lia |].
  split; [exact H1 | apply H3; lia].
Defined.

(** X4.  A timestamp of 20 characters or fewer has no milliseconds to read:
    [substr] or [stoi] throws, and so does [adjust_time_ms]. *)
Theorem timestamp_too_short (time_stamp : string) (offset_ms : Z) :
  str_size time_stamp <= 20 ->
  get_unix_time_from_string_timestamp time_stamp = Err StdException /\
  adjust_time_ms time_stamp offset_ms = Err StdException.
Proof.
  intros Hlen.
  assert (H : get_unix_time_from_string_timestamp time_stamp = Err StdException).
  { unfold get_unix_time_from_string_timestamp, substr.
    destruct (20 >? str_size time_stamp) eqn:Hgt; [reflexivity|].
    rewrite Z.gtb_ltb in Hgt. apply Z.ltb_ge in Hgt.
    assert (He : str_size time_stamp = 20) by lia.
    replace (Z.to_nat 20) with (String.length time_stamp)
      by (unfold str_size in He; lia).
    rewrite substring_all. reflexivity. }
  split; [exact H|]. unfold adjust_time_ms. rewrite H. reflexivity.
Qed.

Lemma timestamp_too_short_witness :
  get_unix_time_from_string_timestamp "2023-01-01T00:00:00." = Err StdException /\
  adjust_time_ms "2023-01-01T00:00:00." 5 = Err StdException.
Proof. apply timestamp_too_short. unfold str_size. simpl. lia. Defined.

(** ** More on the range algebra *)

Lemma adjacent_tail {A : Type} (P : A -> A -> Prop) (a : A) (l : list A) :
  adjacent P (a :: l) -> adjacent P l.
Proof. destruct l; [trivial | intros [_ H]; exact H]. Qed.

(** Along a list whose neighbours are related by a transitive relation, the
    head is related to every later element. *)
Lemma adjacent_head {A : Type} (P : A -> A -> Prop) (a : A) (l : list A) :
  (forall x y z, P x y -> P y z -> P x z) ->
  adjacent P (a :: l) -> forall b, In b l -> P a b.
Proof.
  intros Htrans. revert a. induction l as [|x l IH]; intros a Hadj b Hb.
  - destruct Hb.
  - destruct Hadj as [H1 H2]. destruct Hb as [<-|Hb]; [exact H1|].
    apply (Htrans a x b H1). apply IH; assumption.
Qed.

Lemma adjacent_filter {A : Type} (P : A -> A -> Prop) (f : A -> bool) (l : list A) :
  (forall x y z, P x y -> P y z -> P x z) ->
  adjacent P l -> adjacent P (filter f l).
Proof.
  intros Htrans. induction l as [|a l IH]; intros Hadj; [exact I|].
  pose proof (adjacent_tail _ _ _ Hadj) as Htail. specialize (IH Htail).
  cbn [filter]. destruct (f a); [|exact IH].
  destruct (filter f l) as [|b l'] eqn:E; [exact I|].
  split; [|exact IH].
  apply (adjacent_head P a l Htrans Hadj). apply (filter_In f b l).
  rewrite E. left. reflexivity.
Qed.

Lemma filter_ranges_Ok (ranges filtered : PosRanges)
    (filter_f : PosRange -> result bool) :
  filter_ranges ranges filter_f = Ok filtered ->
  filtered = filter (passes filter_f) ranges /\
  Forall (fun r => exists keep, filter_f r = Ok keep) ranges.
Proof.
  revert filtered. induction ranges as [|r rest IH]; intros filtered.
  - intros [= <-]. split; [reflexivity | constructor].
  - cbn [filter_ranges filter]. unfold passes at 1.
    destruct (filter_f r) as [keep|e] eqn:Hr; [|discriminate]. cbn [bind].
    destruct (filter_ranges rest filter_f) as [rest'|e]; [|discriminate].
    cbn [bind]. intros [= <-]. destruct (IH rest' eq_refl) as [-> Hall].
    split; [destruct keep; reflexivity|].
    constructor; [exists keep; exact Hr | exact Hall].
Qed.

(** X5.  [filter_ranges] returns exactly when its predicate returns on every
    range, and then it keeps the ranges the predicate accepts, in their
    order: a list sorted by [first] stays sorted. *)
Theorem filter_ranges_keeps_accepted (ranges : PosRanges)
    (filter_f : PosRange -> result bool) :
  (Forall (fun r => exists keep, filter_f r = Ok keep) ranges <->
   exists filtered, filter_ranges ranges filter_f = Ok filtered) /\
  (forall filtered,
     filter_ranges ranges filter_f = Ok filtered ->
     filtered = filter (passes filter_f) ranges /\
     (sorted_by_first ranges -> sorted_by_first filtered)).
Proof.
  split; [split|].
  - induction ranges as [|r rest IH]; intros Hall.
    + exists []. reflexivity.
    + inversion Hall as [|? ? [keep Hr] Hrest]; subst.
      destruct (IH Hrest) as [rest' Hf]. cbn [filter_ranges].
      rewrite Hr, Hf. cbn [bind]. eexists. reflexivity.
  - intros [filtered Hf]. apply (filter_ranges_Ok _ _ _ Hf).
  - intros filtered Hf. destruct (filter_ranges_Ok _ _ _ Hf) as [-> _].
    split; [reflexivity|]. apply adjacent_filter. intros x y z; lia.
Qed.

Lemma filter_ranges_keeps_accepted_witness :
  let ranges := [(0, 2); (3, 4); (5, 9)] in
  let filter_f := fun r : PosRange => Ok (second r - first r <? 3) in
  filter_ranges ranges filter_f = Ok [(0, 2); (3, 4)] /\
  sorted_by_first [(0, 2); (3, 4)].
Proof.
  intros ranges filter_f.
  destruct (filter_ranges_keeps_accepted ranges filter_f) as [_ H].
  destruct (H [(0, 2); (3, 4)] eq_refl) as [_ Hs].
  split; [reflexivity|]. apply Hs. unfold sorted_by_first, first; simpl. lia.
Defined.

Section MergeCover.
Variable d : Z.

Lemma merge_step_cover (done merged merged' rest : PosRanges) (r : PosRange) :
  sorted_by_second (r :: rest) ->
  merge_cover done merged (r :: rest) ->
  merge_step d merged r = Ok merged' ->
  merge_cover (done ++ [r]) merged' rest.
Proof.
  intros Hsorted (Hin & Hends & Hlater & Hlen).
  assert (Hr : forall r', In r' rest -> second r <= second r').
  { apply (adjacent_head (fun a b => second a <= second b)); [|exact Hsorted].
    intros x y z; lia. }
  unfold merge_step. destruct (back merged) as [b|] eqn:Hb.
  - pose proof (back_Some _ _ Hb) as Hm.
    assert (Hbin : In b merged).
    { rewrite Hm. apply in_or_app. right. left. reflexivity. }
    unfold assert. destruct (first r >=? first b) eqn:Hge; [|discriminate].
    cbn [bind]. rewrite Z.geb_leb in Hge. apply Z.leb_le in Hge.
    assert (Hbr : second b <= second r) by (apply Hlater; [exact Hbin | left; reflexivity]).
    destruct (first r >? wrap64 (second b + d)); intros [= <-].
    + split; [|split; [|split]].
      * intros x Hx. apply in_app_or in Hx. destruct Hx as [Hx|[<-|[]]].
        -- destruct (Hin x Hx) as (m & Hm1 & Hm2). exists m.
           split; [apply in_or_app; left; exact Hm1 | exact Hm2].
        -- exists r. split; [apply in_or_app; right; left; reflexivity|].
           unfold inside. lia.
      * intros m Hm'. apply in_app_or in Hm'. destruct Hm' as [Hm'|[<-|[]]].
        -- destruct (Hends m Hm') as (a & c & Ha & Hc & H1 & H2 & H3).
           exists a, c. repeat split; try assumption; apply in_or_app; left; assumption.
        -- exists r, r. repeat split; try lia; apply in_or_app; right; left; reflexivity.
      * intros m r' Hm' Hr'. apply in_app_or in Hm'. destruct Hm' as [Hm'|[<-|[]]].
        -- apply Hlater; [exact Hm' | right; exact Hr'].
        -- apply Hr. exact Hr'.
      * rewrite !length_app. simpl. lia.
    + split; [|split; [|split]].
      * intros x Hx. apply in_app_or in Hx. destruct Hx as [Hx|[<-|[]]].
        -- destruct (Hin x Hx) as (m & Hm1 & Hm2).
           rewrite Hm in Hm1. apply in_app_or in Hm1.
           destruct Hm1 as [Hm1|[<-|[]]].
           ++ exists m. split; [apply in_or_app; left; exact Hm1 | exact Hm2].
           ++ exists (first b, second r).
              split; [apply in_or_app; right; left; reflexivity|].
              destruct Hm2 as [H1 H2]. unfold inside, first, second in *.
              cbn [fst snd]. lia.
        -- exists (first b, second r).
           split; [apply in_or_app; right; left; reflexivity|].
           unfold inside, first, second in *. cbn [fst snd]. lia.
      * intros m Hm'. apply in_app_or in Hm'. destruct Hm' as [Hm'|[<-|[]]].
        -- assert (Hmin : In m merged).
           { rewrite Hm. apply in_or_app. left. exact Hm'. }
           destruct (Hends m Hmin) as (a & c & Ha & Hc & H1 & H2 & H3).
           exists a, c. repeat split; try assumption; apply in_or_app; left; assumption.
        -- destruct (Hends b Hbin) as (a & c & Ha & Hc & H1 & H2 & H3).
           exists a, r. unfold first, second in *. cbn [fst snd].
           repeat split; try lia;
             apply in_or_app; [left; exact Ha | right; left; reflexivity].
      * intros m r' Hm' Hr'. apply in_app_or in Hm'. destruct Hm' as [Hm'|[<-|[]]].
        -- apply Hlater; [|right; exact Hr'].
           rewrite Hm. apply in_or_app. left. exact Hm'.
        -- unfold second at 1. cbn [snd]. apply Hr. exact Hr'.
      * rewrite Hm in Hlen. rewrite !length_app in *. simpl in *. lia.
  - intros [= <-]. apply back_None in Hb. subst merged.
    split; [|split; [|split]].
    + intros x Hx. apply in_app_or in Hx. destruct Hx as [Hx|[<-|[]]].
      * destruct (Hin x Hx) as (m & [] & _).
      * exists r. split; [left; reflexivity | unfold inside; lia].
    + intros m [<-|[]]. exists r, r.
      repeat split; try lia; apply in_or_app; right; left; reflexivity.
    + intros m r' [<-|[]] Hr'. apply Hr. exact Hr'.
    + rewrite !length_app. simpl. lia.
Qed.

Lemma merge_loop_cover (ranges done merged M : PosRanges) :
  sorted_by_second ranges ->
  merge_cover done merged ranges ->
  merge_loop d ranges merged = Ok M ->
  merge_cover (done ++ ranges) M [].
Proof.
  revert done merged. induction ranges as [|r rest IH]; intros done merged Hs Hc.
  - intros [= <-]. rewrite app_nil_r. exact Hc.
  - cbn [merge_loop]. destruct (merge_step d merged r) as [merged'|e] eqn:Hstep;
      [|discriminate].
    cbn [bind]. intros HM.
    replace (done ++ r :: rest) with ((done ++ [r]) ++ rest)
      by (rewrite <- app_assoc; reflexivity).
    apply (IH (done ++ [r]) merged'); [|eapply merge_step_cover; eassumption|exact HM].
    apply (adjacent_tail _ _ _ Hs).
Qed.

End MergeCover.

Lemma merge_ranges_cover (R M : PosRanges) (d : Z) :
  sorted_by_second R -> merge_ranges R d = Ok M -> merge_cover R M [].
Proof.
  intros Hs HM. apply (merge_loop_cover d R [] [] M Hs); [|exact HM].
  split; [|split; [|split]].
  - intros x [].
  - intros m [].
  - intros m r [].
  - reflexivity.
Qed.

(** X6.  On ranges sorted by [first] whose ends do not decrease,
    [merge_ranges] returns, and it loses nothing: every range given lies
    inside a range returned; every range returned starts where a given
    range starts and ends where a given range ends; and there are no more
    ranges returned than given. *)
Theorem merge_ranges_covers (R : PosRanges) (d : Z) :
  sorted_by_first R -> sorted_by_second R ->
  exists M,
    merge_ranges R d = Ok M /\
    (forall r, In r R -> exists m, In m M /\ inside r m) /\
    (forall m, In m M ->
       exists a b, In a R /\ In b R /\
                   first m = first a /\ second m = second b) /\
    (List.length M <= List.length R)%nat.
Proof.
  intros Hf Hs.
  destruct (merge_loop_sorted_ok d R [] Hf) as [M HM]; [intros a b []|].
  exists M. split; [exact HM|].
  destruct (merge_ranges_cover R M d Hs HM) as (H1 & H2 & _ & H4).
  split; [exact H1|]. split; [|exact H4].
  intros m Hm. destruct (H2 m Hm) as (a & b & Ha & Hb & E1 & E2 & _).
  exists a, b. repeat split; assumption.
Qed.

Lemma merge_ranges_covers_witness :
  let R := [(0, 4); (2, 5); (9, 12); (20, 21)] in
  exists M,
    merge_ranges R 3 = Ok M /\
    (forall r, In r R -> exists m, In m M /\ inside r m) /\
    (List.length M <= 4)%nat.
Proof.
  intros R. destruct (merge_ranges_covers R 3) as (M & H1 & H2 & _ & H4).
  - unfold sorted_by_first, first; simpl. lia.
  - unfold sorted_by_second, second; simpl. lia.
  - exists M. repeat split; assumption.
Defined.

(** ** Cumulative sums and the working-set wrapper *)

Lemma wrap64_add_l (a b : Z) : wrap64 (wrap64 a + b) = wrap64 (a + b).
Proof. unfold wrap64. apply Zplus_mod_idemp_l. Qed.

Lemma cum_sums_from_nth (moves : list Z) (prev : Z) (i : nat) :
  (i < List.length moves)%nat ->
  nth_error (cum_sums_from prev moves) i
  = Some (wrap64 (prev + sum_moves (firstn (S i) moves))).
Proof.
  revert prev i. induction moves as [|m rest IH]; intros prev i Hi.
  - simpl in Hi. lia.
  - cbn [cum_sums_from]. destruct i as [|i].
    + cbn [nth_error firstn]. destruct rest; cbn [firstn sum_moves fold_right];
        do 2 f_equal; lia.
    + cbn [nth_error]. rewrite IH by (simpl in Hi; lia).
      rewrite wrap64_add_l. f_equal. f_equal.
      change (firstn (S (S i)) (m :: rest)) with (m :: firstn (S i) rest).
      cbn [sum_moves fold_right]. fold (sum_moves (firstn (S i) rest)). lia.
Qed.

Lemma cum_sums_from_back (moves : list Z) (prev : Z) :
  moves <> [] ->
  back (cum_sums_from prev moves) = Some (wrap64 (prev + sum_moves moves)).
Proof.
  revert prev. induction moves as [|m rest IH]; intros prev Hne; [contradiction|].
  cbn [cum_sums_from]. rewrite back_cons. destruct rest as [|m' rest'].
  - cbn [cum_sums_from back rev sum_moves fold_right]. do 2 f_equal. lia.
  - rewrite IH by discriminate. rewrite wrap64_add_l. do 2 f_equal.
    cbn [sum_moves fold_right]. lia.
Qed.

(** X7.  [move_cum_sums] returns as many entries as there are moves, entry
    [i] being the sum of the moves 0 to [i] in 64-bit arithmetic; on a table
    of bits the entries do not decrease. *)
Theorem move_cum_sums_partial_sums (moves : list Z) :
  size (move_cum_sums moves) = size moves /\
  (forall i, 0 <= i < size moves ->
     index (move_cum_sums moves) i
     = Ok (wrap64 (sum_moves (firstn (Z.to_nat i + 1) moves)))) /\
  (bits moves -> size moves < 2 ^ 64 -> from_below 0 (move_cum_sums moves)).
Proof.
  split; [apply cum_sums_size|]. split.
  - intros i Hi. unfold index, move_cum_sums.
    replace (i <? 0) with false by (symmetry; apply Z.ltb_ge; lia).
    rewrite cum_sums_from_nth by (unfold size in Hi; lia).
    replace (Z.to_nat i + 1)%nat with (S (Z.to_nat i)) by lia. reflexivity.
  - intros Hbits Hsize. apply cum_sums_sorted; [exact Hbits | lia | lia].
Qed.

Lemma move_cum_sums_partial_sums_witness :
  let moves := [1; 1; 0; 1; 0; 0; 1; 1; 0; 1; 0; 1; 0; 0; 1; 0; 1; 1; 0; 0] in
  index (move_cum_sums moves) 6 = Ok (wrap64 (sum_moves (firstn 7 moves))) /\
  from_below 0 (move_cum_sums moves).
Proof.
  intros moves.
  destruct (move_cum_sums_partial_sums moves) as (_ & H2 & H3).
  split.
  - apply (H2 6). unfold size. simpl. lia.
  - apply H3; [|unfold size; simpl; lia].
    unfold bits. repeat (apply Forall_cons; [auto|]). apply Forall_nil.
Defined.

(** X8.  The constructor of [ExtRead] on the three kinds of read: with no
    move it reads [back()] of an empty vector; with moves whose sum is the
    length of the sequence it wraps the read with its signal and its
    cumulative sums; with any other sum its assertion fails. *)
Theorem ExtRead_new_cases `{Ext : Externals} (r : Read) :
  (moves r = [] -> ExtRead_new r = Err UndefinedBehaviour) /\
  (moves r <> [] -> wrap64 (sum_moves (moves r)) = str_size (seq r) ->
   ExtRead_new r = Ok (mk_ExtRead r (raw_data r) (move_cum_sums (moves r)))) /\
  (moves r <> [] -> wrap64 (sum_moves (moves r)) <> str_size (seq r) ->
   ExtRead_new r = Err AssertionFailed).
Proof.
  unfold ExtRead_new, move_cum_sums. split; [|split].
  - intros ->. reflexivity.
  - intros Hne Hsum. rewrite cum_sums_from_back by exact Hne.
    change (0 + sum_moves (moves r)) with (sum_moves (moves r)).
    rewrite Hsum, Z.eqb_refl. reflexivity.
  - intros Hne Hsum. rewrite cum_sums_from_back by exact Hne.
    change (0 + sum_moves (moves r)) with (sum_moves (moves r)).
    replace (_ =? _) with false by (symmetry; apply Z.eqb_neq; exact Hsum).
    reflexivity.
Qed.

Lemma ExtRead_new_cases_witness :
  ExtRead_new Examples.six_base_read
  = Ok (mk_ExtRead Examples.six_base_read (raw_data Examples.six_base_read)
          (move_cum_sums (moves Examples.six_base_read))).
Proof.
  destruct (ExtRead_new_cases (Ext := Reference.externals) Examples.six_base_read)
    as (_ & H & _).
  apply H; [discriminate | reflexivity].
Defined.

(** ** More on the pore-signal detector *)

(** X9.  On a signal that is not empty, the detector returns no interval
    exactly when no sample from [ignore_prefix] on is above the threshold. *)
Theorem detect_pore_signal_quiet `{Ext : Externals}
    (signal : list float) (threshold : float) (D P : Z) :
  0 <= D -> 0 <= P -> 0 < size signal -> size signal + D < 2 ^ 64 ->
  detect_pore_signal signal threshold D P = Ok [] <->
  (forall k, P <= k -> k < size signal -> above signal threshold k = false).
Proof.
  intros HD HP HN Hwrap.
  destruct (detect_pore_signal_clusters signal threshold D P HD HP HN Hwrap)
    as (l & Hret & Hall & _ & Hcov).
  rewrite Hret. split.
  - intros [= ->] k Hk1 Hk2.
    destruct (above signal threshold k) eqn:Ha; [|reflexivity].
    specialize (Hcov k Hk1 Hk2 Ha). inversion Hcov.
  - intros Hquiet. destruct l as [|r l]; [reflexivity|].
    inversion Hall as [|? ? (H1 & H2 & H3 & H4 & _) _]; subst.
    rewrite Hquiet in H4 by lia. discriminate.
Qed.

Lemma detect_pore_signal_quiet_witness :
  detect_pore_signal (Ext := Reference.externals)
    (map inject_Z [200; 90; 95; 90]) 100%Q 1 1 = Ok [].
Proof.
  apply (detect_pore_signal_quiet (Ext := Reference.externals));
    try (unfold size; simpl; lia).
  intros k Hk1 Hk2. unfold size in Hk2. simpl in Hk2.
  assert (C : k = 1 \/ k = 2 \/ k = 3) by lia.
  destruct C as [-> | [-> | ->]]; reflexivity.
Defined.

Lemma skipn_prefix {A : Type} (pre s : list A) (P : Z) :
  size pre = P -> skipn (Z.to_nat (Z.min P (size (pre ++ s)))) (pre ++ s) = s.
Proof.
  intros <-. rewrite size_app. pose proof (size_nonneg s) as Hs.
  rewrite Z.min_l by lia. unfold size. rewrite Nat2Z.id.
  rewrite skipn_app, skipn_all, Nat.sub_diag. reflexivity.
Qed.

(** X10.  The detector never looks at the samples before [ignore_prefix]:
    two signals that differ only there give the same intervals. *)
Theorem detect_pore_signal_ignores_prefix `{Ext : Externals}
    (pre1 pre2 s : list float) (threshold : float) (D P : Z) :
  size pre1 = P -> size pre2 = P ->
  detect_pore_signal (pre1 ++ s) threshold D P
  = detect_pore_signal (pre2 ++ s) threshold D P.
Proof.
  intros H1 H2. unfold detect_pore_signal. cbv zeta.
  rewrite (skipn_prefix pre1 s P H1), (skipn_prefix pre2 s P H2).
  rewrite !size_app, H1, H2. reflexivity.
Qed.

Lemma detect_pore_signal_ignores_prefix_witness :
  detect_pore_signal (Ext := Reference.externals)
    (map inject_Z ([300; 300] ++ [90; 200; 200; 90])) 100%Q 1 2
  = detect_pore_signal (Ext := Reference.externals)
      (map inject_Z ([0; 0] ++ [90; 200; 200; 90])) 100%Q 1 2.
Proof.
  rewrite !map_app.
  apply (detect_pore_signal_ignores_prefix (Ext := Reference.externals));
    reflexivity.
Defined.

(** ** More on the worker *)

Lemma mapM_length {A B : Type} (f : A -> result B) (l : list A) (out : list B) :
  mapM f l = Ok out -> List.length out = List.length l.
Proof.
  revert out. induction l as [|a l IH]; intros out.
  - intros [= <-]. reflexivity.
  - cbn [mapM]. destruct (f a); [|discriminate]. cbn [bind].
    destruct (mapM f l) as [bs|]; [|discriminate]. cbn [bind].
    intros [= <-]. simpl. rewrite (IH bs eq_refl). reflexivity.
Qed.

Lemma split_loop_length {X : Type} `{Ext : Externals}
    (factory : Read -> PosRange -> PosRange -> result X)
    (r : Read) (sig_map : list Z) (spacers : list PosRange) (q s : Z)
    (acc out : list X) :
  split_loop factory r sig_map spacers q s acc = Ok out ->
  List.length out = (List.length acc + List.length spacers + 1)%nat.
Proof.
  revert q s acc. induction spacers as [|sp rest IH]; intros q s acc.
  - cbn [split_loop]. destruct (index sig_map (str_size (seq r))); [|discriminate].
    cbn [bind]. destruct (assert _); [|discriminate]. cbn [bind].
    destruct (factory r _ _); [|discriminate]. cbn [bind].
    intros [= <-]. rewrite length_app. simpl. lia.
  - cbn [split_loop]. destruct (index sig_map (first sp)); [|discriminate].
    cbn [bind]. destruct (factory r _ _); [|discriminate]. cbn [bind].
    destruct (index sig_map (second sp)); [|discriminate]. cbn [bind].
    intros H. rewrite (IH _ _ _ H), length_app. simpl. lia.
Qed.

Lemma split_length `{Ext : Externals} (r : Read) (spacers : list PosRange)
    (children : list Read) :
  split r spacers = Ok children ->
  List.length children = (List.length spacers + 1)%nat.
Proof.
  destruct spacers as [|sp rest].
  - intros [= <-]. reflexivity.
  - unfold split, cut. destruct (index _ 0); [|discriminate]. cbn [bind].
    intros H. apply split_loop_length in H. exact H.
Qed.

Section WorkerMore.
Context `{Ext : Externals}.
Variable settings : DuplexSplitSettings.

Lemma split_round_grows (f : SplitFinderF) (to_split acc out : list ExtRead) :
  split_round f to_split acc = Ok out ->
  (List.length acc + List.length to_split <= List.length out)%nat.
Proof.
  revert acc. induction to_split as [|r rest IH]; intros acc.
  - intros [= <-]. simpl. lia.
  - cbn [split_round]. destruct (f r) as [spacers|]; [|discriminate]. cbn [bind].
    destruct spacers as [|sp spacers].
    + intros H. apply IH in H. rewrite length_app in H. simpl in *. lia.
    + destruct (split (read r) (sp :: spacers)) as [subreads|] eqn:Hs;
        [|discriminate].
      cbn [bind]. destruct (mapM ExtRead_new subreads) as [wrapped|] eqn:Hw;
        [|discriminate].
      cbn [bind]. intros H. apply IH in H. rewrite length_app in H.
      apply mapM_length in Hw. apply split_length in Hs. simpl in *. lia.
Qed.

Lemma split_rounds_grows (finders : list (string * SplitFinderF))
    (to_split out : list ExtRead) :
  split_rounds finders to_split = Ok out ->
  (List.length to_split <= List.length out)%nat.
Proof.
  revert to_split. induction finders as [|[name f] rest IH]; intros to_split.
  - intros [= <-]. lia.
  - cbn [split_rounds].
    destruct (split_round f to_split []) as [res|] eqn:Hr; [|discriminate].
    cbn [bind]. intros H. apply IH in H. apply split_round_grows in Hr.
    simpl in Hr. lia.
Qed.

Lemma process_read_stamps (finders : list (string * SplitFinderF))
    (init_read : Read) (pushed : list Message) :
  process_read finders init_read = Ok pushed ->
  (1 <= List.length pushed)%nat /\
  Forall (fun msg => exists child, msg = MsgRead child /\
                                   parent_read_id child = read_id init_read)
         pushed.
Proof.
  unfold process_read. destruct (ExtRead_new init_read) as [ext|]; [|discriminate].
  cbn [bind].
  destruct (split_rounds finders [ext]) as [to_split|] eqn:Hr;
    [|discriminate].
  cbn [bind]. intros [= <-]. apply split_rounds_grows in Hr. split.
  - rewrite length_map. simpl in Hr. exact Hr.
  - apply Forall_map. apply Forall_forall. intros sub _.
    eexists. split; reflexivity.
Qed.

(** The worker on a queue in two parts: the second part is processed after
    the first, unless the first ends the thread. *)
Lemma worker_thread_app (finders : list (string * SplitFinderF))
    (q1 q2 sink : list Message) :
  worker_thread settings finders (q1 ++ q2) sink
  = match worker_thread settings finders q1 sink with
    | (sink', None) => worker_thread settings finders q2 sink'
    | (sink', Some e) => (sink', Some e)
    end.
Proof.
  revert sink. induction q1 as [|message rest IH]; intros sink; [reflexivity|].
  cbn [app worker_thread]. destruct (negb (enabled settings)); [apply IH|].
  destruct message; try reflexivity.
  destruct (process_read finders r); [apply IH | reflexivity].
Qed.

(** What is in the sink when the worker starts stays there, before what the
    worker pushes. *)
Lemma worker_thread_sink (finders : list (string * SplitFinderF))
    (queue sink : list Message) :
  worker_thread settings finders queue sink
  = (sink ++ fst (worker_thread settings finders queue []),
     snd (worker_thread settings finders queue [])).
Proof.
  revert sink. induction queue as [|message rest IH]; intros sink.
  - simpl. rewrite app_nil_r. reflexivity.
  - cbn [worker_thread]. destruct (negb (enabled settings)).
    + rewrite IH, (IH ([] ++ [message])). cbn [fst snd app].
      rewrite <- app_assoc. reflexivity.
    + destruct message; try (simpl; rewrite app_nil_r; reflexivity).
      destruct (process_read finders r) as [pushed|e].
      * rewrite IH, (IH ([] ++ pushed)). cbn [fst snd app].
        rewrite <- app_assoc. reflexivity.
      * simpl. rewrite app_nil_r. reflexivity.
Qed.

Lemma worker_thread_stamps (finders : list (string * SplitFinderF))
    (queue sink out : list Message) :
  enabled settings = true ->
  worker_thread settings finders queue sink = (out, None) ->
  exists pushed,
    out = sink ++ pushed /\
    (List.length queue <= List.length pushed)%nat /\
    Forall (fun msg => exists child init_read,
              msg = MsgRead child /\ In (MsgRead init_read) queue /\
              parent_read_id child = read_id init_read)
           pushed.
Proof.
  intros Hon. revert sink. induction queue as [|message rest IH]; intros sink.
  - intros [= <-]. exists []. rewrite app_nil_r.
    split; [reflexivity|]. split; [simpl; lia | constructor].
  - cbn [worker_thread]. rewrite Hon. cbn [negb].
    destruct message as [init_read| |]; try discriminate.
    destruct (process_read finders init_read) as [pushed|] eqn:Hp;
      [|discriminate].
    intros H. destruct (IH _ H) as (more & -> & Hlen & Hall).
    destruct (process_read_stamps _ _ _ Hp) as [Hone Hst].
    exists (pushed ++ more). split; [rewrite app_assoc; reflexivity|]. split.
    + rewrite length_app. simpl. lia.
    + apply Forall_app. split.
      * eapply Forall_impl; [|exact Hst]. intros msg (child & -> & Hid).
        exists child, init_read. split; [reflexivity|].
        split; [left; reflexivity | exact Hid].
      * eapply Forall_impl; [|exact Hall]. intros msg (child & i & -> & Hin & Hid).
        exists child, i. split; [reflexivity|]. split; [right; exact Hin | exact Hid].
Qed.

End WorkerMore.

(** X11.  Every message the enabled node pushes is a read that carries, as
    [parent_read_id], the [read_id] of a read it popped, and the node that
    empties its queue pushes at least as many reads as it popped: no read is
    dropped. *)
Theorem node_stamps_parent_read_id `{Ext : Externals}
    (settings : DuplexSplitSettings) (queue out : list Message) :
  enabled settings = true ->
  DuplexSplitNode settings queue = (out, None) ->
  (List.length queue <= List.length out)%nat /\
  Forall (fun msg => exists child init_read,
            msg = MsgRead child /\ In (MsgRead init_read) queue /\
            parent_read_id child = read_id init_read)
         out.
Proof.
  intros Hon Hrun. unfold DuplexSplitNode in Hrun.
  destruct (worker_thread_stamps settings _ _ _ _ Hon Hrun) as (pushed & -> & H1 & H2).
  split; assumption.
Qed.

(** X12.  The node keeps no state from one message to the next: on a queue
    in two parts it pushes what it pushes for the first part, then, unless
    the first part ended the thread, what it pushes for the second. *)
Theorem node_queue_concatenation `{Ext : Externals}
    (settings : DuplexSplitSettings) (q1 q2 : list Message) :
  DuplexSplitNode settings (q1 ++ q2)
  = match DuplexSplitNode settings q1 with
    | (out1, None) =>
        (out1 ++ fst (DuplexSplitNode settings q2),
         snd (DuplexSplitNode settings q2))
    | (out1, Some e) => (out1, Some e)
    end.
Proof.
  unfold DuplexSplitNode. rewrite worker_thread_app.
  destruct (worker_thread settings (build_split_finders settings) q1 [])
    as [out1 [e|]]; [reflexivity|].
  apply worker_thread_sink.
Qed.


Lemma node_stamps_parent_read_id_witness :
  let queue := [MsgRead Scenarios.cut_read; MsgRead Examples.quiet_read] in
  exists out,
    DuplexSplitNode (Examples.example_settings true true) queue = (out, None) /\
    (List.length queue <= List.length out)%nat /\
    Forall (fun msg => exists child init_read,
              msg = MsgRead child /\ In (MsgRead init_read) queue /\
              parent_read_id child = read_id init_read)
           out.
Proof.
  intros queue.
  destruct (DuplexSplitNode (Examples.example_settings true true) queue)
    as [out e] eqn:Hrun.
  assert (He : e = None).
  { apply (f_equal snd) in Hrun. vm_compute in Hrun. symmetry. exact Hrun. }
  subst e. exists out. split; [reflexivity|].
  apply (node_stamps_parent_read_id (Ext := Reference.externals)
           (Examples.example_settings true true) queue out eq_refl Hrun).
Defined.


(** ** The split finders *)

Lemma near_disjoint_trans (x y z : PosRange) :
  near_disjoint x y -> near_disjoint y z -> near_disjoint x z.
Proof. unfold near_disjoint. lia. Qed.

Lemma Forall_filter {A : Type} (P : A -> Prop) (f : A -> bool) (l : list A) :
  Forall P l -> Forall P (filter f l).
Proof.
  intros H. apply Forall_forall. intros x Hx. apply filter_In in Hx.
  rewrite Forall_forall in H. apply H. apply Hx.
Qed.

(** Filtering keeps the shape of the candidate regions. *)
Lemma filter_ranges_shape `{Ext : Externals} (r : Read)
    (regions filtered : PosRanges) (filter_f : PosRange -> result bool) :
  Forall (region_in_seq r) regions -> adjacent near_disjoint regions ->
  filter_ranges regions filter_f = Ok filtered ->
  Forall (region_in_seq r) filtered /\ adjacent near_disjoint filtered /\
  Forall (fun x => filter_f x = Ok true) filtered.
Proof.
  intros Hall Hadj Hf. destruct (filter_ranges_Ok _ _ _ Hf) as [-> _].
  split; [apply Forall_filter; exact Hall|]. split.
  - apply adjacent_filter; [|exact Hadj]. exact near_disjoint_trans.
  - apply Forall_forall. intros x Hx. apply filter_In in Hx. destruct Hx as [_ Hp].
    unfold passes in Hp. destruct (filter_f x) as [[|]|]; try discriminate.
    reflexivity.
Qed.

(** Spacers inside the sequence and apart from each other are what the cut
    operation expects. *)
Lemma separated_spacers_from `{Ext : Externals} (r : Read) (d lo : Z)
    (spacers : PosRanges) :
  0 <= d -> Forall (region_in_seq r) spacers -> separated d spacers ->
  (forall x rest, spacers = x :: rest -> lo <= first x) ->
  lo <= str_size (seq r) ->
  spacers_from lo (str_size (seq r)) spacers.
Proof.
  intros Hd. revert lo.
  induction spacers as [|x rest IH]; intros lo Hall Hsep Hlo Hlen.
  - exact Hlen.
  - inversion Hall as [|? ? (Hx0 & Hx1 & Hx2) Hrest]; subst.
    cbn [spacers_from]. split; [apply (Hlo x rest eq_refl)|]. split; [lia|].
    apply IH; [exact Hrest | apply (adjacent_tail _ _ _ Hsep) | | exact Hx2].
    intros y rest' ->. destruct Hsep as [H _]. lia.
Qed.

Lemma near_disjoint_sorted (l : PosRanges) :
  adjacent near_disjoint l -> sorted_by_first l /\ sorted_by_second l.
Proof.
  intros H. split; revert H; apply adjacent_impl; intros a b _ (H1 & H2 & H3); lia.
Qed.

(** Merging candidate regions gives regions of the sequence again, more
    than the merge distance apart. *)
Lemma merged_regions `{Ext : Externals} (r : Read) (d : Z) (F M : PosRanges) :
  0 <= d -> str_size (seq r) + d < 2 ^ 64 ->
  Forall (region_in_seq r) F -> adjacent near_disjoint F ->
  merge_ranges F d = Ok M ->
  Forall (region_in_seq r) M /\ separated d M.
Proof.
  intros Hd Hfit Hall Hadj HM.
  destruct (near_disjoint_sorted F Hadj) as [_ Hsec].
  destruct (merge_ranges_cover F M d Hsec HM) as (_ & Hends & _ & _).
  assert (HallM : Forall (region_in_seq r) M).
  { apply Forall_forall. intros m Hm.
    destruct (Hends m Hm) as (a & b & Ha & Hb & E1 & E2 & Hle).
    rewrite Forall_forall in Hall.
    destruct (Hall a Ha) as (Ha0 & Ha1 & _). destruct (Hall b Hb) as (_ & _ & Hb2).
    unfold region_in_seq. lia. }
  split; [exact HallM|].
  apply kept_separated; [exact Hd| |].
  - eapply Forall_impl; [|exact HallM]. intros m (H0 & H1 & H2). lia.
  - eapply merge_loop_kept; [|exact HM]. exact I.
Qed.

(** X14.  The candidate regions of a read of the data model: the
    enumeration returns, every region is a non-empty range of the sequence,
    the regions are ordered by their start, and two successive regions share
    at most one position. *)
Theorem pore_regions_well_formed `{Ext : Externals}
    (settings : DuplexSplitSettings) (r : Read) (ext : ExtRead)
    (pore_thr : float) :
  data_model r -> ExtRead_new r = Ok ext -> settings_fit settings r ->
  exists regions,
    possible_pore_regions settings ext pore_thr = Ok regions /\
    Forall (region_in_seq r) regions /\ adjacent near_disjoint regions.
Proof.
  intros Hmodel Hext (HD & HP & HN & _).
  apply (possible_pore_regions_shape settings r ext Hmodel Hext pore_thr HD HP HN).
Qed.

(** X15.  Whenever PORE_ADAPTER returns, its spacers are non-empty ranges
    of the sequence ordered by their start, two successive ones sharing at
    most one position. *)
Theorem pore_adapter_spacers `{Ext : Externals}
    (settings : DuplexSplitSettings) (r : Read) (ext : ExtRead)
    (spacers : PosRanges) :
  data_model r -> ExtRead_new r = Ok ext -> settings_fit settings r ->
  pore_adapter_finder settings ext = Ok spacers ->
  Forall (region_in_seq r) spacers /\ adjacent near_disjoint spacers.
Proof.
  intros Hmodel Hext (HD & HP & HN & _). unfold pore_adapter_finder.
  destruct (possible_pore_regions_shape settings r ext Hmodel Hext
              (pore_thr settings) HD HP HN) as (regions & -> & Hall & Hadj).
  cbn [bind]. intros Hf.
  destruct (filter_ranges_shape r _ _ _ Hall Hadj Hf) as (H1 & H2 & _).
  split; assumption.
Qed.

(** X16.  Whenever PORE_FLANK or PORE_ALL returns, its spacers are what the
    cut operation expects: non-empty ranges of the sequence, sorted, and
    more than [end_flank + start_flank] apart, hence disjoint. *)
Theorem pore_flank_all_spacers `{Ext : Externals}
    (settings : DuplexSplitSettings) (r : Read) (ext : ExtRead)
    (finder : SplitFinderF) (spacers : PosRanges) :
  data_model r -> ExtRead_new r = Ok ext -> settings_fit settings r ->
  finder = pore_flank_finder settings \/ finder = pore_all_finder settings ->
  finder ext = Ok spacers ->
  Forall (region_in_seq r) spacers /\
  separated (end_flank settings + start_flank settings) spacers /\
  spacers_from 0 (str_size (seq r)) spacers.
Proof.
  intros Hmodel Hext (HD & HP & HN & He & Hs & Hfit) Hfinder Hret.
  assert (Hmerged : exists thr filter_f regions filtered,
            possible_pore_regions settings ext thr = Ok regions /\
            filter_ranges regions filter_f = Ok filtered /\
            merge_ranges filtered
              (wrap64 (end_flank settings + start_flank settings)) = Ok spacers).
  { destruct Hfinder as [-> | ->].
    - unfold pore_flank_finder in Hret.
      destruct (possible_pore_regions settings ext (pore_thr settings))
        as [regions|] eqn:Hr; [|discriminate].
      cbn [bind] in Hret.
      destruct (filter_ranges regions _) as [filtered|] eqn:Hf; [|discriminate].
      cbn [bind] in Hret. eexists _, _, regions, filtered.
      split; [exact Hr|]. split; [exact Hf | exact Hret].
    - unfold pore_all_finder in Hret.
      destruct (possible_pore_regions settings ext (relaxed_pore_thr settings))
        as [regions|] eqn:Hr; [|discriminate].
      cbn [bind] in Hret.
      destruct (filter_ranges regions _) as [filtered|] eqn:Hf; [|discriminate].
      cbn [bind] in Hret. eexists _, _, regions, filtered.
      split; [exact Hr|]. split; [exact Hf | exact Hret]. }
  destruct Hmerged as (thr & filter_f & regions & filtered & Hr & Hf & Hm).
  destruct (possible_pore_regions_shape settings r ext Hmodel Hext thr HD HP HN)
    as (regions' & Hr' & Hall & Hadj).
  rewrite Hr in Hr'. injection Hr' as <-.
  destruct (filter_ranges_shape r _ _ _ Hall Hadj Hf) as (Hall' & Hadj' & _).
  pose proof (size_nonneg (list_ascii_of_string (seq r))) as Hlen.
  rewrite wrap64_small in Hm by (unfold str_size in Hfit; lia).
  destruct (merged_regions r (end_flank settings + start_flank settings)
              filtered spacers ltac:(lia) ltac:(lia) Hall' Hadj' Hm)
    as [HallM Hsep].
  split; [exact HallM|]. split; [exact Hsep|].
  apply (separated_spacers_from r (end_flank settings + start_flank settings));
    try assumption; try lia.
  - intros x rest ->. inversion HallM as [|? ? (H0 & _) _]; subst. exact H0.
  - unfold str_size. lia.
Qed.

Ltac example_data_model :=
  unfold data_model, size; simpl; repeat split; try lia;
  repeat (apply Forall_cons; [auto|]); apply Forall_nil.

Ltac example_settings_fit :=
  unfold settings_fit, size, str_size; simpl; lia.

Lemma pore_regions_well_formed_witness :
  let r := Examples.stalled_read in
  let settings := Examples.example_settings true false in
  exists regions,
    possible_pore_regions settings
      (mk_ExtRead r (raw_data r) (move_cum_sums (moves r))) (pore_thr settings)
    = Ok regions /\
    Forall (region_in_seq r) regions /\ adjacent near_disjoint regions.
Proof.
  intros r settings.
  apply (pore_regions_well_formed (Ext := Reference.externals) settings r);
    [example_data_model | reflexivity | example_settings_fit].
Defined.

Lemma pore_adapter_spacers_witness :
  let r := Examples.stalled_read in
  Forall (region_in_seq r) [(0, 1); (0, 1)] /\
  adjacent near_disjoint [(0, 1); (0, 1)].
Proof.
  intros r.
  apply (pore_adapter_spacers (Ext := Reference.externals)
           (Examples.example_settings true false) r
           (mk_ExtRead r (raw_data r) (move_cum_sums (moves r))));
    [example_data_model | reflexivity | example_settings_fit
     | vm_compute; reflexivity].
Defined.

Lemma pore_flank_all_spacers_witness :
  let r := Scenarios.flank_read in
  Forall (region_in_seq r) [(3, 5)] /\ separated (2 + 2) [(3, 5)] /\
  spacers_from 0 (str_size (seq r)) [(3, 5)].
Proof.
  intros r.
  apply (pore_flank_all_spacers (Ext := Reference.externals)
           (Examples.example_settings true false) r
           (mk_ExtRead r (raw_data r) (move_cum_sums (moves r)))
           (pore_flank_finder (Examples.example_settings true false)));
    [example_data_model | reflexivity | example_settings_fit
     | left; reflexivity | vm_compute; reflexivity].
Defined.







(** ** The children of a cut *)

Lemma substring_nil (n m : nat) : substring n m EmptyString = EmptyString.
Proof. destruct n, m; reflexivity. Qed.

Lemma substring_length (s : string) (a n : nat) :
  (a + n <= String.length s)%nat -> String.length (substring a n s) = n.
Proof.
  revert a n. induction s as [|c s IH]; intros a n H.
  - simpl in H. assert (n = 0%nat) by lia. subst n. destruct a; reflexivity.
  - destruct a as [|a].
    + destruct n as [|n]; [reflexivity|]. simpl. rewrite IH; [reflexivity|].
      simpl in H. lia.
    + simpl. apply IH. simpl in H. lia.
Qed.

Lemma substring_join (s : string) (a n m : nat) :
  (substring a n s ++ substring (a + n) m s)%string = substring a (n + m) s.
Proof.
  revert a n. induction s as [|c s IH]; intros a n.
  - rewrite !substring_nil. reflexivity.
  - destruct a as [|a].
    + destruct n as [|n].
      * reflexivity.
      * cbn [substring Nat.add append]. f_equal. apply (IH 0%nat n).
    + cbn [substring Nat.add]. apply IH.
Qed.

Lemma substring_whole (s : string) : substring 0 (String.length s) s = s.
Proof. induction s as [|c s IH]; [reflexivity|]. simpl. rewrite IH. reflexivity. Qed.

Lemma sum_moves_app (l1 l2 : list Z) :
  sum_moves (l1 ++ l2) = sum_moves l1 + sum_moves l2.
Proof.
  induction l1 as [|x l1 IH]; [reflexivity|].
  cbn [app sum_moves fold_right]. fold (sum_moves (l1 ++ l2)). fold (sum_moves l1).
  lia.
Qed.

Lemma sum_moves_slice (l : list Z) (a b : nat) :
  (a <= b)%nat ->
  sum_moves (skipn a (firstn b l)) = sum_moves (firstn b l) - sum_moves (firstn a l).
Proof.
  intros Hab.
  rewrite <- (firstn_skipn a (firstn b l)) at 2.
  rewrite sum_moves_app, firstn_firstn, Nat.min_l by exact Hab. lia.
Qed.

Lemma sum_moves_bits (l : list Z) : bits l -> 0 <= sum_moves l <= size l.
Proof.
  induction 1 as [|m l Hm _ IH]; [unfold size; simpl; lia|].
  cbn [sum_moves fold_right]. fold (sum_moves l). rewrite size_cons.
  destruct Hm; lia.
Qed.

(** Entry [q] of the base boundaries is the stride of the move after which
    [q] bases have been emitted. *)
Lemma boundary_index (moves : list Z) (stride i0 : Z) (q : nat) (b : Z) :
  bits moves -> 0 <= i0 -> 0 < stride -> (i0 + size moves) * stride < 2 ^ 64 ->
  nth_error (base_boundaries i0 moves stride) q = Some b ->
  exists j : nat,
    (j < List.length moves)%nat /\ b = (i0 + Z.of_nat j) * stride /\
    sum_moves (firstn j moves) = Z.of_nat q.
Proof.
  intros Hbits. revert i0 q.
  induction Hbits as [|m rest Hm Hrest IH]; intros i0 q Hi Hs Hfit Hnth.
  - destruct q; discriminate.
  - rewrite size_cons in Hfit. pose proof (size_nonneg rest) as Hr.
    cbn [base_boundaries] in Hnth.
    assert (Hnext : forall q', nth_error (base_boundaries (i0 + 1) rest stride) q'
                               = Some b ->
              exists j : nat,
                (j < List.length (m :: rest))%nat /\
                b = (i0 + Z.of_nat j) * stride /\
                sum_moves (firstn j (m :: rest)) = m + Z.of_nat q').
    { intros q' H. destruct (IH (i0 + 1) q' ltac:(lia) Hs ltac:(lia) H)
        as (j & Hj & Hb & Hsum).
      exists (S j). split; [simpl; lia|]. split; [lia|].
      cbn [firstn sum_moves fold_right]. fold (sum_moves (firstn j rest)). lia. }
    destruct Hm as [-> | ->].
    + change (0 =? 1) with false in Hnth. cbv iota in Hnth.
      destruct (Hnext q Hnth) as (j & H1 & H2 & H3). exists j.
      repeat split; [exact H1 | exact H2 | lia].
    + change (1 =? 1) with true in Hnth. cbv iota in Hnth. destruct q as [|q].
      * cbn [nth_error] in Hnth. injection Hnth as <-. exists 0%nat.
        split; [simpl; lia|]. split; [rewrite wrap64_small by nia; lia|].
        reflexivity.
      * cbn [nth_error] in Hnth. destruct (Hnext q Hnth) as (j & H1 & H2 & H3).
        exists j. repeat split; [exact H1 | exact H2 | lia].
Qed.

Lemma tensor_slice_size {A : Type} (a b : Z) (t : list A) :
  0 <= a -> a <= b -> b <= size t -> size (tensor_slice a b t) = b - a.
Proof.
  intros Ha Hab Hb. unfold tensor_slice, size in *.
  rewrite !Z.min_l by lia. rewrite length_skipn, length_firstn. lia.
Qed.

Lemma slice_size {A : Type} (a b : nat) (l : list A) :
  (a <= b)%nat -> (b <= List.length l)%nat ->
  List.length (skipn a (firstn b l)) = (b - a)%nat.
Proof. intros Hab Hb. rewrite length_skipn, length_firstn. lia. Qed.

Section Children.
Context `{Ext : Externals}.
Variable r : Read.
Hypothesis model : data_model r.
Hypothesis sums : cumulative_sum_invariant r.
Hypothesis fits : read_fits r.

Lemma moves_not_empty : moves r <> [].
Proof.
  intros H. unfold cumulative_sum_invariant in sums. rewrite H in sums.
  discriminate.
Qed.

Lemma stride_range : 0 < model_stride r < 2 ^ 64.
Proof.
  destruct model as (Hs & _ & Hlen & Hn). pose proof moves_not_empty as Hne.
  destruct (moves r) as [|m rest]; [contradiction|].
  rewrite size_cons in Hlen. pose proof (size_nonneg rest). nia.
Qed.

Lemma moves_total : sum_moves (moves r) = str_size (seq r).
Proof.
  destruct model as (Hs & Hbits & Hlen & Hn). pose proof sums as Hsum.
  unfold cumulative_sum_invariant, move_cum_sums in Hsum.
  rewrite cum_sums_from_back in Hsum by exact moves_not_empty.
  pose proof (sum_moves_bits _ Hbits) as Hb.
  assert (E : forall a b : Z, Some a = Some b -> a = b)
    by (intros a b [=]; assumption).
  apply E in Hsum. rewrite wrap64_small in Hsum by nia. exact Hsum.
Qed.

Lemma seq_fits : str_size (seq r) < 2 ^ 64.
Proof.
  rewrite <- moves_total. destruct model as (Hs & Hbits & Hlen & Hn).
  pose proof (sum_moves_bits _ Hbits). pose proof stride_range. nia.
Qed.

Lemma moves_count : size (raw_data r) / model_stride r = size (moves r).
Proof.
  destruct model as (Hs & _ & Hlen & _). destruct fits as (Htail & _).
  symmetry. apply Z.div_unique with (r := size (raw_data r)
                                         - model_stride r * size (moves r)); lia.
Qed.

(** The move at which base [q] starts: as many bases are emitted before it. *)
Lemma sig_moves (q : Z) :
  0 <= q <= str_size (seq r) ->
  exists k : Z,
    seq_to_sig r q / model_stride r = k /\ 0 <= k <= size (moves r) /\
    sum_moves (firstn (Z.to_nat k) (moves r)) = q /\
    (q < str_size (seq r) -> seq_to_sig r q = k * model_stride r).
Proof.
  intros Hq. pose proof stride_range as Hstride.
  pose proof (size_nonneg (moves r)) as Hm.
  destruct (Z.eq_dec q (str_size (seq r))) as [-> | Hne].
  - exists (size (moves r)). rewrite (seq_to_sig_end r model sums).
    split; [apply moves_count|]. split; [lia|]. split; [|lia].
    unfold size. rewrite Nat2Z.id, firstn_all. apply moves_total.
  - pose proof (seq_to_sig_index r model sums q Hq) as Hidx.
    apply index_Ok in Hidx. destruct Hidx as [_ Hnth].
    pose proof (sig_map_size r model sums) as Hsz.
    destruct model as (Hs & Hbits & Hlen & Hn).
    unfold seq_to_sig_map, moves_to_map in Hnth, Hsz. rewrite size_app in Hsz.
    unfold size at 2 in Hsz. simpl List.length in Hsz.
    rewrite nth_error_app1 in Hnth by (unfold size in Hsz; lia).
    destruct (boundary_index (moves r) (model_stride r) 0 (Z.to_nat q)
                (seq_to_sig r q) Hbits (Z.le_refl 0) Hs ltac:(nia) Hnth)
      as (j & Hj & Hb & Hsum).
    exists (Z.of_nat j). rewrite Hb.
    replace ((0 + Z.of_nat j) * model_stride r) with (Z.of_nat j * model_stride r)
      by lia.
    split; [apply Z.div_mul; lia|]. split; [unfold size; lia|].
    split; [rewrite Nat2Z.id; lia | reflexivity].
Qed.

(** The factory on a child that is not empty, with the signal range the cut
    gives it: it returns, the child has the bases of its range, and its moves
    add up to their number. *)
Lemma subread_child (q0 q1 : Z) :
  0 <= q0 -> q0 < q1 -> q1 <= str_size (seq r) ->
  exists child,
    subread r (q0, q1) (seq_to_sig r q0, seq_to_sig r q1) = Ok child /\
    seq child = text (seq r) (q0, q1) /\
    moves child <> [] /\ sum_moves (moves child) = q1 - q0.
Proof.
  intros H0 H01 H1. pose proof stride_range as Hstride.
  destruct (sig_moves q0 ltac:(lia)) as (k0 & Hk0 & Hk0r & Hsum0 & Hsig0).
  destruct (sig_moves q1 ltac:(lia)) as (k1 & Hk1 & Hk1r & Hsum1 & Hsig1).
  specialize (Hsig0 ltac:(lia)).
  pose proof (seq_to_sig_mono r model sums q0 q1 H0 ltac:(lia) H1) as Hmono.
  pose proof (seq_to_sig_mono r model sums q1 (str_size (seq r)) ltac:(lia)
                H1 (Z.le_refl _)) as Hend.
  rewrite (seq_to_sig_end r model sums) in Hend.
  set (s0 := seq_to_sig r q0) in *. set (s1 := seq_to_sig r q1) in *.
  assert (Hs0 : 0 <= s0) by nia.
  assert (Hk01 : k0 <= k1).
  { rewrite <- Hk0, <- Hk1. apply Z.div_le_mono; lia. }
  destruct fits as (Htail & Hq & Hrate & Htrim & Hms & t & Ht).
  unfold subread, umod, udiv, assert.
  rewrite (wrap64_small (model_stride r)) by lia.
  replace (model_stride r =? 0) with false by (symmetry; apply Z.eqb_neq; lia).
  cbn [bind first second fst snd].
  change (num_trimmed_samples (copy_read r)) with (num_trimmed_samples r).
  change (sample_rate (copy_read r)) with (sample_rate r).
  change (attributes (copy_read r)) with (attributes r).
  change (seq (copy_read r)) with (seq r).
  change (qstring (copy_read r)) with (qstring r).
  change (moves (copy_read r)) with (moves r).
  change (raw_data (copy_read r)) with (raw_data r).
  replace (s0 mod model_stride r =? 0) with true
    by (symmetry; apply Z.eqb_eq; rewrite Hsig0; apply Z.mod_mul; lia).
  cbn [bind].
  assert (Hlast : q1 = str_size (seq r) -> s1 = size (raw_data r)).
  { intros ->. apply (seq_to_sig_end r model sums). }
  assert (Hsecond : (s1 mod model_stride r =? 0)
                    || (s1 =? size (raw_data r)) && (q1 =? str_size (seq r))
                    = true).
  { destruct (Z.eq_dec q1 (str_size (seq r))) as [He|Hne].
    - rewrite (Hlast He), He, !Z.eqb_refl. apply orb_true_r.
    - rewrite (Hsig1 ltac:(lia)), Z.mod_mul by lia. reflexivity. }
  rewrite Hsecond. cbn [bind].
  unfold samples_to_ms.
  replace (sample_rate r =? 0) with false by (symmetry; apply Z.eqb_neq; lia).
  rewrite (wrap64_small (num_trimmed_samples r + s0)) by lia.
  replace ((num_trimmed_samples r + s0) * 1000 / sample_rate r <? 2 ^ 64)
    with true
    by (symmetry; apply Z.ltb_lt; apply Z.div_lt_upper_bound; lia).
  cbn [bind]. unfold adjust_time_ms. rewrite Ht. cbn [bind].
  unfold substr. rewrite Hq.
  replace (q0 >? str_size (seq r)) with false
    by (symmetry; rewrite Z.gtb_ltb; apply Z.ltb_ge; lia).
  pose proof seq_fits as Hfit.
  rewrite (wrap64_small (q1 - q0)) by lia.
  rewrite Z.min_l by lia. cbn [bind].
  unfold vector_range. rewrite Hk0, Hk1.
  replace ((k0 <=? k1) && (k1 <=? size (moves r))) with true
    by (symmetry; apply andb_true_intro; split; apply Z.leb_le; lia).
  cbn [bind].
  assert (Hcount : size (skipn (Z.to_nat k0) (firstn (Z.to_nat k1) (moves r)))
                   = k1 - k0).
  { unfold size in *. rewrite slice_size by lia. lia. }
  assert (Hthird : (s1 =? size (raw_data r))
                   || (wrap64 (size (skipn (Z.to_nat k0)
                                       (firstn (Z.to_nat k1) (moves r)))
                               * model_stride r)
                       =? size (tensor_slice s0 s1 (raw_data r)))
                   = true).
  { destruct (Z.eq_dec q1 (str_size (seq r))) as [He|Hne].
    - rewrite (Hlast He), Z.eqb_refl. reflexivity.
    - rewrite Hcount, tensor_slice_size by lia.
      assert (Hbound : 0 <= (k1 - k0) * model_stride r < 2 ^ 64).
      { destruct model as (_ & _ & _ & Hn). pose proof (Hsig1 ltac:(lia)) as E.
        assert (0 <= k0 * model_stride r) by (apply Z.mul_nonneg_nonneg; lia).
        split; [apply Z.mul_nonneg_nonneg; lia|].
        rewrite Z.mul_sub_distr_r. lia. }
      rewrite wrap64_small by exact Hbound.
      rewrite (Hsig1 ltac:(lia)), Hsig0.
      replace ((k1 - k0) * model_stride r
               =? k1 * model_stride r - k0 * model_stride r) with true
        by (symmetry; apply Z.eqb_eq; lia).
      apply orb_true_r. }
  rewrite Hthird. cbn [bind].
  eexists. split; [reflexivity|]. cbn [seq moves].
  split; [reflexivity|].
  assert (Hsum : sum_moves (skipn (Z.to_nat k0) (firstn (Z.to_nat k1) (moves r)))
                 = q1 - q0).
  { rewrite sum_moves_slice by lia. lia. }
  split; [|exact Hsum].
  intros Hnil. rewrite Hnil in Hsum. cbn in Hsum. lia.
Qed.

Lemma subread_child_wraps (q0 q1 : Z) :
  0 <= q0 -> q0 < q1 -> q1 <= str_size (seq r) ->
  exists child,
    subread r (q0, q1) (seq_to_sig r q0, seq_to_sig r q1) = Ok child /\
    seq child = text (seq r) (q0, q1) /\ wraps child.
Proof.
  intros H0 H01 H1.
  destruct (subread_child q0 q1 H0 H01 H1) as (child & Hc & Hseq & Hne & Hsum).
  exists child. split; [exact Hc|]. split; [exact Hseq|].
  unfold wraps, ExtRead_new, move_cum_sums.
  rewrite cum_sums_from_back by exact Hne. rewrite Hsum, Hseq.
  pose proof seq_fits as Hfit.
  unfold text, first, second, str_size in *. cbn [fst snd].
  rewrite substring_length by lia.
  rewrite wrap64_small by lia.
  replace (0 + (q1 - q0) =? Z.of_nat (Z.to_nat (q1 - q0))) with true
    by (symmetry; apply Z.eqb_eq; lia).
  eexists. reflexivity.
Qed.

Lemma children_non_empty_lt (lo hi : Z) (spacers : list PosRange) :
  children_non_empty lo hi spacers -> lo < hi.
Proof.
  revert lo. induction spacers as [|sp rest IH]; intros lo; [trivial|].
  intros (H1 & H2 & H3). specialize (IH _ H3). lia.
Qed.

Lemma children_non_empty_spacers (lo hi : Z) (spacers : list PosRange) :
  children_non_empty lo hi spacers -> spacers_from lo hi spacers.
Proof.
  revert lo. induction spacers as [|sp rest IH]; intros lo; cbn; [lia|].
  intros (H1 & H2 & H3). split; [lia|]. split; [exact H2 | apply IH; exact H3].
Qed.

(** The factory returns on every child of spacers that leave no child
    empty, and every child it makes can be wrapped. *)
Lemma children_made (spacers : list PosRange) (q : Z) :
  0 <= q -> children_non_empty q (str_size (seq r)) spacers ->
  exists made,
    mapM (fun qs => subread r (fst qs) (snd qs))
      (map (fun c => (c, image (seq_to_sig r) c))
         (child_ranges spacers q (str_size (seq r))))
    = Ok made /\
    Forall wraps made /\
    Forall2 (fun c child => seq child = text (seq r) c)
      (child_ranges spacers q (str_size (seq r))) made.
Proof.
  revert q. induction spacers as [|sp rest IH]; intros q Hq Hsp.
  - cbn in Hsp. cbn [child_ranges map mapM fst snd].
    destruct (subread_child_wraps q (str_size (seq r)) Hq Hsp (Z.le_refl _))
      as (child & Hc & Hseq & Hw).
    change (image (seq_to_sig r) (q, str_size (seq r)))
      with (seq_to_sig r q, seq_to_sig r (str_size (seq r))).
    rewrite Hc. cbn [bind]. exists [child]. split; [reflexivity|].
    split; constructor; try assumption; constructor.
  - destruct Hsp as (H1 & H2 & H3). pose proof (children_non_empty_lt _ _ _ H3) as H4.
    cbn [child_ranges map mapM fst snd].
    destruct (subread_child_wraps q (first sp) Hq H1 ltac:(lia))
      as (child & Hc & Hseq & Hw).
    change (image (seq_to_sig r) (q, first sp))
      with (seq_to_sig r q, seq_to_sig r (first sp)).
    rewrite Hc. cbn [bind].
    destruct (IH (second sp) ltac:(lia) H3) as (made & Hm & Hws & Hseqs).
    rewrite Hm. cbn [bind]. exists (child :: made). split; [reflexivity|].
    split; constructor; assumption.
Qed.

End Children.

(** What [split] does with the factory follows from the ranges it records
    and from what the factory returns on them. *)
Lemma split_loop_made `{Ext : Externals} {X : Type} (r : Read)
    (factory : Read -> PosRange -> PosRange -> result X)
    (spacers : list PosRange) (q s : Z) (acc made : list X)
    (ranges : list (PosRange * PosRange)) :
  split_loop record_ranges r (seq_to_sig_map r) spacers q s [] = Ok ranges ->
  mapM (fun qs => factory r (fst qs) (snd qs)) ranges = Ok made ->
  split_loop factory r (seq_to_sig_map r) spacers q s acc = Ok (acc ++ made).
Proof.
  revert q s acc made ranges.
  induction spacers as [|sp rest IH]; intros q s acc made ranges.
  - cbn [split_loop].
    destruct (index (seq_to_sig_map r) (str_size (seq r))); [|discriminate].
    cbn [bind]. destruct (assert _); [|discriminate]. cbn [bind record_ranges app].
    intros [= <-]. cbn [mapM fst snd].
    destruct (factory r _ _); [|discriminate]. cbn [bind].
    intros [= <-]. reflexivity.
  - cbn [split_loop].
    destruct (index (seq_to_sig_map r) (first sp)); [|discriminate].
    cbn [bind record_ranges].
    destruct (index (seq_to_sig_map r) (second sp)); [|discriminate].
    cbn [bind]. rewrite split_loop_record_acc.
    destruct (split_loop record_ranges r (seq_to_sig_map r) rest (second sp) _ [])
      as [l|] eqn:Hl; [|discriminate].
    cbn [bind app]. intros [= <-]. cbn [mapM fst snd].
    destruct (factory r _ _) as [x|]; [|discriminate]. cbn [bind].
    destruct (mapM _ l) as [made'|] eqn:Hm; [|discriminate]. cbn [bind].
    intros [= <-]. rewrite (IH _ _ (acc ++ [x]) made' l Hl Hm).
    rewrite <- app_assoc. reflexivity.
Qed.

(** X19.  On spacers that are sorted, disjoint and leave no child empty,
    [split] returns: no assertion of the factory fails, there is one child
    more than there are spacers, every child has the bases of its range,
    and every child passes the assertion of the [ExtRead] constructor, its
    moves adding up to the length of its sequence. *)
Theorem split_children_wrap `{Ext : Externals} (r : Read)
    (spacers : list PosRange) :
  data_model r -> cumulative_sum_invariant r -> read_fits r ->
  children_non_empty 0 (str_size (seq r)) spacers ->
  exists children,
    split r spacers = Ok children /\
    List.length children = (List.length spacers + 1)%nat /\
    Forall wraps children /\
    Forall2 (fun c child => seq child = text (seq r) c)
      (child_ranges spacers 0 (str_size (seq r))) children.
Proof.
  intros Hmodel Hsums Hfits Hsp.
  destruct spacers as [|sp rest].
  - exists [r]. split; [reflexivity|]. split; [reflexivity|]. split.
    + constructor; [|constructor]. unfold wraps, ExtRead_new.
      unfold cumulative_sum_invariant in Hsums. rewrite Hsums, Z.eqb_refl.
      eexists. reflexivity.
    + constructor; [|constructor]. unfold text, first, second. cbn [fst snd].
      unfold str_size. rewrite Z.sub_0_r, Nat2Z.id. symmetry.
      apply substring_whole.
  - destruct (children_made r Hmodel Hsums Hfits (sp :: rest) 0 (Z.le_refl 0) Hsp)
      as (made & Hm & Hws & Hseqs).
    pose proof (split_loop_record r Hmodel Hsums (sp :: rest) 0 (Z.le_refl 0)
                  (children_non_empty_spacers _ _ _ Hsp)) as Hrec.
    assert (Hsplit : split r (sp :: rest) = Ok made).
    { unfold split, cut. fold_sig_map r.
      rewrite (seq_to_sig_index r Hmodel Hsums 0)
        by (pose proof (children_non_empty_lt _ _ _ Hsp); lia).
      cbn [bind]. apply (split_loop_made r subread _ _ _ [] made _ Hrec Hm). }
    exists made. split; [exact Hsplit|]. split; [apply (split_length _ _ _ Hsplit)|].
    split; assumption.
Qed.

Lemma split_children_wrap_witness :
  let r := Scenarios.cut_read in
  exists children,
    split r [(3, 5)] = Ok children /\
    List.length children = 2%nat /\ Forall wraps children.
Proof.
  intros r.
  destruct (split_children_wrap (Ext := Reference.externals) r [(3, 5)])
    as (children & H1 & H2 & H3 & _).
  - example_data_model.
  - reflexivity.
  - unfold read_fits. split; [unfold size; simpl; lia|].
    split; [reflexivity|]. split; [simpl; lia|]. split; [simpl; lia|].
    split; [unfold size; simpl; lia|].
    eexists. vm_compute. reflexivity.
  - unfold first, second, str_size. simpl. lia.
  - exists children. repeat split; assumption.
Defined.

(** The fields of a subread besides those of [subread_fields]: the moves,
    what is copied from the read and what [copy_read] leaves at its initial
    value. *)
Lemma subread_frame `{Ext : Externals} (r child : Read) (q s : PosRange) :
  subread r q s = Ok child ->
  vector_range (moves r) (first s / wrap64 (model_stride r))
    (second s / wrap64 (model_stride r)) = Ok (moves child) /\
  (digitisation child, range child, offset child, sample_rate child,
   shift child, scale child, scaling child)
  = (digitisation r, range r, offset r, sample_rate r, shift r, scale r,
     scaling r) /\
  (num_chunks child, num_modbase_chunks child, model_stride child,
   base_mod_probs child, run_id child, model_name child)
  = (num_chunks r, num_modbase_chunks r, model_stride r, base_mod_probs r,
     run_id r, model_name r) /\
  (mux (attributes child), channel_number (attributes child),
   fast5_filename (attributes child), num_samples (attributes child))
  = (mux (attributes r), channel_number (attributes r),
     fast5_filename (attributes r), num_samples (attributes r)) /\
  (flowcell_id child, start_time_ms child, start_sample child, end_sample child,
   run_acqusition_start_time_ms child)
  = (EmptyString, 0, 0, 0, 0).
Proof.
  unfold subread, umod, udiv, assert.
  destruct (wrap64 (model_stride r) =? 0); [discriminate|]. cbn [bind].
  destruct (_ =? 0); [|discriminate].
  cbn [bind]. destruct (_ || _)%bool; [|discriminate]. cbn [bind].
  destruct (samples_to_ms _ _); [|discriminate]. cbn [bind].
  destruct (adjust_time_ms _ _); [|discriminate]. cbn [bind].
  destruct (substr (seq (copy_read r)) _ _); [|discriminate]. cbn [bind].
  destruct (substr (qstring (copy_read r)) _ _); [|discriminate]. cbn [bind].
  change (moves (copy_read r)) with (moves r).
  destruct (vector_range _ _ _) as [new_moves|]; [|discriminate]. cbn [bind].
  destruct (_ || _)%bool; [|discriminate]. cbn [bind].
  intros [= <-]. cbn. repeat split.
Qed.

Lemma derive_uuid_syntax (id desc : string) :
  is_uuid_v4 (derive_uuid id desc) = true.
Proof.
  destruct (SHA256_facts.digest_prefix (bytes_of_string id ++ bytes_of_string desc))
    as (b0 & b1 & b2 & b3 & b4 & b5 & b6 & b7 & b8 & b9 & b10 & b11 & b12 &
        b13 & b14 & b15 & Hpre & Hbytes).
  unfold derive_uuid, SHA256.SHA256_Final, SHA256.SHA256_Update,
    SHA256.SHA256_Init. cbv zeta. rewrite app_nil_l, Hpre.
  apply uuid_loop_v4. exact Hbytes.
Qed.

(** The sequence ranges [split] passes to the factory are the child ranges,
    whatever the map. *)
Lemma split_loop_seq_ranges `{Ext : Externals} (r : Read)
    (spacers : list PosRange) (q s : Z) (ranges : list (PosRange * PosRange)) :
  split_loop record_ranges r (seq_to_sig_map r) spacers q s [] = Ok ranges ->
  map fst ranges = child_ranges spacers q (str_size (seq r)).
Proof.
  revert q s ranges. induction spacers as [|sp rest IH]; intros q s ranges.
  - cbn [split_loop].
    destruct (index (seq_to_sig_map r) (str_size (seq r))); [|discriminate].
    cbn [bind]. destruct (assert _); [|discriminate]. cbn [bind record_ranges app].
    intros [= <-]. reflexivity.
  - cbn [split_loop].
    destruct (index (seq_to_sig_map r) (first sp)); [|discriminate].
    cbn [bind record_ranges].
    destruct (index (seq_to_sig_map r) (second sp)); [|discriminate].
    cbn [bind]. rewrite split_loop_record_acc.
    destruct (split_loop record_ranges r (seq_to_sig_map r) rest (second sp) _ [])
      as [l|] eqn:Hl; [|discriminate].
    cbn [bind app]. intros [= <-]. cbn [map fst child_ranges].
    rewrite (IH _ _ _ Hl). reflexivity.
Qed.

Lemma mapM_Forall2 {A B : Type} (f : A -> result B) (l : list A) (out : list B) :
  mapM f l = Ok out -> Forall2 (fun a b => f a = Ok b) l out.
Proof.
  revert out. induction l as [|a l IH]; intros out.
  - intros [= <-]. constructor.
  - cbn [mapM]. destruct (f a) as [b|] eqn:Hb; [|discriminate]. cbn [bind].
    destruct (mapM f l) as [bs|]; [|discriminate]. cbn [bind].
    intros [= <-]. constructor; [exact Hb | apply IH; reflexivity].
Qed.

Lemma Forall2_map_l {A B C : Type} (g : A -> B) (P : B -> C -> Prop)
    (l : list A) (out : list C) :
  Forall2 (fun a c => P (g a) c) l out -> Forall2 P (map g l) out.
Proof. induction 1; constructor; assumption. Qed.

(** The children [split] returns for spacers are the subreads of the child
    ranges, each for some signal range. *)
Lemma split_children `{Ext : Externals} (r : Read) (sp : PosRange)
    (rest : list PosRange) (children : list Read) :
  split r (sp :: rest) = Ok children ->
  Forall2 (fun c child => exists s, subread r c s = Ok child)
    (child_ranges (sp :: rest) 0 (str_size (seq r))) children.
Proof.
  unfold split, cut. fold_sig_map r.
  destruct (index (seq_to_sig_map r) 0) as [s0|]; [|discriminate]. cbn [bind].
  intros H. destruct (split_loop_factory r subread _ _ _ _ _ H)
    as (ranges & made & Hr & Hm & ->).
  rewrite <- (split_loop_seq_ranges r _ _ _ _ Hr). cbn [app].
  apply Forall2_map_l. apply mapM_Forall2 in Hm.
  eapply Forall2_impl; [|exact Hm]. intros [c s] child Hc. exists s. exact Hc.
Qed.

Lemma substr_text (s piece : string) (c : PosRange) :
  str_size s < 2 ^ 64 ->
  0 <= first c -> first c <= second c -> second c <= str_size s ->
  substr s (first c) (wrap64 (second c - first c)) = Ok piece ->
  piece = text s c.
Proof.
  intros Hs H0 H1 H2. unfold substr, text.
  replace (first c >? str_size s) with false
    by (symmetry; rewrite Z.gtb_ltb; apply Z.ltb_ge; lia).
  rewrite wrap64_small by lia. rewrite Z.min_l by lia.
  intros [= <-]. reflexivity.
Qed.

(** The pieces of a string cut at spacers, woven with the spacers, are the
    string from the first piece on. *)
Lemma weave_pieces {A : Type} (s : string) (piece : A -> string)
    (spacers : list PosRange) (q : Z) (made : list A) :
  0 <= q -> spacers_from q (str_size s) spacers ->
  Forall2 (fun c child => piece child = text s c)
    (child_ranges spacers q (str_size s)) made ->
  weave (map piece made) (map (text s) spacers)
  = substring (Z.to_nat q) (Z.to_nat (str_size s - q)) s.
Proof.
  revert q made. induction spacers as [|sp rest IH]; intros q made Hq Hsp Hall.
  - cbn [child_ranges] in Hall. inversion Hall as [|? child ? ? Hc Hnil]; subst.
    inversion Hnil; subst. cbn [map weave]. rewrite Hc. reflexivity.
  - destruct Hsp as (H1 & H2 & H3). pose proof (spacers_from_le _ _ _ H3) as H4.
    cbn [child_ranges] in Hall. inversion Hall as [|? child ? made' Hc Hrest]; subst.
    cbn [map weave]. rewrite (IH (second sp) made' ltac:(lia) H3 Hrest), Hc.
    unfold text, first, second in *. cbn [fst snd].
    replace (Z.to_nat (fst sp)) with (Z.to_nat q + Z.to_nat (fst sp - q))%nat by lia.
    replace (Z.to_nat (snd sp))
      with (Z.to_nat q + Z.to_nat (fst sp - q) + Z.to_nat (snd sp - fst sp))%nat
      at 1 by lia.
    rewrite (substring_join s (Z.to_nat q + Z.to_nat (fst sp - q))).
    rewrite (substring_join s (Z.to_nat q)). f_equal. lia.
Qed.

(** X20.  A cut loses no base: the sequences of the children [split]
    returns, woven with the bases of the spacers, are the sequence of the
    read, and so are the quality strings. *)
Theorem split_reassembles `{Ext : Externals} (r : Read)
    (spacers : list PosRange) (children : list Read) :
  str_size (seq r) < 2 ^ 64 -> str_size (qstring r) = str_size (seq r) ->
  spacers_from 0 (str_size (seq r)) spacers ->
  split r spacers = Ok children ->
  weave (map seq children) (map (text (seq r)) spacers) = seq r /\
  weave (map qstring children) (map (text (qstring r)) spacers) = qstring r.
Proof.
  intros Hlen Hq Hsp Hsplit.
  destruct spacers as [|sp rest].
  - injection Hsplit as <-. split; reflexivity.
  - pose proof (split_children r sp rest children Hsplit) as Hch.
    pose proof (child_ranges_bounds (sp :: rest) 0 _ (Z.le_refl 0) Hsp) as Hb.
    assert (Hpieces :
      Forall2 (fun c child => seq child = text (seq r) c /\
                              qstring child = text (qstring r) c)
        (child_ranges (sp :: rest) 0 (str_size (seq r))) children).
    { clear Hsplit Hsp. revert Hb Hch.
      generalize (child_ranges (sp :: rest) 0 (str_size (seq r))).
      intros l Hb Hch. induction Hch as [|c child l' ch' [s Hc] _ IH];
        [constructor|].
      inversion Hb as [|? ? (Hc0 & Hc1 & Hc2) Hb']; subst.
      constructor; [|apply IH; exact Hb'].
      destruct (subread_fields r child c s Hc) as (_ & _ & Hs1 & Hs2 & _).
      split; eapply substr_text; try eassumption; lia. }
    split.
    + rewrite (weave_pieces (seq r) seq (sp :: rest) 0 children (Z.le_refl 0) Hsp).
      * rewrite Z.sub_0_r. unfold str_size. rewrite Nat2Z.id.
        apply substring_whole.
      * eapply Forall2_impl; [|exact Hpieces]. intros c child [H _]. exact H.
    + rewrite <- Hq in Hsp, Hpieces.
      rewrite (weave_pieces (qstring r) qstring (sp :: rest) 0 children
                 (Z.le_refl 0) Hsp).
      * rewrite Z.sub_0_r. unfold str_size. rewrite Nat2Z.id.
        apply substring_whole.
      * eapply Forall2_impl; [|exact Hpieces]. intros c child [_ H]. exact H.
Qed.

Lemma split_reassembles_witness :
  let r := Scenarios.cut_read in
  exists children,
    split r [(3, 5)] = Ok children /\
    weave (map seq children) [text (seq r) (3, 5)] = seq r.
Proof.
  intros r.
  destruct (split r [(3, 5)]) as [children|e] eqn:Hsplit;
    [|vm_compute in Hsplit; discriminate].
  exists children. split; [reflexivity|].
  apply (split_reassembles (Ext := Reference.externals) r [(3, 5)] children);
    [unfold str_size; simpl; lia | reflexivity
     | unfold first, second, str_size; simpl; lia | exact Hsplit].
Defined.

(** X21.  The children of a cut: each is the subread of its child range; its
    [read_id] is the version 4 identifier derived from the [read_id] of the
    read and the text of the range, its [parent_read_id] is still empty, its
    trimmed samples are counted in its start time and set to 0, and the
    fields [copy_read] does not copy ([flowcell_id], [start_time_ms],
    [start_sample], [end_sample], [run_acqusition_start_time_ms]) are at
    their initial value, whatever they were in the read. *)
Theorem split_children_identity `{Ext : Externals} (r : Read) (sp : PosRange)
    (rest : list PosRange) (children : list Read) :
  split r (sp :: rest) = Ok children ->
  Forall2
    (fun c child =>
       read_id child
       = derive_uuid (read_id r)
           (to_string (first c) ++ "-" ++ to_string (second c)) /\
       is_uuid_v4 (read_id child) = true /\
       parent_read_id child = EmptyString /\
       num_trimmed_samples child = 0 /\
       read_number (attributes child) = UINT32_MAX /\
       (run_id child, model_name child, model_stride child, sample_rate child)
       = (run_id r, model_name r, model_stride r, sample_rate r) /\
       (flowcell_id child, start_time_ms child, start_sample child,
        end_sample child, run_acqusition_start_time_ms child)
       = (EmptyString, 0, 0, 0, 0))
    (child_ranges (sp :: rest) 0 (str_size (seq r))) children.
Proof.
  intros Hsplit. pose proof (split_children r sp rest children Hsplit) as Hch.
  eapply Forall2_impl; [|exact Hch]. intros c child [s Hc].
  destruct (subread_fields r child c s Hc) as (Hid & _ & _ & _ & Ht & Hn & Hp & _).
  destruct (subread_frame r child c s Hc) as (_ & H1 & H2 & _ & H4).
  split; [exact Hid|]. split; [rewrite Hid; apply derive_uuid_syntax|].
  split; [exact Hp|]. split; [exact Ht|]. split; [exact Hn|].
  split; [|exact H4].
  injection H1 as _ _ _ Hrate _ _ _. injection H2 as _ _ Hstride _ Hrun Hname.
  congruence.
Qed.

Lemma split_children_identity_witness :
  let r := Scenarios.cut_read in
  exists children,
    split r [(3, 5)] = Ok children /\
    Forall2
      (fun c child =>
         read_id child
         = derive_uuid (read_id r)
             (to_string (first c) ++ "-" ++ to_string (second c)) /\
         is_uuid_v4 (read_id child) = true /\
         parent_read_id child = EmptyString /\
         num_trimmed_samples child = 0 /\
         read_number (attributes child) = UINT32_MAX /\
         (run_id child, model_name child, model_stride child, sample_rate child)
         = (run_id r, model_name r, model_stride r, sample_rate r) /\
         (flowcell_id child, start_time_ms child, start_sample child,
          end_sample child, run_acqusition_start_time_ms child)
         = (EmptyString, 0, 0, 0, 0))
      [(0, 3); (5, 8)] children.
Proof.
  intros r.
  destruct (split r [(3, 5)]) as [children|e] eqn:Hsplit;
    [|vm_compute in Hsplit; discriminate].
  exists children. split; [reflexivity|].
  exact (split_children_identity (Ext := Reference.externals)
           r (3, 5) [] children Hsplit).
Defined.

Lemma slice_empty {A : Type} (k : nat) (l : list A) : skipn k (firstn k l) = [].
Proof. apply skipn_all2. apply firstn_le_length. Qed.

(** X22.  A spacer that starts at position 0 leaves an empty first child:
    [split] makes it with no base and no move, and the worker, which wraps
    every child in an [ExtRead], reads [back()] of its empty vector of
    cumulative sums. *)
Theorem split_spacer_at_start `{Ext : Externals} (r : Read) (b : Z)
    (rest : list PosRange) (children : list Read) :
  split r ((0, b) :: rest) = Ok children ->
  exists child others,
    children = child :: others /\
    seq child = EmptyString /\ moves child = [] /\
    ExtRead_new child = Err UndefinedBehaviour /\
    mapM ExtRead_new children = Err UndefinedBehaviour.
Proof.
  unfold split, cut. fold_sig_map r.
  destruct (index (seq_to_sig_map r) 0) as [s0|] eqn:H0; [|discriminate].
  cbn [bind split_loop first second fst snd]. rewrite H0. cbn [bind].
  destruct (subread r (0, 0) (s0, s0)) as [child|] eqn:Hc; [|discriminate].
  cbn [bind]. destruct (index (seq_to_sig_map r) b); [|discriminate].
  cbn [bind app]. intros H.
  destruct (split_loop_factory r subread _ _ _ _ _ H) as (ranges & made & _ & _ & ->).
  destruct (subread_fields r child _ _ Hc) as (_ & _ & Hseq & _).
  destruct (subread_frame r child _ _ Hc) as (Hmoves & _).
  assert (Hs : seq child = EmptyString).
  { unfold substr, first, second in Hseq. cbn [fst snd] in Hseq.
    destruct (0 >? str_size (seq r)); [discriminate|].
    change (wrap64 (0 - 0)) with 0 in Hseq.
    rewrite Z.min_l in Hseq by (unfold str_size; lia).
    injection Hseq as <-. destruct (seq r); reflexivity. }
  assert (Hm : moves child = []).
  { unfold vector_range, first, second in Hmoves. cbn [fst snd] in Hmoves.
    destruct (_ && _)%bool; [|discriminate].
    injection Hmoves as <-. apply slice_empty. }
  assert (He : ExtRead_new child = Err UndefinedBehaviour).
  { unfold ExtRead_new. rewrite Hm. reflexivity. }
  exists child, made. split; [reflexivity|]. split; [exact Hs|].
  split; [exact Hm|]. split; [exact He|].
  cbn [app mapM]. rewrite He. reflexivity.
Qed.

Lemma split_spacer_at_start_witness :
  exists child others,
    split Examples.stalled_read [(0, 1)] = Ok (child :: others) /\
    ExtRead_new child = Err UndefinedBehaviour.
Proof.
  destruct (split Examples.stalled_read [(0, 1)]) as [children|e] eqn:Hsplit;
    [|vm_compute in Hsplit; discriminate].
  destruct (split_spacer_at_start (Ext := Reference.externals)
              Examples.stalled_read 1 [] children Hsplit)
    as (child & others & -> & _ & _ & He & _).
  exists child, others. split; [reflexivity | exact He].
Defined.

(** X23.  The start time of a subread is the start time of the read moved
    by the samples before the subread, those trimmed from the read
    included, at the sample rate of the read, in whole milliseconds rounded
    down (the thousandfold of the samples being below 2^53, where the
    double-precision quotient of the source is exact). *)
Theorem subread_start_time `{Ext : Externals} (r child : Read) (q s : PosRange) :
  subread r q s = Ok child ->
  0 < sample_rate r -> 0 <= num_trimmed_samples r + first s ->
  (num_trimmed_samples r + first s) * 1000 < 2 ^ 53 ->
  exists m,
    get_unix_time_from_string_timestamp (start_time (attributes r)) = Ok m /\
    let offset_ms := (num_trimmed_samples r + first s) * 1000 / sample_rate r in
    (- 2 ^ 63 <= m + offset_ms < 2 ^ 63 ->
     start_time (attributes child)
     = get_string_timestamp_from_unix_time (m + offset_ms)).
Proof.
  intros Hsub Hrate Hpos Hexact.
  assert (Hsamples : 0 <= num_trimmed_samples r + first s < 2 ^ 64) by lia.
  revert Hsub.
  unfold subread, umod, udiv, assert.
  destruct (wrap64 (model_stride r) =? 0); [discriminate|]. cbn [bind].
  destruct (_ =? 0); [|discriminate].
  cbn [bind]. destruct (_ || _)%bool; [|discriminate]. cbn [bind].
  change (num_trimmed_samples (copy_read r)) with (num_trimmed_samples r).
  change (sample_rate (copy_read r)) with (sample_rate r).
  change (attributes (copy_read r)) with (attributes r).
  rewrite (wrap64_small _ Hsamples). unfold samples_to_ms.
  replace (sample_rate r =? 0) with false by (symmetry; apply Z.eqb_neq; lia).
  destruct (_ <? 2 ^ 64); [|discriminate]. cbn [bind].
  unfold adjust_time_ms.
  destruct (get_unix_time_from_string_timestamp (start_time (attributes r)))
    as [m|]; [|discriminate].
  cbn [bind]. destruct (substr (seq (copy_read r)) _ _); [|discriminate].
  cbn [bind]. destruct (substr (qstring (copy_read r)) _ _); [|discriminate].
  cbn [bind]. destruct (vector_range _ _ _); [|discriminate]. cbn [bind].
  destruct (_ || _)%bool; [|discriminate]. cbn [bind].
  intros [= <-]. exists m. split; [reflexivity|]. cbv zeta. intros Hfit.
  cbn [attributes start_time]. rewrite to_int64_small by exact Hfit.
  reflexivity.
Qed.

Lemma subread_start_time_witness :
  exists child,
    subread Scenarios.cut_read (5, 8) (10, 16) = Ok child /\
    start_time (attributes child) = "2023-01-01T00:00:00.2+00:00"%string.
Proof.
  destruct (subread Scenarios.cut_read (5, 8) (10, 16)) as [child|e] eqn:Hsub;
    [|vm_compute in Hsub; discriminate].
  exists child. split; [reflexivity|].
  destruct (subread_start_time (Ext := Reference.externals)
              Scenarios.cut_read child (5, 8) (10, 16) Hsub)
    as (m & Hm & Ht);
    [simpl; lia | unfold first; simpl; lia | unfold first; simpl; lia |].
  vm_compute in Hm. injection Hm as <-.
  rewrite Ht; [vm_compute; reflexivity | simpl; lia].
Defined.



(** ** The invariant of the working set *)

Lemma ExtRead_new_read `{Ext : Externals} (r : Read) (ext : ExtRead) :
  ExtRead_new r = Ok ext -> read ext = r /\ cumulative_sum_invariant r.
Proof.
  unfold ExtRead_new, cumulative_sum_invariant.
  destruct (back (move_cum_sums (moves r))) as [s|]; [|discriminate].
  unfold assert. destruct (s =? str_size (seq r)) eqn:E; [|discriminate].
  apply Z.eqb_eq in E. subst s. cbn [bind]. intros [= <-].
  split; reflexivity.
Qed.

Lemma mapM_wrapped `{Ext : Externals} (subreads : list Read)
    (wrapped : list ExtRead) :
  mapM ExtRead_new subreads = Ok wrapped ->
  Forall (fun e => cumulative_sum_invariant (read e)) wrapped.
Proof.
  intros H. apply mapM_Forall2 in H. induction H as [|r e l l' Hr _ IH];
    constructor; [|exact IH].
  destruct (ExtRead_new_read r e Hr) as [-> Hinv]. exact Hinv.
Qed.

Lemma split_round_invariant `{Ext : Externals} (f : SplitFinderF)
    (to_split acc out : list ExtRead) :
  Forall (fun e => cumulative_sum_invariant (read e)) to_split ->
  Forall (fun e => cumulative_sum_invariant (read e)) acc ->
  split_round f to_split acc = Ok out ->
  Forall (fun e => cumulative_sum_invariant (read e)) out.
Proof.
  revert acc. induction to_split as [|r rest IH]; intros acc Hts Hacc.
  - intros [= <-]. exact Hacc.
  - inversion Hts as [|? ? Hr Hrest]; subst. cbn [split_round].
    destruct (f r) as [spacers|]; [|discriminate]. cbn [bind].
    destruct spacers as [|sp spacers].
    + apply IH; [exact Hrest|]. apply Forall_app. split; [exact Hacc|].
      constructor; [exact Hr | constructor].
    + destruct (split (read r) (sp :: spacers)) as [subreads|]; [|discriminate].
      cbn [bind]. destruct (mapM ExtRead_new subreads) as [wrapped|] eqn:Hw;
        [|discriminate].
      cbn [bind]. apply IH; [exact Hrest|]. apply Forall_app.
      split; [exact Hacc | apply (mapM_wrapped _ _ Hw)].
Qed.

Lemma split_rounds_invariant `{Ext : Externals}
    (finders : list (string * SplitFinderF)) (to_split out : list ExtRead) :
  Forall (fun e => cumulative_sum_invariant (read e)) to_split ->
  split_rounds finders to_split = Ok out ->
  Forall (fun e => cumulative_sum_invariant (read e)) out.
Proof.
  revert to_split. induction finders as [|[name f] rest IH]; intros to_split Hts.
  - intros [= <-]. exact Hts.
  - cbn [split_rounds].
    destruct (split_round f to_split []) as [res|] eqn:Hr; [|discriminate].
    cbn [bind]. apply IH.
    apply (split_round_invariant f to_split [] res Hts (Forall_nil _) Hr).
Qed.

(** X25.  Every read the enabled node pushes has moves that add up to the
    length of its sequence: the working set holds only reads that passed
    the assertion of the [ExtRead] constructor, the children of every cut
    included. *)
Theorem node_keeps_cumulative_sum_invariant `{Ext : Externals}
    (settings : DuplexSplitSettings) (queue out : list Message)
    (e : option failure) :
  enabled settings = true ->
  DuplexSplitNode settings queue = (out, e) ->
  Forall (fun msg => exists child,
            msg = MsgRead child /\ cumulative_sum_invariant child)
         out.
Proof.
  intros Hon. unfold DuplexSplitNode.
  generalize (build_split_finders settings). intros finders.
  assert (Hgen : forall sink,
            Forall (fun msg => exists child,
                      msg = MsgRead child /\ cumulative_sum_invariant child) sink ->
            worker_thread settings finders queue sink = (out, e) ->
            Forall (fun msg => exists child,
                      msg = MsgRead child /\ cumulative_sum_invariant child) out).
  { induction queue as [|message rest IH]; intros sink Hsink.
    - intros [= <- _]. exact Hsink.
    - cbn [worker_thread]. rewrite Hon. cbn [negb].
      destruct message as [init_read| |]; try (intros [= <- _]; exact Hsink).
      destruct (process_read finders init_read) as [pushed|] eqn:Hp;
        [|intros [= <- _]; exact Hsink].
      apply IH. apply Forall_app. split; [exact Hsink|].
      unfold process_read in Hp.
      destruct (ExtRead_new init_read) as [ext|] eqn:Hext; [|discriminate].
      cbn [bind] in Hp.
      destruct (split_rounds finders [ext]) as [to_split|] eqn:Hr; [|discriminate].
      cbn [bind] in Hp. injection Hp as <-.
      destruct (ExtRead_new_read _ _ Hext) as [Hread Hinv].
      assert (Hall : Forall (fun e => cumulative_sum_invariant (read e)) to_split).
      { apply (split_rounds_invariant finders [ext] to_split); [|exact Hr].
        constructor; [rewrite Hread; exact Hinv | constructor]. }
      apply Forall_map. eapply Forall_impl; [|exact Hall].
      intros sub Hsub. eexists. split; [reflexivity|]. exact Hsub. }
  apply Hgen. constructor.
Qed.

Lemma node_keeps_cumulative_sum_invariant_witness :
  exists out,
    DuplexSplitNode (Examples.example_settings true false)
      [MsgRead Scenarios.flank_read] = (out, None) /\
    Forall (fun msg => exists child,
              msg = MsgRead child /\ cumulative_sum_invariant child)
           out.
Proof.
  destruct (DuplexSplitNode (Examples.example_settings true false)
              [MsgRead Scenarios.flank_read]) as [out e] eqn:Hrun.
  assert (He : e = None).
  { apply (f_equal snd) in Hrun. vm_compute in Hrun. symmetry. exact Hrun. }
  subst e. exists out. split; [reflexivity|].
  apply (node_keeps_cumulative_sum_invariant (Ext := Reference.externals)
           (Examples.example_settings true false) _ out None eq_refl Hrun).
Defined.

(** ** Nothing but pieces of the input *)

Lemma substring_zero (s : string) (a : nat) : substring a 0 s = EmptyString.
Proof.
  revert a. induction s as [|c s IH]; intros a; [destruct a; reflexivity|].
  destruct a as [|a]; [reflexivity | apply IH].
Qed.

Lemma substring_substring (s : string) (a n b m : nat) :
  substring a n (substring b m s) = substring (b + a) (Nat.min n (m - a)) s.
Proof.
  revert a n b m. induction s as [|c s IH]; intros a n b m.
  - rewrite !substring_nil. reflexivity.
  - destruct b as [|b].
    + destruct m as [|m].
      * rewrite (substring_zero (String c s) 0), substring_nil.
        rewrite Nat.sub_0_l, Nat.min_0_r, substring_zero. reflexivity.
      * cbn [substring Nat.add]. destruct a as [|a].
        -- destruct n as [|n]; [reflexivity|].
           cbn [substring Nat.sub Nat.min]. rewrite (IH 0%nat n 0%nat m).
           rewrite Nat.sub_0_r. reflexivity.
        -- cbn [substring Nat.sub]. apply (IH a n 0%nat m).
    + cbn [substring Nat.add]. apply IH.
Qed.

Lemma piece_of_refl (s : string) : piece_of s s.
Proof. exists 0%nat, (String.length s). symmetry. apply substring_whole. Qed.

Lemma piece_of_trans (s t u : string) :
  piece_of s t -> piece_of t u -> piece_of s u.
Proof.
  intros (a & n & ->) (b & m & ->). rewrite substring_substring.
  eexists _, _. reflexivity.
Qed.

Lemma substr_piece (s out : string) (pos count : Z) :
  substr s pos count = Ok out -> piece_of s out.
Proof.
  unfold substr. destruct (pos >? str_size s); [discriminate|].
  intros [= <-]. eexists _, _. reflexivity.
Qed.

Lemma split_pieces `{Ext : Externals} (r : Read) (spacers : list PosRange)
    (children : list Read) :
  split r spacers = Ok children ->
  Forall (fun child => piece_of (seq r) (seq child) /\
                       piece_of (qstring r) (qstring child)) children.
Proof.
  destruct spacers as [|sp rest].
  - intros [= <-]. constructor; [|constructor]. split; apply piece_of_refl.
  - intros Hsplit. pose proof (split_children r sp rest children Hsplit) as Hch.
    clear Hsplit.
    induction Hch as [|c child l l' [s Hc] _ IH]; constructor; [|exact IH].
    destruct (subread_fields r child c s Hc) as (_ & _ & H1 & H2 & _).
    split; eapply substr_piece; eassumption.
Qed.

Lemma mapM_ExtRead_reads `{Ext : Externals} (subreads : list Read)
    (wrapped : list ExtRead) :
  mapM ExtRead_new subreads = Ok wrapped -> map read wrapped = subreads.
Proof.
  intros H. apply mapM_Forall2 in H. induction H as [|r e l l' Hr _ IH];
    [reflexivity|].
  destruct (ExtRead_new_read r e Hr) as [Hread _]. cbn [map].
  rewrite Hread, IH. reflexivity.
Qed.

Lemma split_round_pieces `{Ext : Externals} (init_read : Read)
    (f : SplitFinderF) (to_split acc out : list ExtRead) :
  pieces init_read to_split -> pieces init_read acc ->
  split_round f to_split acc = Ok out -> pieces init_read out.
Proof.
  unfold pieces. revert acc. induction to_split as [|r rest IH]; intros acc Hts Hacc.
  - intros [= <-]. exact Hacc.
  - inversion Hts as [|? ? [Hr1 Hr2] Hrest]; subst. cbn [split_round].
    destruct (f r) as [spacers|]; [|discriminate]. cbn [bind].
    destruct spacers as [|sp spacers].
    + apply IH; [exact Hrest|]. apply Forall_app. split; [exact Hacc|].
      constructor; [split; assumption | constructor].
    + destruct (split (read r) (sp :: spacers)) as [subreads|] eqn:Hs;
        [|discriminate].
      cbn [bind]. destruct (mapM ExtRead_new subreads) as [wrapped|] eqn:Hw;
        [|discriminate].
      cbn [bind]. apply IH; [exact Hrest|]. apply Forall_app.
      split; [exact Hacc|].
      apply mapM_ExtRead_reads in Hw. apply split_pieces in Hs.
      rewrite <- Hw in Hs. apply Forall_map in Hs.
      eapply Forall_impl; [|exact Hs]. intros e [H1 H2].
      split; eapply piece_of_trans; eassumption.
Qed.

Lemma split_rounds_pieces `{Ext : Externals} (init_read : Read)
    (finders : list (string * SplitFinderF)) (to_split out : list ExtRead) :
  pieces init_read to_split ->
  split_rounds finders to_split = Ok out -> pieces init_read out.
Proof.
  revert to_split. induction finders as [|[name f] rest IH]; intros to_split Hts.
  - intros [= <-]. exact Hts.
  - cbn [split_rounds].
    destruct (split_round f to_split []) as [res|] eqn:Hr; [|discriminate].
    cbn [bind]. apply IH.
    apply (split_round_pieces init_read f to_split [] res Hts (Forall_nil _) Hr).
Qed.

(** X27.  The node invents no base: the sequence of every read it pushes
    for a read it popped is a run of consecutive bases of the sequence of
    that read, and its quality string a run of the quality string, however
    many cuts the finders made. *)
Theorem node_pushes_pieces `{Ext : Externals}
    (finders : list (string * SplitFinderF)) (init_read : Read)
    (pushed : list Message) :
  process_read finders init_read = Ok pushed ->
  Forall (fun msg => exists child,
            msg = MsgRead child /\
            piece_of (seq init_read) (seq child) /\
            piece_of (qstring init_read) (qstring child))
         pushed.
Proof.
  unfold process_read.
  destruct (ExtRead_new init_read) as [ext|] eqn:Hext; [|discriminate].
  cbn [bind].
  destruct (split_rounds finders [ext]) as [to_split|] eqn:Hr; [|discriminate].
  cbn [bind]. intros [= <-].
  destruct (ExtRead_new_read _ _ Hext) as [Hread _].
  assert (Hall : pieces init_read to_split).
  { apply (split_rounds_pieces init_read finders [ext] to_split); [|exact Hr].
    constructor; [|constructor]. rewrite Hread. split; apply piece_of_refl. }
  apply Forall_map. eapply Forall_impl; [|exact Hall].
  intros sub [H1 H2]. eexists. split; [reflexivity|]. split; assumption.
Qed.

Lemma node_pushes_pieces_witness :
  let finders := build_split_finders (Examples.example_settings true false) in
  exists pushed,
    process_read finders Scenarios.flank_read = Ok pushed /\
    Forall (fun msg => exists child,
              msg = MsgRead child /\
              piece_of (seq Scenarios.flank_read) (seq child) /\
              piece_of (qstring Scenarios.flank_read) (qstring child))
           pushed.
Proof.
  intros finders.
  destruct (process_read finders Scenarios.flank_read) as [pushed|e] eqn:Hrun;
    [|vm_compute in Hrun; discriminate].
  exists pushed. split; [reflexivity|].
  apply (node_pushes_pieces (Ext := Reference.externals) finders _ pushed Hrun).
Defined.

(** ** The adapter search near a pore region *)

(** X28.  For a candidate region of the sequence, [check_nearby_adapter]
    passes the assertions on its search window, which runs from the start
    of the region to [pore_adapter_range] bases after its end or to the end
    of the sequence, and answers what the aligner says of the adapter in
    that window. *)
Theorem check_nearby_adapter_window `{Ext : Externals}
    (settings : DuplexSplitSettings) (rd : Read) (r : PosRange)
    (adapter_edist : Z) :
  region_in_seq rd r ->
  0 <= pore_adapter_range settings ->
  second r + pore_adapter_range settings < 2 ^ 64 ->
  let window_end :=
    Z.min (second r + pore_adapter_range settings) (str_size (seq rd)) in
  let found :=
    edlibAlign (adapter settings)
      (substring (Z.to_nat (first r)) (Z.to_nat (window_end - first r)) (seq rd))
      (edlibNewAlignConfig adapter_edist EDLIB_MODE_HW EDLIB_TASK_LOC) in
  first r < window_end /\ window_end <= str_size (seq rd) /\
  (status found = EDLIB_STATUS_OK -> editDistance found = -1 ->
   check_nearby_adapter settings rd r adapter_edist = Ok false) /\
  (status found = EDLIB_STATUS_OK -> editDistance found <> -1 ->
   editDistance found <= adapter_edist ->
   startLocations found <> [] -> endLocations found <> [] ->
   check_nearby_adapter settings rd r adapter_edist = Ok true) /\
  (status found <> EDLIB_STATUS_OK ->
   check_nearby_adapter settings rd r adapter_edist = Err AssertionFailed).
Proof.
  intros (H0 & H1 & H2) Hrange Hfit window_end found.
  assert (Hw1 : first r < window_end) by (unfold window_end; lia).
  assert (Hw2 : window_end <= str_size (seq rd)) by (unfold window_end; lia).
  split; [exact Hw1|]. split; [exact Hw2|].
  assert (Hrun : check_nearby_adapter settings rd r adapter_edist
                 = (assert (status found =? EDLIB_STATUS_OK) ;;;
                    m <- (if (status found =? EDLIB_STATUS_OK)
                             && negb (editDistance found =? -1)
                          then
                            assert (editDistance found <=? adapter_edist) ;;;
                            s <- index (startLocations found) 0 ;;
                            e <- index (endLocations found) 0 ;;
                            Ok (Some (wrap64 (s + first r),
                                      wrap64 (e + first r + 1)))
                          else Ok None) ;;
                    Ok (match m with Some _ => true | None => false end))).
  { unfold check_nearby_adapter, find_best_adapter_match.
    rewrite (wrap64_small (second r + pore_adapter_range settings)) by lia.
    fold window_end. cbn [first second fst snd].
    change (fst r) with (first r).
    replace ((first r <=? window_end) && (window_end <=? str_size (seq rd)))
      with true
      by (symmetry; apply andb_true_intro; split; apply Z.leb_le; lia).
    cbn [assert bind]. rewrite (wrap64_small (window_end - first r)) by lia.
    replace (window_end - first r =? 0) with false
      by (symmetry; apply Z.eqb_neq; lia).
    fold found. destruct (assert (status found =? EDLIB_STATUS_OK)); reflexivity. }
  rewrite Hrun. split; [|split].
  - intros Hs Hd. rewrite Hs, Hd. reflexivity.
  - intros Hs Hd Hle Hstart Hend. rewrite Hs.
    replace (editDistance found =? -1) with false
      by (symmetry; apply Z.eqb_neq; exact Hd).
    replace (editDistance found <=? adapter_edist) with true
      by (symmetry; apply Z.leb_le; exact Hle).
    destruct (startLocations found) as [|s ?]; [contradiction|].
    destruct (endLocations found) as [|e ?]; [contradiction|].
    reflexivity.
  - intros Hs. replace (status found =? EDLIB_STATUS_OK) with false
      by (symmetry; apply Z.eqb_neq; exact Hs).
    reflexivity.
Qed.

Lemma check_nearby_adapter_window_witness :
  check_nearby_adapter (Examples.example_settings true false)
    Scenarios.cut_read (3, 5) 0 = Ok true.
Proof.
  destruct (check_nearby_adapter_window (Ext := Reference.externals)
              (Examples.example_settings true false) Scenarios.cut_read (3, 5) 0)
    as (_ & _ & _ & H & _).
  - unfold region_in_seq, first, second, str_size. simpl. lia.
  - simpl. lia.
  - unfold second. simpl. lia.
  - apply H; vm_compute; try reflexivity; discriminate.
Defined.

(** ** The samples of a cut *)

Lemma tensor_slice_join {A : Type} (a b c : Z) (t : list A) :
  0 <= a -> a <= b -> b <= c -> c <= size t ->
  tensor_slice a b t ++ tensor_slice b c t = tensor_slice a c t.
Proof.
  intros Ha Hab Hbc Hc. unfold tensor_slice, size in *.
  rewrite !Z.min_l by lia.
  set (x := Z.to_nat a). set (y := Z.to_nat b). set (z := Z.to_nat c).
  assert (Hxy : (x <= y)%nat) by lia. assert (Hyz : (y <= z)%nat) by lia.
  assert (Hz : (z <= List.length t)%nat) by lia.
  rewrite <- (firstn_skipn y (firstn z t)) at 2.
  rewrite firstn_firstn, Nat.min_l by exact Hyz.
  rewrite skipn_app, length_firstn.
  replace (x - Nat.min y (List.length t))%nat with 0%nat by lia.
  reflexivity.
Qed.

Lemma tensor_slice_tail {A : Type} (a : Z) (t : list A) :
  0 <= a <= size t -> tensor_slice a (size t) t = skipn (Z.to_nat a) t.
Proof.
  intros Ha. unfold tensor_slice. rewrite Z.min_id, Z.min_l by lia.
  unfold size. rewrite Nat2Z.id, firstn_all. reflexivity.
Qed.

(** The slices of a signal cut at spacers, woven with the slices of the
    spacers, are the signal from the first slice on. *)
Lemma weave_slices {A B : Type} (t : list A) (g : Z -> Z) (piece : B -> list A)
    (len : Z) (spacers : list PosRange) (q : Z) (made : list B) :
  (forall a b, q <= a -> a <= b -> b <= len -> g a <= g b) ->
  0 <= g q -> g len <= size t ->
  spacers_from q len spacers ->
  Forall2 (fun c child => piece child = tensor_slice (g (first c)) (g (second c)) t)
    (child_ranges spacers q len) made ->
  weave_signal (map piece made)
    (map (fun sp => tensor_slice (g (first sp)) (g (second sp)) t) spacers)
  = tensor_slice (g q) (g len) t.
Proof.
  revert q made. induction spacers as [|sp rest IH]; intros q made Hg H0 Hlen Hsp Hall.
  - cbn [child_ranges] in Hall. inversion Hall as [|? child ? ? Hc Hnil]; subst.
    inversion Hnil; subst. cbn [map weave_signal]. exact Hc.
  - destruct Hsp as (H1 & H2 & H3). pose proof (spacers_from_le _ _ _ H3) as H4.
    cbn [child_ranges] in Hall. inversion Hall as [|? child ? made' Hc Hrest]; subst.
    cbn [map weave_signal].
    assert (G1 : g q <= g (first sp)) by (apply Hg; lia).
    assert (G2 : g (first sp) <= g (second sp)) by (apply Hg; lia).
    assert (G3 : g (second sp) <= g len) by (apply Hg; lia).
    rewrite (IH (second sp) made'); [| |lia|exact Hlen|exact H3|exact Hrest].
    + rewrite Hc. change (first (q, first sp)) with q.
      change (second (q, first sp)) with (first sp).
      rewrite (tensor_slice_join (g (first sp))) by lia.
      apply tensor_slice_join; lia.
    + intros a b Ha Hab Hb. apply Hg; lia.
Qed.

(** The signal of a subread made for a child range and its image under
    the map is the slice of the signal between the two images. *)
Lemma made_slices `{Ext : Externals} (r : Read) (l : list PosRange)
    (made : list Read) :
  mapM (fun qs => subread r (fst qs) (snd qs))
    (map (fun c => (c, image (seq_to_sig r) c)) l) = Ok made ->
  Forall2 (fun c child =>
             raw_data child
             = tensor_slice (seq_to_sig r (first c)) (seq_to_sig r (second c))
                 (raw_data r))
    l made.
Proof.
  revert made. induction l as [|c l IH]; intros made.
  - intros [= <-]. constructor.
  - cbn [map mapM fst snd].
    destruct (subread r c (image (seq_to_sig r) c)) as [child|] eqn:Hc;
      [|discriminate].
    cbn [bind]. destruct (mapM _ _) as [made'|]; [|discriminate]. cbn [bind].
    intros [= <-]. constructor; [|apply IH; reflexivity].
    destruct (subread_fields r child _ _ Hc) as (_ & Hraw & _). exact Hraw.
Qed.

(** X29.  A cut loses no sample after the first base boundary: when [split]
    returns on sorted, disjoint spacers, the signals of the children woven
    with the samples of the spacers are the signal of the read from
    [seq_to_sig_map[0]] on. *)
Theorem split_signal_reassembles `{Ext : Externals} (r : Read) (sp : PosRange)
    (rest : list PosRange) (children : list Read) :
  data_model r -> cumulative_sum_invariant r ->
  spacers_from 0 (str_size (seq r)) (sp :: rest) ->
  split r (sp :: rest) = Ok children ->
  weave_signal (map raw_data children) (map (signal_of r) (sp :: rest))
  = skipn (Z.to_nat (seq_to_sig r 0)) (raw_data r).
Proof.
  intros Hmodel Hsums Hsp Hsplit.
  assert (HL : 0 <= str_size (seq r)) by (unfold str_size; lia).
  pose proof (seq_to_sig_index r Hmodel Hsums 0 ltac:(lia)) as H0.
  pose proof (split_loop_record r Hmodel Hsums (sp :: rest) 0 (Z.le_refl 0) Hsp)
    as Hrec.
  unfold split, cut in Hsplit. fold_sig_map r. rewrite H0 in Hsplit.
  cbn [bind] in Hsplit.
  destruct (split_loop_factory r subread _ _ _ _ _ Hsplit)
    as (ranges & made & Hr & Hm & ->).
  rewrite Hrec in Hr. injection Hr as <-. cbn [app].
  assert (Hall :
    Forall2 (fun c child =>
               raw_data child
               = tensor_slice (seq_to_sig r (first c)) (seq_to_sig r (second c))
                   (raw_data r))
      (child_ranges (sp :: rest) 0 (str_size (seq r))) made).
  { apply made_slices. exact Hm. }
  assert (Hstart : 0 <= seq_to_sig r 0).
  { apply index_Ok in H0. destruct H0 as [_ Hnth].
    apply (from_below_bound _ 0 _ _ (sig_map_sorted r Hmodel) Hnth). }
  unfold signal_of.
  rewrite (weave_slices (raw_data r) (seq_to_sig r) raw_data (str_size (seq r))
             (sp :: rest) 0 made).
  - pose proof (seq_to_sig_mono r Hmodel Hsums 0 (str_size (seq r))
                  (Z.le_refl 0) HL (Z.le_refl _)) as Hle.
    rewrite (seq_to_sig_end r Hmodel Hsums) in *.
    apply tensor_slice_tail. lia.
  - intros a b Ha Hab Hb. apply (seq_to_sig_mono r Hmodel Hsums); lia.
  - exact Hstart.
  - rewrite (seq_to_sig_end r Hmodel Hsums). lia.
  - exact Hsp.
  - exact Hall.
Qed.

Lemma split_signal_reassembles_witness :
  let r := Examples.late_start_read in
  exists children,
    split r [(1, 2)] = Ok children /\
    weave_signal (map raw_data children) [signal_of r (1, 2)]
    = skipn 2 (raw_data r).
Proof.
  intros r.
  destruct (split r [(1, 2)]) as [children|e] eqn:Hsplit;
    [|vm_compute in Hsplit; discriminate].
  exists children. split; [reflexivity|].
  apply (split_signal_reassembles (Ext := Reference.externals) r (1, 2) []
           children);
    [example_data_model | reflexivity
     | unfold first, second, str_size; simpl; lia | exact Hsplit].
Defined.

